(** * APIGitWorkspace: a client-side virtual filesystem with Git-like semantics

    This development embeds the parts of the repository that its
    specification talks about and checks the specification's properties
    against them:

    - [Utf8], [JS], [Sha1]: [sha1] of [src/utils/sha1.ts], with the
      JavaScript operators and built-ins it uses; [Fips180] is SHA-1 as the
      standard defines it, and [Sha1View] the vocabulary that relates the two;
    - [Async], [GitLab]: [createCommitWithActions] of
      [src/git/gitlabAdapter.clean.ts], with promises, parsed JSON and the
      request it posts;
    - [NodeFs]: [NodeFsStorage] of [src/virtualfs/persistence.ts];
    - [VirtualFS]: the VFS state machine (write, delete, rename, base
      snapshot, pull, push, change set, path listing), modelled from the
      specification;
    - [JSText], [GitLabLocal]: the constructor of the adapter and its methods
      that do not call [fetch];
    - [Setup]: [scripts/setup-gitlab.js], which writes the configuration the
      adapter is made from;
    - [InMemory], [BlobOps]: [test/unit/helpers/inmemoryStorage.ts], and
      sequences of blob operations on it and on [NodeFsStorage];
    - [Browser], [MemBrowser]: [BrowserStorage] of
      [src/virtualfs/persistence.ts], and a browser in memory to run it in.

    Definitions come first, the theorems follow in the [*Facts] modules. *)

From Stdlib Require Import ZArith Lia Ascii String.
From stdpp Require Import base decidable option list finite gmap strings sorting pretty.

Local Open Scope Z_scope.

(* ===================================================================== *)
(** * UTF-16 strings and their UTF-8 encoding *)
(* ===================================================================== *)

(** A string is the list of its UTF-16 code units.  Its UTF-8 encoding
    (RFC 3629) combines each surrogate pair into one code point and writes
    every code point as one to four octets; a string with an unpaired
    surrogate has no UTF-8 encoding. *)
Module Utf8.

Definition isLeadSurrogate (u : Z) : bool := (55296 <=? u) && (u <=? 56319).
Definition isTrailSurrogate (u : Z) : bool := (56320 <=? u) && (u <=? 57343).

(** The UTF-8 transformation of a code point. *)
Definition utf8Octets (cp : Z) : list Z :=
  if cp <? 128 then [cp]
  else if cp <? 2048 then [192 + cp / 64; 128 + cp mod 64]
  else if cp <? 65536 then
    [224 + cp / 4096; 128 + (cp / 64) mod 64; 128 + cp mod 64]
  else
    [240 + cp / 262144; 128 + (cp / 4096) mod 64;
     128 + (cp / 64) mod 64; 128 + cp mod 64].

Fixpoint encode (s : list Z) : option (list Z) :=
  match s with
  | [] => Some []
  | u :: rest =>
      if isTrailSurrogate u then None
      else if isLeadSurrogate u then
        match rest with
        | t :: rest' =>
            if isTrailSurrogate t then
              (λ r, utf8Octets (65536 + (u - 55296) * 1024 + (t - 56320)) ++ r)
                <$> encode rest'
            else None
        | [] => None
        end
      else (λ r, utf8Octets u ++ r) <$> encode rest
  end.

End Utf8.

(* ===================================================================== *)
(** * The content hasher: [src/utils/sha1.ts] *)
(* ===================================================================== *)

(** JavaScript numbers that hold integers are [Z]; a string is the list of
    its UTF-16 code units; [undefined] (a hole of an array, a read past the
    end of a string) is [None]. *)
Module JS.
Import Utf8.

Definition toUint32 (x : Z) : Z := x mod 2^32.

Definition toInt32 (x : Z) : Z :=
  let u := x mod 2^32 in if u <? 2^31 then u else u - 2^32.

(** [undefined] and [NaN] convert to [0] under the integer conversions. *)
Definition optInt32 (o : option Z) : Z :=
  match o with Some x => toInt32 x | None => 0 end.

(** [a & b], [a | b], [a ^ b], [~a]: on 32-bit signed operands, with a
    32-bit signed result. *)
Definition and (a b : Z) : Z := toInt32 (Z.land (toInt32 a) (toInt32 b)).
Definition or (a b : Z) : Z := toInt32 (Z.lor (toInt32 a) (toInt32 b)).
Definition xor (a b : Z) : Z := toInt32 (Z.lxor (toInt32 a) (toInt32 b)).
Definition not (a : Z) : Z := toInt32 (Z.lnot (toInt32 a)).

(** [a << n], [a >> n], [a >>> n]: the shift count is taken modulo 32. *)
Definition shl (a n : Z) : Z := toInt32 (Z.shiftl (toInt32 a) (toUint32 n mod 32)).
Definition shr (a n : Z) : Z := Z.shiftr (toInt32 a) (toUint32 n mod 32).
Definition ushr (a n : Z) : Z := Z.shiftr (toUint32 a) (toUint32 n mod 32).

(** An array: its [length] and its elements; writing at an index at or
    past the length extends the array, leaving holes. *)
Record Array := mkArray {
  alength : Z;
  aelems : gmap Z Z
}.

Definition emptyArray : Array := mkArray 0 ∅.

Definition aget (a : Array) (k : Z) : option Z := aelems a !! k.

Definition aset (a : Array) (k v : Z) : Array :=
  mkArray (Z.max (alength a) (k + 1)) (<[k := v]> (aelems a)).

(** [s.charCodeAt(i)]; [NaN] past the end. *)
Definition charCodeAt (s : list Z) (i : Z) : option Z :=
  if i <? 0 then None else s !! Z.to_nat i.

(** ** [encodeURIComponent] and [unescape] *)

(** The characters [encodeURIComponent] leaves alone: letters, digits and
    [- _ . ! ~ * ' ( )]. *)
Definition uriUnreserved (u : Z) : bool :=
  ((65 <=? u) && (u <=? 90)) || ((97 <=? u) && (u <=? 122)) ||
  ((48 <=? u) && (u <=? 57)) ||
  bool_decide (u ∈ [45; 95; 46; 33; 126; 42; 39; 40; 41]).

Definition hexUpper (v : Z) : Z := if v <? 10 then 48 + v else 55 + v.

(** An octet as [%XX]. *)
Definition percentEncode (o : Z) : list Z :=
  [37; hexUpper (o / 16); hexUpper (o mod 16)].

(** [encodeURIComponent(s)]; [None] is the [URIError] thrown at a surrogate
    that has no partner. *)
Fixpoint encodeURIComponent (s : list Z) : option (list Z) :=
  match s with
  | [] => Some []
  | u :: rest =>
      if uriUnreserved u then (λ r, u :: r) <$> encodeURIComponent rest
      else if isTrailSurrogate u then None
      else if isLeadSurrogate u then
        match rest with
        | t :: rest' =>
            if isTrailSurrogate t then
              (λ r, (utf8Octets (65536 + (u - 55296) * 1024 + (t - 56320))
                       ≫= percentEncode) ++ r)
                <$> encodeURIComponent rest'
            else None
        | [] => None
        end
      else (λ r, (utf8Octets u ≫= percentEncode) ++ r)
             <$> encodeURIComponent rest
  end.

Definition hexValue (c : Z) : option Z :=
  if (48 <=? c) && (c <=? 57) then Some (c - 48)
  else if (65 <=? c) && (c <=? 70) then Some (c - 55)
  else if (97 <=? c) && (c <=? 102) then Some (c - 87)
  else None.

(** [unescape(s)]: [%uXXXX] and [%XX] become the character with that code,
    everything else stays. *)
Fixpoint unescape (s : list Z) : list Z :=
  match s with
  | [] => []
  | c :: rest =>
      if c =? 37 then
        match rest with
        | x1 :: x2 :: rest2 =>
            let two :=
              match hexValue x1, hexValue x2 with
              | Some a, Some b => 16 * a + b :: unescape rest2
              | _, _ => c :: unescape rest
              end in
            if x1 =? 117 then
              match rest2 with
              | y2 :: y3 :: y4 :: rest5 =>
                  match hexValue x2, hexValue y2, hexValue y3, hexValue y4 with
                  | Some a, Some b, Some d, Some e =>
                      4096 * a + 256 * b + 16 * d + e :: unescape rest5
                  | _, _, _, _ => two
                  end
              | _ => two
              end
            else two
        | _ => c :: unescape rest
        end
      else c :: unescape rest
  end.

End JS.

Module Sha1.
Import JS.

(** [toHexStr]: the eight hexadecimal digits of a 32-bit number, most
    significant first; [toString(16)] of a value below 16 is one lowercase
    digit. *)
Definition digit16 (v : Z) : ascii :=
  ascii_of_N (Z.to_N (if v <? 10 then 48 + v else 87 + v)).

Definition toHexStr (num : Z) : string :=
  foldl (λ s i, s +:+ String (digit16 (and (ushr num (i * 4)) 15)) EmptyString)
    EmptyString [7; 6; 5; 4; 3; 2; 1; 0].

(** The first loop: [words[i >> 2] |= (msg.charCodeAt(i) & 0xff) << (24 - (i % 4) * 8)]. *)
Definition packByte (msg : list Z) (words : Array) (i : Z) : Array :=
  let k := shr i 2 in
  aset words k
    (or (optInt32 (aget words k))
        (shl (and (optInt32 (charCodeAt msg i)) 255) (24 - (i mod 4) * 8))).

(** The message bytes, the [0x80] mark and the bit length, as big-endian
    32-bit words. *)
Definition messageWords (msg : list Z) : Array :=
  let msgLen := Z.of_nat (length msg) in
  let words := foldl (packByte msg) emptyArray (seqZ 0 msgLen) in
  let k := shr msgLen 2 in
  let words := aset words k
                 (or (optInt32 (aget words k))
                     (shl 128 (24 - (msgLen mod 4) * 8))) in
  aset words ((shr (msgLen + 8) 6 + 1) * 16 - 1) (msgLen * 8).

(** [w[0..79]] of the block starting at word [i]; [w[t]] is read as
    [nth t w]. *)
Definition scheduleStep (w : list Z) (t : nat) : list Z :=
  let tmp := xor (xor (xor (optInt32 (w !! (t - 3)%nat)) (optInt32 (w !! (t - 8)%nat)))
                      (optInt32 (w !! (t - 14)%nat)))
                 (optInt32 (w !! (t - 16)%nat)) in
  (w ++ [ushr (or (shl tmp 1) (ushr tmp 31)) 0])%list.

Definition schedule (words : Array) (i : Z) : list Z :=
  let w16 := (λ t, or (optInt32 (aget words (i + t))) 0) <$> seqZ 0 16 in
  foldl scheduleStep w16 (seq 16 64).

(** One of the 80 rounds, on [(a, b, c, d, e)]. *)
Definition round (w : list Z) (st : Z * Z * Z * Z * Z) (t : nat)
  : Z * Z * Z * Z * Z :=
  let '(a, b, c, d, e) := st in
  let '(f, k) :=
    if (t <? 20)%nat then (or (and b c) (and (not b) d), 1518500249)
    else if (t <? 40)%nat then (xor (xor b c) d, 1859775393)
    else if (t <? 60)%nat then (or (or (and b c) (and b d)) (and c d), 2400959708)
    else (xor (xor b c) d, 3395469782) in
  let temp :=
    ushr (or (shl a 5) (ushr a 27) + f + e + k + ushr (optInt32 (w !! t)) 0) 0 in
  (temp, a, or (shl b 30) (ushr b 2), c, d).

Definition processBlock (words : Array) (h : Z * Z * Z * Z * Z) (i : Z)
  : Z * Z * Z * Z * Z :=
  let '(h0, h1, h2, h3, h4) := h in
  let w := schedule words i in
  let '(a, b, c, d, e) := foldl (round w) h (seq 0 80) in
  (ushr (h0 + a) 0, ushr (h1 + b) 0, ushr (h2 + c) 0, ushr (h3 + d) 0,
   ushr (h4 + e) 0).

(** The values [i] takes in [for (i = 0; i < words.length; i += 16)]. *)
Definition blockStarts (words : Array) : list Z :=
  (λ j, 16 * j) <$> seqZ 0 ((alength words + 15) / 16).

Definition initialHash : Z * Z * Z * Z * Z :=
  (1732584193, 4023233417, 2562383102, 271733878, 3285377520).

Definition digestOf (msg : list Z) : string :=
  let words := messageWords msg in
  let '(h0, h1, h2, h3, h4) := foldl (processBlock words) initialHash (blockStarts words) in
  toHexStr h0 +:+ toHexStr h1 +:+ toHexStr h2 +:+ toHexStr h3 +:+ toHexStr h4.

(** [sha1(message)]; [None] when [encodeURIComponent] throws. *)
Definition sha1 (message : list Z) : option string :=
  digestOf <$> (unescape <$> encodeURIComponent message).

(** The code units of a string of one-byte characters. *)
Definition codeUnits (s : string) : list Z :=
  (λ c, Z.of_N (N_of_ascii c)) <$> list_ascii_of_string s.

(** [sha1] on such a string, where it never throws. *)
Definition sha1Text (s : string) : string :=
  default EmptyString (sha1 (codeUnits s)).

End Sha1.

(* ===================================================================== *)
(** * SHA-1 as the standard defines it *)
(* ===================================================================== *)

(** SHA-1 as FIPS 180-4 defines it, on a message given as a list of bytes.
    Words are numbers below [2^32]. *)
Module Fips180.

(** [ROTL n x], the circular left shift of a word (section 3.2). *)
Definition ROTL (n x : Z) : Z := Z.lor ((x * 2 ^ n) mod 2 ^ 32) (x / 2 ^ (32 - n)).

(** The functions [f_t] (section 4.1.1). *)
Definition Ch (x y z : Z) : Z := Z.lxor (Z.land x y) (Z.land (Z.lnot x) z).
Definition Parity (x y z : Z) : Z := Z.lxor (Z.lxor x y) z.
Definition Maj (x y z : Z) : Z :=
  Z.lxor (Z.lxor (Z.land x y) (Z.land x z)) (Z.land y z).

Definition f (t : nat) : Z → Z → Z → Z :=
  if (t <? 20)%nat then Ch
  else if (t <? 40)%nat then Parity
  else if (t <? 60)%nat then Maj
  else Parity.

(** The constants [K_t] (section 4.2.1): 5a827999, 6ed9eba1, 8f1bbcdc,
    ca62c1d6. *)
Definition K (t : nat) : Z :=
  if (t <? 20)%nat then 1518500249
  else if (t <? 40)%nat then 1859775393
  else if (t <? 60)%nat then 2400959708
  else 3395469782.

(** Four bytes as one big-endian word. *)
Definition beWord (b0 b1 b2 b3 : Z) : Z :=
  b0 * 2 ^ 24 + b1 * 2 ^ 16 + b2 * 2 ^ 8 + b3.

Fixpoint beWords (bs : list Z) : list Z :=
  match bs with
  | b0 :: b1 :: b2 :: b3 :: rest => beWord b0 b1 b2 b3 :: beWords rest
  | _ => []
  end.

(** Padding (section 5.1.1): the bit 1, then zero bits up to 448 modulo
    512, then the length in bits as a 64-bit number; the result as words. *)
Definition pad (M : list Z) : list Z :=
  let l := Z.of_nat (length M) in
  (beWords (M ++ 128 :: replicate (Z.to_nat ((55 - l) mod 64)) 0)
     ++ [(8 * l) / 2 ^ 32; (8 * l) mod 2 ^ 32])%list.

(** The initial hash value (section 5.3.1). *)
Definition H0 : Z * Z * Z * Z * Z :=
  (1732584193, 4023233417, 2562383102, 271733878, 3285377520).

(** The message schedule (section 6.1.2, step 1). *)
Definition Wat (W : list Z) (t : nat) : Z := default 0 (W !! t).

Definition nextW (W : list Z) (t : nat) : list Z :=
  (W ++ [ROTL 1 (Z.lxor (Z.lxor (Z.lxor (Wat W (t - 3)) (Wat W (t - 8)))
                          (Wat W (t - 14))) (Wat W (t - 16)))])%list.

Definition messageSchedule (M : list Z) : list Z := foldl nextW M (seq 16 64).

(** Step 3 of section 6.1.2, for one [t]. *)
Definition step (W : list Z) (v : Z * Z * Z * Z * Z) (t : nat)
  : Z * Z * Z * Z * Z :=
  let '(a, b, c, d, e) := v in
  ((ROTL 5 a + f t b c d + e + K t + Wat W t) mod 2 ^ 32, a, ROTL 30 b, c, d).

(** Steps 1 to 4 for the block [M]. *)
Definition compress (h : Z * Z * Z * Z * Z) (M : list Z) : Z * Z * Z * Z * Z :=
  let '(h0, h1, h2, h3, h4) := h in
  let '(a, b, c, d, e) := foldl (step (messageSchedule M)) h (seq 0 80) in
  ((a + h0) mod 2 ^ 32, (b + h1) mod 2 ^ 32, (c + h2) mod 2 ^ 32,
   (d + h3) mod 2 ^ 32, (e + h4) mod 2 ^ 32).

(** The final hash value, over the 16-word blocks of the padded message. *)
Definition hash (M : list Z) : Z * Z * Z * Z * Z :=
  let ws := pad M in
  foldl (λ h i, compress h (take 16 (drop (16 * i) ws))) H0
    (seq 0 (length ws / 16)).

(** The 160-bit digest as twenty bytes. *)
Definition wordBytes (w : Z) : list Z :=
  [w / 2 ^ 24 mod 256; w / 2 ^ 16 mod 256; w / 2 ^ 8 mod 256; w mod 256].

Definition SHA1 (M : list Z) : list Z :=
  let '(h0, h1, h2, h3, h4) := hash M in
  [h0; h1; h2; h3; h4] ≫= wordBytes.

(** Lowercase hexadecimal, two digits a byte. *)
Definition hexDigit (v : Z) : ascii :=
  ascii_of_N (Z.to_N (if v <? 10 then 48 + v else 87 + v)).

Definition hex (bytes : list Z) : string :=
  string_of_list_ascii (bytes ≫= λ b, [hexDigit (b / 16); hexDigit (b mod 16)]).

Definition isLowerHex (c : ascii) : bool :=
  let n := Z.of_N (N_of_ascii c) in
  ((48 <=? n) && (n <=? 57)) || ((97 <=? n) && (n <=? 102)).

End Fips180.

(** The vocabulary in which the loops of [sha1] are compared with the
    standard. *)
Module Sha1View.
Import JS Sha1.

(** A UTF-16 code unit, and a byte. *)
Definition isCodeUnit (u : Z) : Prop := 0 ≤ u < 65536.
Definition isByte (b : Z) : Prop := 0 ≤ b < 256.

(** The byte at position [i], zero past the end. *)
Definition byteAt (bs : list Z) (i : Z) : Z := default 0 (bs !! Z.to_nat i).

(** The big-endian word made of the bytes [4k .. 4k+3]. *)
Definition wordAt (bs : list Z) (k : Z) : Z :=
  Fips180.beWord (byteAt bs (4 * k)) (byteAt bs (4 * k + 1))
                 (byteAt bs (4 * k + 2)) (byteAt bs (4 * k + 3)).

(** The element [k] of an array as an unsigned 32-bit number, a hole
    counting as zero; and the whole array read that way. *)
Definition uword (words : Array) (k : Z) : Z := toUint32 (optInt32 (aget words k)).

Definition arrayWords (words : Array) : list Z :=
  uword words <$> seqZ 0 (alength words).

(** The sixteen words of the block that starts at index [i]. *)
Definition blockAt (words : Array) (i : Z) : list Z :=
  (λ t, toUint32 (optInt32 (aget words (i + t)))) <$> seqZ 0 16.

(** The number of 32-bit words of the padded message. *)
Definition paddedLength (msg : list Z) : Z :=
  (((Z.of_nat (length msg) + 8) / 64) + 1) * 16.

(** The five working variables as unsigned 32-bit numbers. *)
Definition u5 (v : Z * Z * Z * Z * Z) : Z * Z * Z * Z * Z :=
  let '(a, b, c, d, e) := v in
  (toUint32 a, toUint32 b, toUint32 c, toUint32 d, toUint32 e).

(** The digit [i] (from the least significant) of a word in base 16. *)
Definition nibble (w i : Z) : Z := (w / 2 ^ (4 * i)) mod 16.

(** The characters of a Rocq string are finitely many. *)
#[global] Instance ascii_finite : Finite ascii :=
  enc_finite nat_of_ascii ascii_of_nat 256
    ascii_nat_embedding nat_ascii_bounded nat_ascii_embedding.


End Sha1View.

(* ===================================================================== *)
(** * Promises, errors and parsed JSON *)
(* ===================================================================== *)

Module Async.

(** A thrown [Error]: its constructor name and its message. *)
Record JsError := mkError {
  ename : string;
  emessage : string
}.

(** How an awaited promise settles. *)
Inductive Settled (A : Type) :=
| Resolved (a : A)
| Rejected (e : JsError).
Arguments Resolved {A} a.
Arguments Rejected {A} e.

(** A value as [JSON.parse] builds it, and [undefined]. *)
#[local] Unset Elimination Schemes.
Inductive JsValue :=
| JUndefined
| JNull
| JBool (b : bool)
| JNumber (n : Z)
| JString (s : string)
| JArray (items : list JsValue)
| JObject (fields : list (string * JsValue)).
#[local] Set Elimination Schemes.

(** [ToBoolean]. *)
Definition truthy (v : JsValue) : bool :=
  match v with
  | JUndefined | JNull => false
  | JBool b => b
  | JNumber n => negb (n =? 0)
  | JString s => negb (String.eqb s EmptyString)
  | JArray _ | JObject _ => true
  end.

Fixpoint lookupField (k : string) (fields : list (string * JsValue))
  : option JsValue :=
  match fields with
  | [] => None
  | (k', v) :: rest =>
      match lookupField k rest with
      | Some v' => Some v'
      | None => if String.eqb k k' then Some v else None
      end
  end.

(** [v.k] for a key that no prototype defines: a [TypeError] on [null] and
    [undefined], the field of an object (the last one of that name wins),
    [undefined] otherwise. *)
Definition getProp (v : JsValue) (k : string) : Settled JsValue :=
  match v with
  | JUndefined | JNull =>
      Rejected (mkError "TypeError" ("Cannot read properties of null (reading '" +:+ k +:+ "')"))
  | JObject fields => Resolved (default JUndefined (lookupField k fields))
  | _ => Resolved JUndefined
  end.

(** Does the message of an error contain the given text? *)
Fixpoint isPrefix (p s : string) : bool :=
  match p, s with
  | EmptyString, _ => true
  | String a p', String b s' => Ascii.eqb a b && isPrefix p' s'
  | String _ _, EmptyString => false
  end.

Fixpoint contains (needle s : string) : bool :=
  isPrefix needle s ||
  match s with
  | EmptyString => false
  | String _ s' => contains needle s'
  end.

End Async.

(* ===================================================================== *)
(** * The GitLab adapter: [src/git/gitlabAdapter.clean.ts] *)
(* ===================================================================== *)

Module GitLab.
Import Async.

(** An element of [changes]: [{ type, path, content? }]. *)
Record ChangeInput := mkChange {
  type : string;
  path : string;
  content : option string
}.

(** An element of [actions], the object that the callback of [changes.map]
    returns: [acontent] is [None] when the object has no [content] key, and
    [Some None] when it has the key and the key holds [undefined]. *)
Record Action := mkAction {
  action : string;
  file_path : string;
  acontent : option (option string)
}.

(** An element of [actions] in the text that [JSON.stringify] writes: a key
    that holds [undefined] is left out, so that [pcontent] is [None] both for
    an object without a [content] key and for one whose [content] is
    [undefined]. *)
Record PostedAction := mkPosted {
  paction : string;
  pfile_path : string;
  pcontent : option string
}.

(** The arguments of [fetch]: the target, the method, the headers and the
    body, which is the text of [{ branch, commit_message, actions }]. *)
Record Request := mkRequest {
  url : string;
  method : string;
  headers : list (string * string);
  branch : string;
  commit_message : string;
  actions : list PostedAction
}.

(** What [createCommitWithActions] reads of a response. *)
Record Response := mkResponse {
  ok : bool;
  status : Z;
  text : Settled string;
  json : Settled JsValue
}.

(** The adapter after construction. *)
Record Adapter := mkAdapter {
  baseUrl : string;
  aheaders : list (string * string)
}.

(** [fetch]: how the call number [n] (from 0) with a given request
    settles. *)
Definition Fetch := nat → Request → Settled Response.

(** The callback of [changes.map]. *)
Definition toAction (c : ChangeInput) : Action :=
  if String.eqb (type c) "delete" then mkAction "delete" (path c) None
  else if String.eqb (type c) "create" then mkAction "create" (path c) (Some (content c))
  else mkAction "update" (path c) (Some (content c)).

(** What [JSON.stringify] writes of one action. *)
Definition stringifyAction (a : Action) : PostedAction :=
  mkPosted (action a) (file_path a)
    (match acontent a with
     | Some (Some c) => Some c
     | Some None | None => None
     end).

(** The call [fetch(url, { method: 'POST', headers: this.headers, body })]
    of [createCommitWithActions]. *)
Definition commitRequest (self : Adapter) (branch message : string)
    (changes : list ChangeInput) : Request :=
  let url := baseUrl self +:+ "/repository/commits" in
  let actions := toAction <$> changes in
  mkRequest url "POST" (aheaders self) branch message (stringifyAction <$> actions).

(** [createCommitWithActions]: how the returned promise settles, and how
    many times [fetch] was called. *)
Definition createCommitWithActions (self : Adapter) (fetch : Fetch)
    (branch message : string) (changes : list ChangeInput)
  : Settled JsValue * nat :=
  match fetch 0%nat (commitRequest self branch message changes) with
  | Rejected e => (Rejected e, 1%nat)
  | Resolved res =>
      if negb (ok res) then
        let txt := match text res with
                   | Resolved t => t
                   | Rejected _ => EmptyString
                   end in
        (Rejected (mkError "Error"
           ("GitLab commit failed: " +:+ pretty (status res) +:+ " " +:+ txt)),
         1%nat)
      else
        match json res with
        | Rejected e => (Rejected e, 1%nat)
        | Resolved j =>
            (match getProp j "id" with
             | Rejected e => Rejected e
             | Resolved id =>
                 if truthy id then Resolved id
                 else match getProp j "commit" with
                      | Rejected e => Rejected e
                      | Resolved commit =>
                          if truthy commit then Resolved commit else Resolved j
                      end
             end, 1%nat)
        end
  end.

(** ** The adapter and the mocks of the test suite *)

(** The text of a response body [{ id: ... }]. *)
Definition quote : string := String (ascii_of_nat 34) EmptyString.

Definition bodyWithId (id : string) : string :=
  "{" +:+ quote +:+ "id" +:+ quote +:+ ":" +:+ quote +:+ id +:+ quote +:+ "}".

(** A 2xx response carrying the commit [id]. *)
Definition created (code : Z) (id : string) : Response :=
  mkResponse true code (Resolved (bodyWithId id))
    (Resolved (JObject [("id", JString id)])).

(** A 200 response with the body [{}]. *)
Definition okEmptyObject : Response :=
  mkResponse true 200 (Resolved "{}") (Resolved (JObject [])).

(** A 200 response whose body [not-json] does not parse. *)
Definition jsonSyntaxError : JsError :=
  mkError "SyntaxError" "Unexpected token o in JSON at position 1".

Definition okNotJson : Response :=
  mkResponse true 200 (Resolved "not-json") (Rejected jsonSyntaxError).

(** [new GitLabAdapter({ projectId: '1', token: 't' })]. *)
Definition adapter1 : Adapter :=
  mkAdapter "https://gitlab.com/api/v4/projects/1"
    [("PRIVATE-TOKEN", "t"); ("Content-Type", "application/json")].

Definition createA : list ChangeInput := [mkChange "create" "a" (Some "c")].

(** The mock of 'retries on 500 then succeeds': the first call answers 500
    with body [err], every later call answers with the commit [ok-id]. *)
Definition fetch500ThenOk : Fetch :=
  λ n _, match n with
         | O => Resolved (mkResponse false 500 (Resolved "err")
                            (Rejected jsonSyntaxError))
         | _ => Resolved (created 200 "ok-id")
         end.

(** The mock of 'retries when fetch throws then succeeds'. *)
Definition fetchThrowsThenOk : Fetch :=
  λ n _, match n with
         | O => Rejected (mkError "Error" "network")
         | _ => Resolved (created 200 "ok-123")
         end.

End GitLab.

(* ===================================================================== *)
(** * The filesystem backend: [NodeFsStorage] of [src/virtualfs/persistence.ts] *)
(* ===================================================================== *)

Module NodeFs.
Import Async.

(** The part of [fs/promises], [path] and [JSON] the class calls, over a
    filesystem state [W]. *)
Record Platform (W : Type) := mkPlatform {
  fs_mkdir : string → W → Settled unit * W;
  fs_readFile : string → W → Settled string;
  fs_writeFile : string → string → W → Settled unit * W;
  fs_unlink : string → W → Settled unit * W;
  path_join : string → string → string;
  path_dirname : string → string;
  JSON_parse : string → Settled JsValue;
  JSON_stringify : JsValue → string
}.
Arguments fs_mkdir {W}.
Arguments fs_readFile {W}.
Arguments fs_writeFile {W}.
Arguments fs_unlink {W}.
Arguments path_join {W}.
Arguments path_dirname {W}.
Arguments JSON_parse {W}.
Arguments JSON_stringify {W}.

Section NodeFsStorage.
Context {W : Type} (node : Platform W).

(** The object after [new NodeFsStorage(dir)]. *)
Record NodeFsStorage := mkStorage {
  dir : string;
  indexPath : string
}.

Definition construct (d : string) : NodeFsStorage :=
  mkStorage d (path_join node d "index.json").

Definition init (self : NodeFsStorage) (w : W) : Settled unit * W :=
  fs_mkdir node (dir self) w.

(** [readIndex]: [null] whenever reading or parsing throws. *)
Definition readIndex (self : NodeFsStorage) (w : W) : Settled JsValue :=
  match fs_readFile node (indexPath self) w with
  | Rejected _ => Resolved JNull
  | Resolved raw =>
      match JSON_parse node raw with
      | Rejected _ => Resolved JNull
      | Resolved v => Resolved v
      end
  end.

Definition writeIndex (self : NodeFsStorage) (index : JsValue) (w : W)
  : Settled unit * W :=
  fs_writeFile node (indexPath self) (JSON_stringify node index) w.

Definition writeBlob (self : NodeFsStorage) (filepath content : string) (w : W)
  : Settled unit * W :=
  let full := path_join node (dir self) filepath in
  match fs_mkdir node (path_dirname node full) w with
  | (Rejected e, w') => (Rejected e, w')
  | (Resolved _, w') => fs_writeFile node full content w'
  end.

(** [readBlob]: the content, or [null] ([None]) whenever reading throws. *)
Definition readBlob (self : NodeFsStorage) (filepath : string) (w : W)
  : Settled (option string) :=
  match fs_readFile node (path_join node (dir self) filepath) w with
  | Resolved c => Resolved (Some c)
  | Rejected _ => Resolved None
  end.

(** [deleteBlob]: whatever [unlink] throws is ignored. *)
Definition deleteBlob (self : NodeFsStorage) (filepath : string) (w : W)
  : Settled unit * W :=
  match fs_unlink node (path_join node (dir self) filepath) w with
  | (_, w') => (Resolved (), w')
  end.

End NodeFsStorage.

(** ** A filesystem in memory *)

(** Files by full path; directories are implied by the paths. *)
Definition MemFs := gmap string string.

Definition enoent (syscall p : string) : JsError :=
  mkError "Error" ("ENOENT: no such file or directory, " +:+ syscall +:+ " '" +:+ p +:+ "'").

(** A small [JSON.parse]: it knows [null] and [{}] and rejects the rest, which
    is enough to tell a parsed index from an unparseable one. *)
Definition parseTiny (raw : string) : Settled JsValue :=
  if String.eqb raw "null" then Resolved JNull
  else if String.eqb raw "{}" then Resolved (JObject [])
  else Rejected (mkError "SyntaxError" "Unexpected token in JSON").

Definition memPlatform : Platform MemFs :=
  mkPlatform MemFs
    (λ _ w, (Resolved (), w))
    (λ p w, match w !! p with
            | Some c => Resolved c
            | None => Rejected (enoent "open" p)
            end)
    (λ p c w, (Resolved (), <[p := c]> w))
    (λ p w, match w !! p with
            | Some _ => (Resolved (), delete p w)
            | None => (Rejected (enoent "unlink" p), w)
            end)
    (λ d f, d +:+ "/" +:+ f)
    (λ p, p)
    parseTiny
    (λ _, "{}").

End NodeFs.

(* ===================================================================== *)
(** * The VFS state machine *)
(* ===================================================================== *)

Module VirtualFS.

(** The verified tree holds the tests of the VFS core but not the core itself
    ([src/virtualfs/virtualfs.ts] and its [types.ts]).  Every definition of
    this module is therefore modelled from the specification: the data model
    of section 3 and the operations of section 4.4. *)

(** Modelled from the spec: the [state] field of an index entry (missing:
    [types.ts]), the closed enum of section 3. *)
Inductive EntryState := StBase | StAdded | StModified | StDeleted | StConflict.

#[global] Instance EntryState_eq_dec : EqDecision EntryState.
Proof. solve_decision. Defined.

(** Modelled from the spec: the index entry [E] of section 3 (missing:
    [types.ts]).  It is stored under its path; the [updatedAt] stamp is read
    from the clock and takes no part in any decision, it is left out. *)
Record IndexEntry := mkEntry {
  state : EntryState;
  baseSha : option string;
  workspaceSha : option string;
  remoteSha : option string
}.

#[global] Instance IndexEntry_eq_dec : EqDecision IndexEntry.
Proof. solve_decision. Defined.

(** Modelled from the spec: the state of a [VirtualFS] instance (missing:
    [virtualfs.ts] and the storage behind it): the index file
    [{head, entries}] of section 3 and the workspace, base and conflict
    segments. *)
Record VFS := mkVFS {
  head : string;
  entries : gmap string IndexEntry;
  workspace : gmap string string;
  base : gmap string string;
  conflictSeg : gmap string string
}.

(** Modelled from the spec: a change-set action [{create|update|delete,
    path, content?}] of section 4.3 (missing: [types.ts]). *)
Inductive Change :=
| Create (path content : string)
| Update (path content : string)
| Delete (path : string).

#[global] Instance Change_eq_dec : EqDecision Change.
Proof. solve_decision. Defined.

Definition changePath (c : Change) : string :=
  match c with Create p _ | Update p _ | Delete p => p end.

(** Modelled from the spec: one element [{path, remoteSha}] of the
    [conflicts] list that [pull] returns (scenario 5 of section 8). *)
Record ConflictInfo := mkConflict {
  cpath : string;
  cremoteSha : option string
}.

(** Modelled from the spec: the result [{fetchedPaths, conflicts}] of [pull]
    (section 4.4.6). *)
Record PullResult := mkPullResult {
  fetchedPaths : list string;
  conflicts : list ConflictInfo
}.

(** Modelled from the spec: the argument [{message, parentSha, changes?}] of
    [push] (section 4.4.7). *)
Record PushInput := mkPushInput {
  message : string;
  parentSha : string;
  changes : option (list Change)
}.

(** Modelled from the spec: the result [{noop, commitSha}] of [push]. *)
Record PushResult := mkPushResult {
  noop : bool;
  commitSha : string
}.

(** Modelled from the spec: the error kinds of section 7 that the VFS itself
    raises, and the remote failure it passes on. *)
Inductive VfsError :=
| HeadMismatch
| UnresolvedConflicts
| SourceNotFound
| RemoteFailure (msg : string).

(** Modelled from the spec: how a call ends, with its result or with an
    error thrown. *)
Inductive Outcome (A : Type) :=
| Ok (a : A)
| Err (e : VfsError).
Arguments Ok {A} a.
Arguments Err {A} e.

(** Modelled from the spec: the state after [init] on an empty storage root,
    [{head: '', entries: {}}] (section 4.4.1). *)
Definition initial : VFS := mkVFS EmptyString ∅ ∅ ∅ ∅.

(** ** Segment and index updates *)

(** Modelled from the spec: the elementary writes of the operations below, one
    to the head, two to the index entries and two to each blob segment
    (missing: the storage calls of [virtualfs.ts]). *)
Definition setHead (h : string) (s : VFS) : VFS :=
  mkVFS h (entries s) (workspace s) (base s) (conflictSeg s).

Definition setEntry (p : string) (e : IndexEntry) (s : VFS) : VFS :=
  mkVFS (head s) (<[p := e]> (entries s)) (workspace s) (base s) (conflictSeg s).

Definition dropEntry (p : string) (s : VFS) : VFS :=
  mkVFS (head s) (delete p (entries s)) (workspace s) (base s) (conflictSeg s).

Definition writeWorkspaceBlob (p c : string) (s : VFS) : VFS :=
  mkVFS (head s) (entries s) (<[p := c]> (workspace s)) (base s) (conflictSeg s).

Definition deleteWorkspaceBlob (p : string) (s : VFS) : VFS :=
  mkVFS (head s) (entries s) (delete p (workspace s)) (base s) (conflictSeg s).

Definition writeBaseBlob (p c : string) (s : VFS) : VFS :=
  mkVFS (head s) (entries s) (workspace s) (<[p := c]> (base s)) (conflictSeg s).

Definition deleteBaseBlob (p : string) (s : VFS) : VFS :=
  mkVFS (head s) (entries s) (workspace s) (delete p (base s)) (conflictSeg s).

Definition writeConflictBlob (p c : string) (s : VFS) : VFS :=
  mkVFS (head s) (entries s) (workspace s) (base s) (<[p := c]> (conflictSeg s)).

Definition deleteConflictBlob (p : string) (s : VFS) : VFS :=
  mkVFS (head s) (entries s) (workspace s) (base s) (delete p (conflictSeg s)).


(** Modelled from the spec: [listPaths] (section 4.4.9 with invariant 7 of
    section 3), the indexed paths with the tombstones filtered out. *)
Definition listPaths (s : VFS) : list string :=
  (map_to_list (filter (λ pe, state pe.2 ≠ StDeleted) (entries s))).*1.

(** ** The change set *)

(** Modelled from the spec: the order of the change set (step 1 of section
    4.4.7), lexicographic by path, a delete before a create or update of the
    same path. *)
Definition changeRank (c : Change) : nat :=
  match c with Delete _ => 0%nat | Create _ _ | Update _ _ => 1%nat end.

Definition changeLe (c1 c2 : Change) : Prop :=
  match String.compare (changePath c1) (changePath c2) with
  | Lt => True
  | Gt => False
  | Eq => (changeRank c1 ≤ changeRank c2)%nat
  end.

#[global] Instance changeLe_dec c1 c2 : Decision (changeLe c1 c2).
Proof. unfold changeLe. destruct (String.compare _ _); apply _. Defined.

(** Modelled from the spec: the action an entry stands for (step 1 of section
    4.4.7): added is a create, modified an update,
    deleted a delete; the content is the workspace blob. *)
Definition changeOf (ws : gmap string string) (pe : string * IndexEntry)
  : option Change :=
  match state pe.2 with
  | StAdded => Some (Create pe.1 (default EmptyString (ws !! pe.1)))
  | StModified => Some (Update pe.1 (default EmptyString (ws !! pe.1)))
  | StDeleted => Some (Delete pe.1)
  | StBase | StConflict => None
  end.

(** Modelled from the spec: [getChangeSet] (section 4.4.8), the ordered
    projection of the index entries. *)
Definition getChangeSet (s : VFS) : list Change :=
  merge_sort changeLe (omap (changeOf (workspace s)) (map_to_list (entries s))).

(** ** What a confirmed commit does *)

(** Modelled from the spec: the second precondition of [push] (section
    4.4.7), no entry in state [conflict]. *)
Definition hasConflict (s : VFS) : bool :=
  bool_decide (∃ p e, entries s !! p = Some e ∧ state e = StConflict).

(** Modelled from the spec: step 4 of [push] on one entry: an added or
    modified entry returns to [base] with [baseSha] its [workspaceSha], a
    deleted one is dropped. *)
Definition commitEntry (e : IndexEntry) : option IndexEntry :=
  match state e with
  | StAdded | StModified => Some (mkEntry StBase (workspaceSha e) None None)
  | StDeleted => None
  | StBase | StConflict => Some e
  end.

(** Modelled from the spec: the entries whose bytes a commit moves (added,
    modified) and the ones it drops (tombstones). *)
Definition isDirty (es : gmap string IndexEntry) (p : string) : Prop :=
  ∃ e, es !! p = Some e ∧ (state e = StAdded ∨ state e = StModified).

Definition isTombstone (es : gmap string IndexEntry) (p : string) : Prop :=
  ∃ e, es !! p = Some e ∧ state e = StDeleted.

#[global] Instance isDirty_dec es p : Decision (isDirty es p).
Proof.
  unfold isDirty. destruct (es !! p) as [e|].
  - destruct (decide (state e = StAdded ∨ state e = StModified)).
    + left. eauto.
    + right. intros (e' & [= <-] & ?). tauto.
  - right. intros (e' & ? & ?). discriminate.
Defined.

#[global] Instance isTombstone_dec es p : Decision (isTombstone es p).
Proof.
  unfold isTombstone. destruct (es !! p) as [e|].
  - destruct (decide (state e = StDeleted)).
    + left. eauto.
    + right. intros (e' & [= <-] & ?). tauto.
  - right. intros (e' & ? & ?). discriminate.
Defined.

(** Modelled from the spec: step 4 of [push] on the whole state.  After a
    confirmed commit added and modified bytes move from the
    workspace to the base, tombstones go, the head advances. *)
Definition applyCommit (sha : string) (s : VFS) : VFS :=
  let es := entries s in
  mkVFS sha
    (omap commitEntry es)
    (filter (λ pc, ¬ isDirty es pc.1) (workspace s))
    (filter (λ pc, isDirty es pc.1) (workspace s)
       ∪ filter (λ pc, ¬ isDirty es pc.1 ∧ ¬ isTombstone es pc.1) (base s))
    (conflictSeg s).

(** ** Views used in the statements *)

(** What the VFS holds for one path. *)
Definition cell (s : VFS) (p : string)
  : option IndexEntry * option string * option string * option string :=
  (entries s !! p, workspace s !! p, base s !! p, conflictSeg s !! p).


(** The states [listPaths] shows. *)
Definition visible (es : gmap string IndexEntry) (p : string) : Prop :=
  ∃ e, es !! p = Some e ∧
       (state e = StBase ∨ state e = StAdded ∨ state e = StModified ∨
        state e = StConflict).

(** A tombstone as its user sees it: the entry is in the index in state
    [deleted], the path is not listed, and its delete is in the change set. *)
Definition tombstoned (s : VFS) (p : string) : Prop :=
  isTombstone (entries s) p ∧ (p ∉ listPaths s) ∧ Delete p ∈ getChangeSet s.


Section Core.

(** The content hasher [H] of section 4.1, [sha1] of [src/utils/sha1.ts] in
    the program. *)
Variable H : string → string.

(** ** writeFile *)

(** Modelled from the spec: [writeFile] (section 4.4.2), case by case on the
    entry of the path. *)
Definition writeFile (p c : string) (s : VFS) : VFS :=
  let sha := H c in
  match entries s !! p with
  | None =>
      setEntry p (mkEntry StAdded None (Some sha) None) (writeWorkspaceBlob p c s)
  | Some e =>
      match state e with
      | StBase =>
          if decide (baseSha e = Some sha) then s
          else setEntry p (mkEntry StModified (baseSha e) (Some sha) None)
                 (writeWorkspaceBlob p c s)
      | StAdded | StModified =>
          if decide (baseSha e = Some sha)
          then setEntry p (mkEntry StBase (baseSha e) None (remoteSha e))
                 (deleteWorkspaceBlob p s)
          else setEntry p (mkEntry (state e) (baseSha e) (Some sha) (remoteSha e))
                 (writeWorkspaceBlob p c s)
      | StDeleted =>
          setEntry p (mkEntry StModified (baseSha e) (Some sha) None)
            (writeWorkspaceBlob p c s)
      | StConflict =>
          setEntry p (mkEntry StConflict (baseSha e) (Some sha) (remoteSha e))
            (writeWorkspaceBlob p c s)
      end
  end.

(** ** deleteFile *)

(** Modelled from the spec: [deleteFile] (section 4.4.3); a path without an
    entry, for which the section has no case, is left alone. *)
Definition deleteFile (p : string) (s : VFS) : VFS :=
  match entries s !! p with
  | None => s
  | Some e =>
      match state e with
      | StBase | StModified | StConflict =>
          setEntry p (mkEntry StDeleted (baseSha e) None None)
            (deleteConflictBlob p (deleteWorkspaceBlob p s))
      | StAdded => dropEntry p (deleteWorkspaceBlob p s)
      | StDeleted => s
      end
  end.

(** ** renameWorkspace *)


(** ** applyBaseSnapshot *)




(** ** pull *)

(** Modelled from the spec: the action 'conflict' of the table of section
    4.4.6.  The remote bytes (when there are any) go to the conflict
    segment, the entry moves to [conflict] with [remoteSha] set, and the
    path is appended to the conflicts found so far. *)
Definition raiseConflict (p : string) (e : IndexEntry) (remote : option string)
    (acc : VFS * list ConflictInfo) : VFS * list ConflictInfo :=
  let rsha := H <$> remote in
  let s1 := match remote with
            | Some c => writeConflictBlob p c acc.1
            | None => acc.1
            end in
  (setEntry p (mkEntry StConflict (baseSha e) (workspaceSha e) rsha) s1,
   (acc.2 ++ [mkConflict p rsha])%list).

(** Modelled from the spec: the action 'promote' of the table of section
    4.4.6.  The workspace bytes become the base bytes and the entry returns to
    [base]. *)
Definition promoteToBase (p : string) (e : IndexEntry) (s : VFS) : VFS :=
  let s1 := match workspace s !! p with
            | Some w => writeBaseBlob p w s
            | None => s
            end in
  setEntry p (mkEntry StBase (workspaceSha e) None None) (deleteWorkspaceBlob p s1).

(** Modelled from the spec: the table of section 4.4.6, for one path.  'Same
    content' is decided on the shas, as the rows for [modified] say.  The table
    has no row for an entry already in state [conflict], and none for a path
    that is in neither index nor snapshot: nothing is done there. *)
Definition pullPath (snapshot : gmap string string)
    (acc : VFS * list ConflictInfo) (p : string) : VFS * list ConflictInfo :=
  let s := acc.1 in
  match entries s !! p, snapshot !! p with
  | None, Some c =>
      (setEntry p (mkEntry StBase (Some (H c)) None None) (writeBaseBlob p c s), acc.2)
  | None, None => acc
  | Some e, Some c =>
      match state e with
      | StBase =>
          if decide (baseSha e = Some (H c)) then acc
          else (setEntry p (mkEntry StBase (Some (H c)) (workspaceSha e) (remoteSha e))
                  (writeBaseBlob p c s), acc.2)
      | StModified | StAdded =>
          if decide (workspaceSha e = Some (H c))
          then (promoteToBase p e s, acc.2)
          else raiseConflict p e (Some c) acc
      | StDeleted => raiseConflict p e (Some c) acc
      | StConflict => acc
      end
  | Some e, None =>
      match state e with
      | StDeleted => (dropEntry p s, acc.2)
      | StBase => (dropEntry p (deleteBaseBlob p s), acc.2)
      | StModified => raiseConflict p e None acc
      | StAdded => acc
      | StConflict => acc
      end
  end.

(** Modelled from the spec: the paths [pull] goes through, old, remote and
    workspace, each once. *)
Definition pullPaths (snapshot : gmap string string) (s : VFS) : list string :=
  elements (dom (entries s) ∪ dom snapshot ∪ dom (workspace s)).

(** Modelled from the spec: [pull] with a given snapshot (section 4.4.6): the
    table row by row, then the head.  [fetchedPaths] are the paths of the
    snapshot. *)
Definition pull (remoteHead : string) (snapshot : gmap string string) (s : VFS)
  : PullResult * VFS :=
  let r := foldl (pullPath snapshot) (s, []) (pullPaths snapshot s) in
  (mkPullResult (elements (dom snapshot)) r.2, setHead remoteHead r.1).

(** ** States a pull has nothing to do on *)

(** A path is settled against a snapshot when its table row asks for
    nothing: no entry and no remote file, a base entry that already carries
    the remote content's sha, an added entry the remote does not have, or an
    entry already in conflict. *)
Definition settled (S : gmap string string) (s : VFS) (p : string) : Prop :=
  match entries s !! p, S !! p with
  | None, None => True
  | None, Some _ => False
  | Some e, Some c =>
      (state e = StBase ∧ baseSha e = Some (H c)) ∨ state e = StConflict
  | Some e, None => state e = StAdded ∨ state e = StConflict
  end.

(** ** What every operation keeps *)



(** ** push *)

(** Modelled from the spec: the remote seen from [push], that is what
    [createCommitWithActions], wrapped in the retry helper,
    answers for a message and a list of actions. *)
Variable createCommitWithActions : string → list Change → Outcome string.

(** Modelled from the spec: [push] (section 4.4.7): the two preconditions,
    then steps 1 to 5. *)
Definition push (input : PushInput) (s : VFS) : Outcome PushResult * VFS :=
  if decide (parentSha input = head s) then
    if hasConflict s then (Err UnresolvedConflicts, s)
    else
      let cs := default (getChangeSet s) (changes input) in
      match cs with
      | [] => (Ok (mkPushResult true (parentSha input)), s)
      | _ =>
          match createCommitWithActions (message input) cs with
          | Err e => (Err e, s)
          | Ok sha => (Ok (mkPushResult false sha), applyCommit sha s)
          end
      end
  else (Err HeadMismatch, s).

(** ** The top-level operations *)



End Core.


End VirtualFS.

(* ===================================================================== *)
(** * Texts of one-byte characters *)
(* ===================================================================== *)

(** Outside [sha1], a string is a [string]: its characters are the code
    units below 256.  The operations of JavaScript on such texts. *)
Module JSText.

(** A text from its code units. *)
Definition textOf (units : list Z) : string :=
  string_of_list_ascii ((λ u, ascii_of_N (Z.to_N u)) <$> units).

(** [encodeURIComponent(s)]; [None] is its [URIError]. *)
Definition encodeURIComponentText (s : string) : option string :=
  textOf <$> JS.encodeURIComponent (Sha1.codeUnits s).

(** [x || d] for an optional string [x]: [d] when [x] is missing or empty. *)
Definition orElse (x : option string) (d : string) : string :=
  match x with
  | Some s => if String.eqb s EmptyString then d else s
  | None => d
  end.

(** [s.endsWith(suffix)]. *)
Definition endsWith (s suffix : string) : bool :=
  bool_decide (list_ascii_of_string suffix `suffix_of` list_ascii_of_string s).

(** [s.split('/')]. *)
Fixpoint splitSlash (s : string) : list string :=
  match s with
  | EmptyString => [EmptyString]
  | String c rest =>
      let parts := splitSlash rest in
      if Ascii.eqb c "/" then EmptyString :: parts
      else match parts with
           | first :: more => String c first :: more
           | [] => [String c EmptyString]
           end
  end.

(** How [encodeURIComponent] writes a one-byte character: as it is, or as
    the octets of its UTF-8 encoding, each as [%XX]. *)
Definition encodeUnit (u : Z) : list Z :=
  if JS.uriUnreserved u then [u] else Utf8.utf8Octets u ≫= JS.percentEncode.

(** The code units of an encoded URI component: the unreserved ones and
    [%]. *)
Definition safeUnit (u : Z) : Prop := JS.uriUnreserved u = true ∨ u = 37.

Definition urlSafe (c : ascii) : bool :=
  let u := Z.of_N (N_of_ascii c) in JS.uriUnreserved u || (u =? 37).

(** A text with every [%] written as [%25]. *)
Fixpoint escapePercent (s : string) : string :=
  match s with
  | EmptyString => EmptyString
  | String c rest =>
      if Ascii.eqb c "%" then String "%" (String "2" (String "5" (escapePercent rest)))
      else String c (escapePercent rest)
  end.

End JSText.

(* ===================================================================== *)
(** * The rest of the GitLab adapter: [src/git/gitlabAdapter.clean.ts] *)
(* ===================================================================== *)

(** The constructor and the methods that do not call [fetch]. *)
Module GitLabLocal.
Import Async GitLab JSText.

(** [GLOpts]: [{ projectId, token, host? }]. *)
Record GLOpts := mkOpts {
  projectId : string;
  token : string;
  host : option string
}.

(** [new GitLabAdapter(opts)]; [None] is the [URIError] of
    [encodeURIComponent]. *)
Definition construct (opts : GLOpts) : option Adapter :=
  let host := orElse (host opts) "https://gitlab.com" in
  (λ id, mkAdapter (host +:+ "/api/v4/projects/" +:+ id)
           [("PRIVATE-TOKEN", token opts); ("Content-Type", "application/json")]%string)
    <$> encodeURIComponentText (projectId opts).

(** [shaOf]: [crypto.createHash('sha1').update(content, 'utf8').digest('hex')],
    Node's SHA-1 of the UTF-8 bytes of [content], in lowercase hexadecimal. *)
Definition shaOf (content : string) : string :=
  Fips180.hex (Fips180.SHA1 (Sha1.codeUnits content ≫= Utf8.utf8Octets)).

(** What [update(undefined, 'utf8')] throws. *)
Definition invalidArgType : JsError :=
  mkError "TypeError"
    ("The " +:+ quote +:+ "data" +:+ quote +:+
     " argument must be of type string or an instance of Buffer, TypedArray, or DataView. Received undefined").

(** [this.shaOf(c.content)], where the content may be missing. *)
Definition shaOfArg (content : option string) : Settled string :=
  match content with
  | Some c => Resolved (shaOf c)
  | None => Rejected invalidArgType
  end.

(** [map[k] = v] on an object literal, for a string [v]: the key
    [__proto__] is the accessor of [Object.prototype], whose setter ignores
    a value that is not an object; any other key becomes an own property. *)
Definition setOwn (k v : string) (map : gmap string string) : gmap string string :=
  if String.eqb k "__proto__" then map else <[k := v]> map.

(** [c.type === 'create' || c.type === 'update']. *)
Definition isWrite (c : ChangeInput) : bool :=
  String.eqb (type c) "create" || String.eqb (type c) "update".

(** One turn of the loop of [createBlobs]; once the loop has thrown, nothing
    more happens. *)
Definition blobStep (acc : Settled (gmap string string)) (c : ChangeInput)
  : Settled (gmap string string) :=
  match acc with
  | Rejected e => Rejected e
  | Resolved map =>
      if isWrite c then
        match shaOfArg (content c) with
        | Resolved sha => Resolved (setOwn (path c) sha map)
        | Rejected e => Rejected e
        end
      else Resolved map
  end.

(** [createBlobs]: the sha of every created or updated path. *)
Definition createBlobs (changes : list ChangeInput) : Settled (gmap string string) :=
  foldl blobStep (Resolved ∅) changes.

(** [createTree]: a name made from the clock, [Date.now()]. *)
Definition createTree (now : Z) (changes : list ChangeInput) (baseTreeSha : option string)
  : Settled string :=
  Resolved ("gitlab-tree-" +:+ pretty now).

(** [createCommit]: the parent itself. *)
Definition createCommit (message parentSha treeSha : string) : Settled string :=
  Resolved parentSha.

(** [updateRef]: nothing to do with the commits API. *)
Definition updateRef (ref commitSha : string) (force : bool) : Settled unit :=
  Resolved ().

(** The contents written to path [p], in the order of the changes. *)
Definition writesTo (p : string) (changes : list ChangeInput) : list string :=
  omap (λ c, if isWrite c && String.eqb (path c) p then content c else None) changes.

(** A 500 answer with body [err], whatever the call. *)
Definition fetchAlways500 : Fetch :=
  λ _ _, Resolved (mkResponse false 500 (Resolved "err") (Rejected jsonSyntaxError)).

End GitLabLocal.

(* ===================================================================== *)
(** * The setup script: [scripts/setup-gitlab.js] *)
(* ===================================================================== *)

Module Setup.
Import Async JSText.

(** The variables of [process.env] that the script reads, and
    [initialRootPassword]: the trimmed password line of
    [/etc/gitlab/initial_root_password], when the file is there and has
    one. *)
Record ProcessEnv := mkEnv {
  env_GITLAB_URL : option string;
  env_ROOT_PASSWORD : option string;
  env_PROJECT_NAME : option string;
  env_OUTPUT_FILE : option string;
  env_GITLAB_HOST_HEADER : option string;
  env_PRIVATE_TOKEN : option string;
  initialRootPassword : option string
}.

(** The options of a [fetch] call; [body] is the value that
    [JSON.stringify] is applied to. *)
Record FetchOpts := mkFetchOpts {
  method : option string;
  headers : option (gmap string string);
  body : option JsValue
}.

Record Call := mkCall {
  url : string;
  opts : FetchOpts
}.

(** [fetch]: how the call number [n] (from 0) settles. *)
Definition Fetch := nat → Call → Settled GitLab.Response.

(** Is [headers[k]] truthy? *)
Definition hasHeader (hs : gmap string string) (k : string) : bool :=
  match hs !! k with
  | Some v => negb (String.eqb v EmptyString)
  | None => false
  end.

Definition notAFunction (what : string) : JsError :=
  mkError "TypeError" (what +:+ " is not a function").

(** [v === s] for a string [s]. *)
Definition isString (v : JsValue) (s : string) : bool :=
  match v with
  | JString t => String.eqb t s
  | _ => false
  end.

(** [ns.endsWith(suffix)] on a value [ns]. *)
Definition callEndsWith (ns : JsValue) (suffix : string) : Settled bool :=
  match ns with
  | JString s => Resolved (endsWith s suffix)
  | JUndefined =>
      Rejected (mkError "TypeError"
        "Cannot read properties of undefined (reading 'endsWith')")
  | JNull =>
      Rejected (mkError "TypeError"
        "Cannot read properties of null (reading 'endsWith')")
  | _ => Rejected (notAFunction "p.path_with_namespace.endsWith")
  end.

Definition notReady : JsError :=
  mkError "Error" "GitLab did not become ready in time".

Definition sessionNotFound : JsError :=
  mkError "Error"
    "Session endpoint not found (404). GitLab API may be unavailable or changed. Consider creating a personal access token for `root` and set PRIVATE_TOKEN in the setup container.".

Section Script.
Variable env : ProcessEnv.

Definition GITLAB_URL : string := orElse (env_GITLAB_URL env) "http://gitlab".

Definition ROOT_PASSWORD : string :=
  orElse (env_ROOT_PASSWORD env) (orElse (initialRootPassword env) "password").

Definition PROJECT_NAME : string := orElse (env_PROJECT_NAME env) "test-repo".

Definition GITLAB_HOST_HEADER : string :=
  orElse (env_GITLAB_HOST_HEADER env) "localhost:8929".

(** [fetchWithHost]: the call it passes to [fetch]. *)
Definition fetchWithHost (url : string) (opts : FetchOpts) : Call :=
  let hs := default ∅ (headers opts) in
  let hs := if negb (hasHeader hs "Host") && negb (hasHeader hs "host")
            then <["Host"%string := GITLAB_HOST_HEADER]> hs else hs in
  mkCall url (mkFetchOpts (method opts) (Some hs) (body opts)).

Definition probes : list string :=
  ["/-/readiness"; "/-/health"; "/help"; "/api/v4/version"]%string.

Definition probeCall (p : string) : Call :=
  fetchWithHost (GITLAB_URL +:+ p) (mkFetchOpts (Some "GET"%string) None None).

Definition sessionCall : Call :=
  fetchWithHost (GITLAB_URL +:+ "/api/v4/session")
    (mkFetchOpts (Some "POST"%string)
       (Some {["Content-Type"%string := "application/json"%string]})
       (Some (JObject [("login", JString "root"); ("password", JString ROOT_PASSWORD)]%string))).

Definition createCall (token : string) : Call :=
  fetchWithHost (GITLAB_URL +:+ "/api/v4/projects")
    (mkFetchOpts (Some "POST"%string)
       (Some {["Content-Type"%string := "application/json"%string;
               "PRIVATE-TOKEN"%string := token]})
       (Some (JObject [("name", JString PROJECT_NAME); ("path", JString PROJECT_NAME);
                       ("initialize_with_readme", JBool true)]%string))).

Definition searchCall (token query : string) : Call :=
  fetchWithHost (GITLAB_URL +:+ "/api/v4/projects?search=" +:+ query)
    (mkFetchOpts None (Some {["PRIVATE-TOKEN"%string := token]}) None).

(** [p.path === PROJECT_NAME || p.path_with_namespace.endsWith('/' + PROJECT_NAME)]. *)
Definition isProject (p : JsValue) : Settled bool :=
  match getProp p "path" with
  | Rejected e => Rejected e
  | Resolved path =>
      if isString path PROJECT_NAME then Resolved true
      else match getProp p "path_with_namespace" with
           | Rejected e => Rejected e
           | Resolved ns => callEndsWith ns ("/" +:+ PROJECT_NAME)
           end
  end.

(** [items.find(isProject)]; [undefined] when no element is one. *)
Fixpoint findProject (items : list JsValue) : Settled JsValue :=
  match items with
  | [] => Resolved JUndefined
  | p :: rest =>
      match isProject p with
      | Rejected e => Rejected e
      | Resolved true => Resolved p
      | Resolved false => findProject rest
      end
  end.

(** [arr.find(...)] on what the search answered. *)
Definition findIn (arr : JsValue) : Settled JsValue :=
  match arr with
  | JArray items => findProject items
  | JUndefined =>
      Rejected (mkError "TypeError" "Cannot read properties of undefined (reading 'find')")
  | JNull =>
      Rejected (mkError "TypeError" "Cannot read properties of null (reading 'find')")
  | _ => Rejected (notAFunction "arr.find")
  end.

(** The end of the 400 branch: [res.text()], then the error. *)
Definition createFailed400 (res : GitLab.Response) : Settled JsValue :=
  match GitLab.text res with
  | Rejected e => Rejected e
  | Resolved txt => Rejected (mkError "Error" ("Failed to create project (400): " +:+ txt))
  end.

Section WithFetch.
Variable fetch : Fetch.

(** [for (const p of probes)], from the call number [n]: whether a probe
    was answered [ok], and the number of calls made by then. *)
Fixpoint probeAll (n : nat) (ps : list string) : bool * nat :=
  match ps with
  | [] => (false, n)
  | p :: rest =>
      match fetch n (probeCall p) with
      | Resolved res => if GitLab.ok res then (true, S n) else probeAll (S n) rest
      | Rejected _ => probeAll (S n) rest
      end
  end.

(** [for (let i = 0; i < 200; i++)], with [rounds] rounds to go: how the
    promise settles, the calls made and the number of [wait(3000)]. *)
Fixpoint waitLoop (rounds n waits : nat) : Settled unit * nat * nat :=
  match rounds with
  | O => (Rejected notReady, n, waits)
  | S rounds' =>
      match probeAll n probes with
      | (true, n') => (Resolved (), n', waits)
      | (false, n') => waitLoop rounds' n' (S waits)
      end
  end.

Definition waitForGitLab : Settled unit * nat * nat := waitLoop 200 0 0.

(** [createSession], as the call number [n]. *)
Definition createSession (n : nat) : Settled JsValue :=
  match fetch n sessionCall with
  | Rejected e => Rejected e
  | Resolved res =>
      if GitLab.status res =? 404 then Rejected sessionNotFound
      else if negb (GitLab.ok res) then
        match GitLab.text res with
        | Rejected e => Rejected e
        | Resolved text =>
            Rejected (mkError "Error"
              ("Failed to create session: " +:+ pretty (GitLab.status res) +:+ " " +:+ text))
        end
      else
        match GitLab.json res with
        | Rejected e => Rejected e
        | Resolved data =>
            match getProp data "private_token" with
            | Rejected e => Rejected e
            | Resolved token =>
                if truthy token then Resolved token
                else Rejected (mkError "Error" "No private_token in session response")
            end
        end
  end.

(** [createProject(token)], from the call number [n]: how it settles, and
    the number of calls made by then. *)
Definition createProject (token : string) (n : nat) : Settled JsValue * nat :=
  match fetch n (createCall token) with
  | Rejected e => (Rejected e, S n)
  | Resolved res =>
      if GitLab.status res =? 400 then
        match encodeURIComponentText PROJECT_NAME with
        | None => (Rejected (mkError "URIError" "URI malformed"), S n)
        | Some query =>
            match fetch (S n) (searchCall token query) with
            | Rejected e => (Rejected e, S (S n))
            | Resolved list =>
                if GitLab.ok list then
                  match GitLab.json list with
                  | Rejected e => (Rejected e, S (S n))
                  | Resolved arr =>
                      match findIn arr with
                      | Rejected e => (Rejected e, S (S n))
                      | Resolved found =>
                          if truthy found then (Resolved found, S (S n))
                          else (createFailed400 res, S (S n))
                      end
                  end
                else (createFailed400 res, S (S n))
            end
        end
      else if negb (GitLab.ok res) then
        match GitLab.text res with
        | Rejected e => (Rejected e, S n)
        | Resolved txt =>
            (Rejected (mkError "Error"
               ("Failed to create project: " +:+ pretty (GitLab.status res) +:+ " " +:+ txt)),
             S n)
        end
      else (GitLab.json res, S n)
  end.

(** Is the answer to the call number [k] of [waitForGitLab] an [ok]
    response?  The call probes [probes[k % 4]]. *)
Definition okAt (k : nat) : bool :=
  match fetch k (probeCall (default EmptyString (probes !! (k mod 4)%nat))) with
  | Resolved res => GitLab.ok res
  | Rejected _ => false
  end.

End WithFetch.

(** The configuration that [main] writes, for a token and a project whose
    [path_with_namespace] are strings; [None] is the [URIError] of
    [encodeURIComponent]. *)
Definition configOf (token path_with_namespace : string) : option GitLabLocal.GLOpts :=
  (λ id, GitLabLocal.mkOpts id token (Some GITLAB_URL))
    <$> encodeURIComponentText path_with_namespace.

End Script.

(** ** Servers to run the script against *)

(** No variable set, no password file. *)
Definition noEnv : ProcessEnv := mkEnv None None None None None None None.

Definition badGateway : GitLab.Response :=
  GitLab.mkResponse false 502 (Resolved EmptyString) (Rejected GitLab.jsonSyntaxError).

(** A server that answers 502 five times and is ready from then on. *)
Definition readyAtSixth : Fetch :=
  λ n _, if (n <? 5)%nat then Resolved badGateway else Resolved GitLab.okEmptyObject.

(** A server that opens a session with the token [tok]. *)
Definition sessionServer : Fetch :=
  λ _ _, Resolved (GitLab.mkResponse true 201 (Resolved "{...}")
                     (Resolved (JObject [("private_token", JString "tok")]%string))).

(** A server on which the project exists: creating answers 400, and the
    search lists another project and then [root/test-repo]. *)
Definition otherProject : JsValue :=
  JObject [("path", JString "other"); ("path_with_namespace", JString "root/other")]%string.

Definition theProject : JsValue :=
  JObject [("path", JString "test-repo");
           ("path_with_namespace", JString "root/test-repo")]%string.

Definition existingServer : Fetch :=
  λ n _, match n with
         | O => Resolved (GitLab.mkResponse false 400 (Resolved "taken")
                            (Rejected GitLab.jsonSyntaxError))
         | _ => Resolved (GitLab.mkResponse true 200 (Resolved "[...]")
                            (Resolved (JArray [otherProject; theProject])))
         end.

End Setup.

(* ===================================================================== *)
(** * The storage of the test suite: [test/unit/helpers/inmemoryStorage.ts] *)
(* ===================================================================== *)

Module InMemory.
Import Async.

(** The object: the index it holds and its [Map] of blobs. *)
Record InMemoryStorage := mkStorage {
  index : JsValue;
  blobs : gmap string string
}.

(** [new InMemoryStorage(dir)]: the directory is ignored. *)
Definition construct (dir : option string) : InMemoryStorage :=
  mkStorage (JObject [("head", JString EmptyString); ("entries", JObject [])]%string) ∅.

Definition init (self : InMemoryStorage) : Settled unit * InMemoryStorage :=
  (Resolved (), self).

Definition readIndex (self : InMemoryStorage) : Settled JsValue :=
  Resolved (index self).

Definition writeIndex (idx : JsValue) (self : InMemoryStorage)
  : Settled unit * InMemoryStorage :=
  (Resolved (), mkStorage idx (blobs self)).

Definition writeBlob (filepath content : string) (self : InMemoryStorage)
  : Settled unit * InMemoryStorage :=
  (Resolved (), mkStorage (index self) (<[filepath := content]> (blobs self))).

(** [readBlob]: the blob, or [null] ([None]) when the map has none. *)
Definition readBlob (filepath : string) (self : InMemoryStorage)
  : Settled (option string) :=
  Resolved (blobs self !! filepath).

Definition deleteBlob (filepath : string) (self : InMemoryStorage)
  : Settled unit * InMemoryStorage :=
  (Resolved (), mkStorage (index self) (delete filepath (blobs self))).

End InMemory.

(** Sequences of blob operations, on [NodeFsStorage] and on
    [InMemoryStorage]. *)
Module BlobOps.
Import Async.

Inductive BlobOp :=
| WriteBlob (filepath content : string)
| DeleteBlob (filepath : string).

Definition opPath (op : BlobOp) : string :=
  match op with WriteBlob f _ | DeleteBlob f => f end.

(** The storage of the test suite after an operation. *)
Definition runMem (s : InMemory.InMemoryStorage) (op : BlobOp)
  : InMemory.InMemoryStorage :=
  match op with
  | WriteBlob f c => (InMemory.writeBlob f c s).2
  | DeleteBlob f => (InMemory.deleteBlob f s).2
  end.

Section OnNode.
Context {W : Type} (node : NodeFs.Platform W) (self : NodeFs.NodeFsStorage).

(** [content p w]: the text of the regular file at [p], if there is one. *)
Variable content : string → W → option string.

(** The names in use. *)
Variable names : string → Prop.

(** The filesystem after an operation. *)
Definition runNode (w : W) (op : BlobOp) : W :=
  match op with
  | WriteBlob f c => (NodeFs.writeBlob node self f c w).2
  | DeleteBlob f => (NodeFs.deleteBlob node self f w).2
  end.

(** The operation went through: the write resolved; the unlink resolved, or
    there was no file to unlink. *)
Definition wentThrough (w : W) (op : BlobOp) : Prop :=
  match op with
  | WriteBlob f c => (NodeFs.writeBlob node self f c w).1 = Resolved ()
  | DeleteBlob f =>
      let full := NodeFs.path_join node (NodeFs.dir self) f in
      (NodeFs.fs_unlink node full w).1 = Resolved () ∨ content full w = None
  end.

Fixpoint allThrough (w : W) (ops : list BlobOp) : Prop :=
  match ops with
  | [] => True
  | op :: rest => wentThrough w op ∧ allThrough (runNode w op) rest
  end.

(** The two storages answer [readBlob] alike, on the names in use. *)
Definition agree (s : InMemory.InMemoryStorage) (w : W) : Prop :=
  ∀ g, names g → InMemory.readBlob g s = NodeFs.readBlob node self g w.

End OnNode.
End BlobOps.

(* ===================================================================== *)
(** * The browser backend: [BrowserStorage] of [src/virtualfs/persistence.ts] *)
(* ===================================================================== *)

Module Browser.
Import Async JSText.

(** An asynchronous step over the browser's storage [W]: how its promise
    settles, and the storage after. *)
Definition Step (W A : Type) : Type := W → Settled A * W.

Definition ret {W A} (a : A) : Step W A := λ w, (Resolved a, w).

Definition throw {W A} (e : JsError) : Step W A := λ w, (Rejected e, w).

(** [await m], then [k]. *)
Definition andThen {W A B} (m : Step W A) (k : A → Step W B) : Step W B :=
  λ w, match m w with
       | (Resolved a, w') => k a w'
       | (Rejected e, w') => (Rejected e, w')
       end.

(** [try { return m } catch (e) { }], then [h]. *)
Definition orElseDo {W A} (m h : Step W A) : Step W A :=
  λ w, match m w with
       | (Resolved a, w') => (Resolved a, w')
       | (Rejected _, w') => h w'
       end.

Declare Scope step_scope.
Delimit Scope step_scope with step.
Notation "x <- m ;; k" := (andThen m (λ x, k))
  (at level 100, m at next level, right associativity) : step_scope.
Notation "m ;; k" := (andThen m (λ _, k))
  (at level 100, right associativity) : step_scope.

(** [globalThis.originPrivateFileSystem]: whether it has a truthy
    [getFileHandle], and its [getDirectory()]. *)
Record Opfs (W H : Type) := mkOpfs {
  getFileHandle_defined : bool;
  getDirectory : Step W H
}.
Arguments mkOpfs {W H}.
Arguments getFileHandle_defined {W H}.
Arguments getDirectory {W H}.

(** What the class uses of the browser, with databases [Db] and OPFS
    objects [H].  An IndexedDB request is taken with its transaction, as the
    way the two settle: [idb_put db store value key], [idb_get db store key]
    (whose result is [undefined] for a missing key) and
    [idb_delete db store key].  [indexedDB_open name version stores] is
    [open] with an upgrade handler that creates those of [stores] that are
    missing; it is [None] when [globalThis.indexedDB] is. *)
Record Platform (W Db H : Type) := mkPlatform {
  indexedDB_open : option (string → Z → list string → Step W Db);
  idb_put : Db → string → JsValue → string → Step W unit;
  idb_get : Db → string → string → Step W JsValue;
  idb_delete : Db → string → string → Step W unit;
  originPrivateFileSystem : option (Opfs W H);
  dir_getDirectory : H → string → Step W H;
  dir_getFileHandle : H → string → bool → Step W H;
  file_createWritable : H → Step W H;
  writable_write : H → string → Step W unit;
  writable_close : H → Step W unit;
  file_getFile : H → Step W H;
  file_text : H → Step W string
}.
Arguments indexedDB_open {W Db H}.
Arguments idb_put {W Db H}.
Arguments idb_get {W Db H}.
Arguments idb_delete {W Db H}.
Arguments originPrivateFileSystem {W Db H}.
Arguments dir_getDirectory {W Db H}.
Arguments dir_getFileHandle {W Db H}.
Arguments file_createWritable {W Db H}.
Arguments writable_write {W Db H}.
Arguments writable_close {W Db H}.
Arguments file_getFile {W Db H}.
Arguments file_text {W Db H}.

(** [v ?? null]. *)
Definition orNull (v : JsValue) : JsValue :=
  match v with
  | JUndefined => JNull
  | _ => v
  end.

Definition notAvailable : JsError := mkError "Error" "IndexedDB is not available".

Section BrowserStorage.
Context {W Db H : Type} (browser : Platform W Db H).
Local Open Scope step_scope.

(** The object: [dbName] and [dbPromise], as the promise settles. *)
Record BrowserStorage := mkStorage {
  dbName : string;
  dbPromise : Settled Db
}.

(** [openDb]: the upgrade handler creates the stores [blobs] and [index]. *)
Definition openDb (name : string) : Step W Db :=
  match indexedDB_open browser with
  | None => throw notAvailable
  | Some open => open name 1 ["blobs"; "index"]%string
  end.

(** [new BrowserStorage()], which starts [openDb]. *)
Definition construct (w : W) : BrowserStorage * W :=
  let '(db, w') := openDb "apigit_storage" w in
  (mkStorage "apigit_storage" db, w').

(** [await this.dbPromise]. *)
Definition awaitDb (self : BrowserStorage) : Step W Db :=
  λ w, (dbPromise self, w).

Definition init (self : BrowserStorage) : Step W unit :=
  awaitDb self ;; ret ().

(** [tx(storeName, mode, cb)], for the one request that [cb] makes. *)
Definition tx (self : BrowserStorage) (request : Db → Step W unit) : Step W unit :=
  db <- awaitDb self ;; request db.

Definition readIndex (self : BrowserStorage) : Step W JsValue :=
  db <- awaitDb self ;;
  result <- idb_get browser db "index" "index" ;;
  ret (orNull result).

Definition writeIndex (self : BrowserStorage) (index : JsValue) : Step W unit :=
  tx self (λ db, idb_put browser db "index" index "index").

(** [for (i = 0; i < parts.length - 1; i++) dir = await dir.getDirectory(parts[i])]. *)
Fixpoint walk (dir : H) (names : list string) : Step W H :=
  match names with
  | [] => ret dir
  | name :: rest => sub <- dir_getDirectory browser dir name ;; walk sub rest
  end.

(** The body of the [try] of [writeBlob]. *)
Definition opfsWrite (opfs : Opfs W H) (filepath content : string) : Step W unit :=
  root <- getDirectory opfs ;;
  let parts := splitSlash filepath in
  dir <- walk root (removelast parts) ;;
  fh <- dir_getFileHandle browser dir (List.last parts EmptyString) true ;;
  writable <- file_createWritable browser fh ;;
  writable_write browser writable content ;;
  writable_close browser writable.

(** The body of the [try] of [readBlob]. *)
Definition opfsRead (opfs : Opfs W H) (filepath : string) : Step W JsValue :=
  root <- getDirectory opfs ;;
  let parts := splitSlash filepath in
  dir <- walk root (removelast parts) ;;
  fh <- dir_getFileHandle browser dir (List.last parts EmptyString) false ;;
  file <- file_getFile browser fh ;;
  text <- file_text browser file ;;
  ret (JString text).

(** [opfs && opfs.getFileHandle]. *)
Definition usableOpfs : option (Opfs W H) :=
  match originPrivateFileSystem browser with
  | Some opfs => if getFileHandle_defined opfs then Some opfs else None
  | None => None
  end.

(** [writeBlob]: OPFS first; IndexedDB when there is no OPFS or when
    anything in the OPFS attempt throws. *)
Definition writeBlob (self : BrowserStorage) (filepath content : string)
  : Step W unit :=
  let viaIdb := tx self (λ db, idb_put browser db "blobs" (JString content) filepath) in
  match usableOpfs with
  | Some opfs => orElseDo (opfsWrite opfs filepath content) viaIdb
  | None => viaIdb
  end.

(** [readBlob]: OPFS first, then IndexedDB, where a missing key gives
    [null]. *)
Definition readBlob (self : BrowserStorage) (filepath : string) : Step W JsValue :=
  let viaIdb :=
    db <- awaitDb self ;;
    result <- idb_get browser db "blobs" filepath ;;
    ret (orNull result) in
  match usableOpfs with
  | Some opfs => orElseDo (opfsRead opfs filepath) viaIdb
  | None => viaIdb
  end.

(** [deleteBlob]: from IndexedDB. *)
Definition deleteBlob (self : BrowserStorage) (filepath : string) : Step W unit :=
  tx self (λ db, idb_delete browser db "blobs" filepath).

End BrowserStorage.

Arguments BrowserStorage : clear implicits.
Arguments mkStorage {Db}.

End Browser.

(** ** A browser in memory *)

(** A browser to run [BrowserStorage] in: IndexedDB with its databases by
    name, and a small OPFS. *)
Module MemBrowser.
Import Async Browser.

(** An object of the OPFS: a directory, a file handle or a writable stream
    by their path, and the file read by [getFile]. *)
Inductive Handle :=
| DirH (dirPath : list string)
| FileH (filePath : list string)
| WritableH (filePath : list string)
| BlobH (text : string).

(** The databases by name, each the content of its object stores; the
    directories and files of the OPFS; and how many characters a file may
    hold. *)
Record World := mkWorld {
  databases : gmap string (gmap string (gmap string JsValue));
  directories : gset (list string);
  files : gmap (list string) string;
  quota : nat
}.

Definition setDatabases (dbs : gmap string (gmap string (gmap string JsValue)))
    (w : World) : World :=
  mkWorld dbs (directories w) (files w) (quota w).

Definition setFiles (fs : gmap (list string) string) (w : World) : World :=
  mkWorld (databases w) (directories w) fs (quota w).

Definition notFound : JsError :=
  mkError "NotFoundError" "A requested file or directory could not be found".

(** A request on an object store; a transaction on a store that the
    database does not have throws. *)
Definition onStore {A} (db name : string)
    (request : gmap string JsValue → A * gmap string JsValue) : Step World A :=
  λ w, match databases w !! db with
       | Some stores =>
           match stores !! name with
           | Some store =>
               let '(a, store') := request store in
               (Resolved a,
                setDatabases (<[db := <[name := store']> stores]> (databases w)) w)
           | None => (Rejected notFound, w)
           end
       | None => (Rejected notFound, w)
       end.

(** [indexedDB.open(name, version)] with an upgrade handler: a database
    that does not exist yet is created, and the handler creates its stores;
    one that exists is opened as it is.  The connection is known by the
    name of its database. *)
Definition mem_open (name : string) (version : Z) (stores : list string)
  : Step World string :=
  λ w, match databases w !! name with
       | Some _ => (Resolved name, w)
       | None =>
           (Resolved name,
            setDatabases (<[name := foldl (λ m s, <[s := ∅]> m) ∅ stores]> (databases w)) w)
       end.

(** [put], [get] and [delete], each with the transaction it is made in. *)
Definition mem_put (db store : string) (value : JsValue) (key : string)
  : Step World unit :=
  onStore db store (λ m, ((), <[key := value]> m)).

Definition mem_get (db store key : string) : Step World JsValue :=
  onStore db store (λ m, (default JUndefined (m !! key), m)).

Definition mem_delete (db store key : string) : Step World unit :=
  onStore db store (λ m, ((), delete key m)).

Definition quotaExceeded : JsError :=
  mkError "QuotaExceededError" "The quota has been exceeded".

Definition notAFunction : JsError := mkError "TypeError" "not a function".

Definition mem_getDirectory (h : Handle) (name : string) : Step World Handle :=
  λ w, match h with
       | DirH p =>
           if decide ((p ++ [name])%list ∈ directories w)
           then (Resolved (DirH (p ++ [name])), w) else (Rejected notFound, w)
       | _ => (Rejected notAFunction, w)
       end.

Definition mem_getFileHandle (h : Handle) (name : string) (create : bool)
  : Step World Handle :=
  λ w, match h with
       | DirH p =>
           match files w !! (p ++ [name])%list with
           | Some _ => (Resolved (FileH (p ++ [name])), w)
           | None =>
               if create
               then (Resolved (FileH (p ++ [name])),
                     setFiles (<[(p ++ [name])%list := EmptyString]> (files w)) w)
               else (Rejected notFound, w)
           end
       | _ => (Rejected notAFunction, w)
       end.

Definition mem_createWritable (h : Handle) : Step World Handle :=
  λ w, match h with
       | FileH p => (Resolved (WritableH p), w)
       | _ => (Rejected notAFunction, w)
       end.

Definition mem_write (h : Handle) (content : string) : Step World unit :=
  λ w, match h with
       | WritableH p =>
           if decide (String.length content ≤ quota w)%nat
           then (Resolved (), setFiles (<[p := content]> (files w)) w)
           else (Rejected quotaExceeded, w)
       | _ => (Rejected notAFunction, w)
       end.

Definition mem_close (h : Handle) : Step World unit :=
  λ w, match h with
       | WritableH _ => (Resolved (), w)
       | _ => (Rejected notAFunction, w)
       end.

Definition mem_getFile (h : Handle) : Step World Handle :=
  λ w, match h with
       | FileH p =>
           match files w !! p with
           | Some c => (Resolved (BlobH c), w)
           | None => (Rejected notFound, w)
           end
       | _ => (Rejected notAFunction, w)
       end.

Definition mem_text (h : Handle) : Step World string :=
  λ w, match h with
       | BlobH c => (Resolved c, w)
       | _ => (Rejected notAFunction, w)
       end.

Definition memOpfs : Opfs World Handle := mkOpfs true (ret (DirH [])).

(** The browser, with IndexedDB when [withIdb] and with the OPFS when
    [withOpfs]. *)
Definition memBrowser (withIdb withOpfs : bool) : Platform World string Handle :=
  mkPlatform World string Handle
    (if withIdb then Some mem_open else None) mem_put mem_get mem_delete
    (if withOpfs then Some memOpfs else None)
    mem_getDirectory mem_getFileHandle mem_createWritable mem_write mem_close
    mem_getFile mem_text.

(** Nothing stored, room for [quota] characters a file. *)
Definition emptyWorld (quota : nat) : World := mkWorld ∅ ∅ ∅ quota.

(** An OPFS that holds [a.txt] with the content [old] and has room for
    three characters a file. *)
Definition oldWorld : World :=
  mkWorld ∅ ∅ {[ ["a.txt"%string] := "old"%string ]} 3.

End MemBrowser.

(* ===================================================================== *)
(** * Properties of the JavaScript integer operations *)
(* ===================================================================== *)

Module JSFacts.
Import JS.

Lemma toUint32_range x : 0 ≤ toUint32 x < 2 ^ 32.
Proof. unfold toUint32. apply Z.mod_pos_bound. lia. Qed.

Lemma toUint32_small x : 0 ≤ x < 2 ^ 32 → toUint32 x = x.
Proof. intros. unfold toUint32. by apply Z.mod_small. Qed.

Lemma toUint32_idemp x : toUint32 (toUint32 x) = toUint32 x.
Proof. apply toUint32_small, toUint32_range. Qed.

Lemma toUint32_toInt32 x : toUint32 (toInt32 x) = toUint32 x.
Proof.
  unfold toUint32, toInt32. destruct (_ <? _).
  - apply Z.mod_mod. lia.
  - rewrite <- (Z.mod_add _ 1) by lia.
    replace (x mod 2 ^ 32 - 2 ^ 32 + 1 * 2 ^ 32) with (x mod 2 ^ 32) by lia.
    apply Z.mod_mod. lia.
Qed.

Lemma toInt32_range x : - 2 ^ 31 ≤ toInt32 x < 2 ^ 31.
Proof.
  unfold toInt32. pose proof (Z.mod_pos_bound x (2 ^ 32)).
  destruct (Z.ltb_spec (x mod 2 ^ 32) (2 ^ 31)); lia.
Qed.

Lemma toInt32_small x : - 2 ^ 31 ≤ x < 2 ^ 31 → toInt32 x = x.
Proof.
  intros Hx. unfold toInt32.
  destruct (Z.ltb_spec (x mod 2 ^ 32) (2 ^ 31)) as [Hlt|Hge].
  - destruct (Z.neg_nonneg_cases x) as [Hneg|Hpos].
    + rewrite <- (Z.mod_add x 1) in Hlt by lia.
      rewrite Z.mod_small in Hlt by lia. lia.
    + apply Z.mod_small. lia.
  - destruct (Z.neg_nonneg_cases x) as [Hneg|Hpos].
    + rewrite <- (Z.mod_add x 1) by lia. rewrite Z.mod_small by lia. lia.
    + rewrite Z.mod_small in Hge by lia. lia.
Qed.

(** The low 32 bits, bit by bit. *)
Lemma toUint32_testbit x i :
  Z.testbit (toUint32 x) i = (i <? 32) && Z.testbit x i.
Proof. unfold toUint32. apply Z.testbit_mod_pow2. lia. Qed.

Ltac low_bits :=
  apply Z.bits_inj'; intros i Hi;
  rewrite ?toUint32_testbit, ?Z.land_spec, ?Z.lor_spec, ?Z.lxor_spec,
    ?toUint32_testbit;
  destruct (i <? 32); simpl; try reflexivity.

Lemma toUint32_land x y :
  toUint32 (Z.land x y) = Z.land (toUint32 x) (toUint32 y).
Proof. low_bits. Qed.

Lemma toUint32_lor x y :
  toUint32 (Z.lor x y) = Z.lor (toUint32 x) (toUint32 y).
Proof. low_bits. Qed.

Lemma toUint32_lxor x y :
  toUint32 (Z.lxor x y) = Z.lxor (toUint32 x) (toUint32 y).
Proof. low_bits. Qed.

Lemma toUint32_and a b : toUint32 (and a b) = Z.land (toUint32 a) (toUint32 b).
Proof. unfold and. by rewrite toUint32_toInt32, toUint32_land, !toUint32_toInt32. Qed.

Lemma toUint32_or a b : toUint32 (or a b) = Z.lor (toUint32 a) (toUint32 b).
Proof. unfold or. by rewrite toUint32_toInt32, toUint32_lor, !toUint32_toInt32. Qed.

Lemma toUint32_xor a b : toUint32 (xor a b) = Z.lxor (toUint32 a) (toUint32 b).
Proof. unfold xor. by rewrite toUint32_toInt32, toUint32_lxor, !toUint32_toInt32. Qed.

Lemma toInt32_testbit_low a i :
  i < 32 → Z.testbit (toInt32 a) i = Z.testbit a i.
Proof.
  intros Hi.
  pose proof (toUint32_testbit (toInt32 a) i) as H1.
  rewrite toUint32_toInt32, toUint32_testbit in H1.
  destruct (Z.ltb_spec i 32); [|lia]. simpl in H1. done.
Qed.

(** [~a] flips the low 32 bits. *)
Lemma toUint32_not a : toUint32 (not a) = toUint32 (Z.lnot (toUint32 a)).
Proof.
  unfold not. rewrite toUint32_toInt32.
  apply Z.bits_inj'; intros i Hi. rewrite !toUint32_testbit.
  destruct (Z.ltb_spec i 32); simpl; [|done].
  rewrite !Z.lnot_spec by done. rewrite toUint32_testbit.
  rewrite toInt32_testbit_low by done.
  destruct (Z.ltb_spec i 32); [done|lia].
Qed.

Lemma toUint32_add_l x y : toUint32 (toUint32 x + y) = toUint32 (x + y).
Proof. unfold toUint32. apply Z.add_mod_idemp_l. lia. Qed.

Lemma toUint32_add_r x y : toUint32 (x + toUint32 y) = toUint32 (x + y).
Proof. unfold toUint32. apply Z.add_mod_idemp_r. lia. Qed.

Lemma toUint32_mul_l x y : toUint32 (toUint32 x * y) = toUint32 (x * y).
Proof. unfold toUint32. apply Z.mul_mod_idemp_l. lia. Qed.

Lemma shift_count n : 0 ≤ n < 32 → toUint32 n mod 32 = n.
Proof. intros. rewrite toUint32_small by lia. apply Z.mod_small. lia. Qed.

Lemma toUint32_shl a n :
  0 ≤ n < 32 → toUint32 (shl a n) = toUint32 (toUint32 a * 2 ^ n).
Proof.
  intros Hn. unfold shl. rewrite toUint32_toInt32, shift_count by done.
  rewrite Z.shiftl_mul_pow2 by lia.
  by rewrite <- (toUint32_mul_l (toInt32 a)), toUint32_toInt32.
Qed.

Lemma ushr_div a n : 0 ≤ n < 32 → ushr a n = toUint32 a / 2 ^ n.
Proof.
  intros Hn. unfold ushr. rewrite shift_count by done.
  apply Z.shiftr_div_pow2. lia.
Qed.

Lemma ushr_0 a : ushr a 0 = toUint32 a.
Proof. rewrite ushr_div by lia. apply Z.div_1_r. Qed.

Lemma ushr_range a n : 0 ≤ n < 32 → 0 ≤ ushr a n < 2 ^ 32.
Proof.
  intros Hn. rewrite ushr_div by done. pose proof (toUint32_range a).
  split; [apply Z.div_pos; lia|].
  apply Z.div_lt_upper_bound; [lia|].
  assert (1 ≤ 2 ^ n) by (apply (Z.pow_le_mono_r 2 0 n); lia). nia.
Qed.

Lemma shr_div a n : 0 ≤ a < 2 ^ 31 → 0 ≤ n < 32 → shr a n = a / 2 ^ n.
Proof.
  intros Ha Hn. unfold shr. rewrite shift_count, toInt32_small by lia.
  apply Z.shiftr_div_pow2. lia.
Qed.

(** A rotation written with [<<], [>>>] and [|] is [ROTL] on the low 32
    bits. *)
Lemma toUint32_rotl a n :
  0 < n < 32 →
  toUint32 (or (shl a n) (ushr a (32 - n))) = Fips180.ROTL n (toUint32 a).
Proof.
  intros Hn. rewrite toUint32_or, toUint32_shl by lia.
  rewrite (toUint32_small (ushr _ _)) by (apply ushr_range; lia).
  rewrite ushr_div by lia. done.
Qed.

Lemma optInt32_fmap (o : option Z) :
  toUint32 (optInt32 o) = default 0 (toUint32 <$> o).
Proof. destruct o; simpl; [apply toUint32_toInt32|done]. Qed.

End JSFacts.

(* ===================================================================== *)
(** * Properties of [sha1] *)
(* ===================================================================== *)

Module Sha1Facts.
Import Utf8 JS Sha1 Fips180 Sha1View JSFacts.

(** ** The rounds and the message schedule *)

Lemma toUint32_add x x' y y' :
  toUint32 x = toUint32 x' → toUint32 y = toUint32 y' →
  toUint32 (x + y) = toUint32 (x' + y').
Proof.
  intros Hx Hy.
  rewrite <- (toUint32_add_l x), <- (toUint32_add_r _ y), Hx, Hy.
  by rewrite toUint32_add_l, toUint32_add_r.
Qed.

Ltac bits32 :=
  apply Z.bits_inj'; intros i Hi;
  rewrite ?Z.lor_spec, ?Z.lxor_spec, ?Z.land_spec, ?toUint32_testbit,
    ?Z.lnot_spec, ?toUint32_testbit by done;
  destruct (i <? 32); simpl; try reflexivity;
  repeat match goal with |- context [Z.testbit ?x i] =>
    destruct (Z.testbit x i) end; reflexivity.

Lemma Ch_or b c d :
  toUint32 (or (and b c) (and (not b) d))
  = Ch (toUint32 b) (toUint32 c) (toUint32 d).
Proof.
  rewrite toUint32_or, !toUint32_and, toUint32_not. unfold Ch. bits32.
Qed.

Lemma Maj_or b c d :
  toUint32 (or (or (and b c) (and b d)) (and c d))
  = Maj (toUint32 b) (toUint32 c) (toUint32 d).
Proof.
  rewrite !toUint32_or, !toUint32_and. unfold Maj. bits32.
Qed.

Lemma Parity_xor b c d :
  toUint32 (xor (xor b c) d) = Parity (toUint32 b) (toUint32 c) (toUint32 d).
Proof. by rewrite !toUint32_xor. Qed.

Lemma Wat_fmap (w : list Z) (t : nat) :
  toUint32 (optInt32 (w !! t)) = Wat (toUint32 <$> w) t.
Proof. unfold Wat. by rewrite optInt32_fmap, list_lookup_fmap. Qed.

Lemma round_sim w v t : u5 (round w v t) = step (toUint32 <$> w) (u5 v) t.
Proof.
  destruct v as [[[[a b] c] d] e]. unfold round, step, f, K, u5.
  assert (Hsum : ∀ x fv k,
    toUint32 (ushr (x + fv + e + k + ushr (optInt32 (w !! t)) 0) 0)
    = (toUint32 x + toUint32 fv + toUint32 e + k + Wat (toUint32 <$> w) t)
        mod 2 ^ 32).
  { intros x fv k. rewrite !ushr_0, toUint32_idemp, <- Wat_fmap.
    change ((?z) mod 2 ^ 32) with (toUint32 z).
    repeat apply toUint32_add; by rewrite ?toUint32_idemp. }
  destruct (t <? 20)%nat; [|destruct (t <? 40)%nat; [|destruct (t <? 60)%nat]];
    rewrite Hsum, !toUint32_rotl by lia;
    rewrite ?Ch_or, ?Maj_or, ?Parity_xor; reflexivity.
Qed.

Lemma rounds_sim w l v :
  u5 (foldl (round w) v l) = foldl (step (toUint32 <$> w)) (u5 v) l.
Proof.
  revert v. induction l as [|t l IH]; intros v; [done|].
  simpl. by rewrite IH, round_sim.
Qed.

Lemma scheduleStep_sim w t :
  toUint32 <$> scheduleStep w t = nextW (toUint32 <$> w) t.
Proof.
  unfold scheduleStep, nextW. rewrite fmap_app. f_equal. simpl. f_equal.
  rewrite ushr_0, toUint32_idemp, toUint32_rotl by lia.
  by rewrite !toUint32_xor, !Wat_fmap.
Qed.

Lemma schedule_fold_sim l w :
  toUint32 <$> foldl scheduleStep w l = foldl nextW (toUint32 <$> w) l.
Proof.
  revert w. induction l as [|t l IH]; intros w; [done|].
  simpl. by rewrite IH, scheduleStep_sim.
Qed.

Lemma schedule_sim words i :
  toUint32 <$> schedule words i = messageSchedule (blockAt words i).
Proof.
  unfold schedule, messageSchedule. rewrite schedule_fold_sim. f_equal.
  unfold blockAt. rewrite <- list_fmap_compose. apply list_fmap_ext.
  intros _ t _. simpl. rewrite toUint32_or. change (toUint32 0) with 0.
  apply Z.lor_0_r.
Qed.

Lemma processBlock_sim words h i :
  u5 (processBlock words h i) = compress (u5 h) (blockAt words i).
Proof.
  unfold processBlock, compress.
  destruct h as [[[[h0 h1] h2] h3] h4].
  rewrite <- schedule_sim.
  pose proof (rounds_sim (schedule words i) (seq 0 80) (h0, h1, h2, h3, h4)) as Hr.
  destruct (foldl (round _) _ _) as [[[[a b] c] d] e].
  cbn [u5] in *. rewrite <- Hr. cbn [u5].
  rewrite !ushr_0, !toUint32_idemp.
  change ((?z) mod 2 ^ 32) with (toUint32 z).
  assert (Hadd : ∀ x y, toUint32 (x + y) = toUint32 (toUint32 y + toUint32 x)).
  { intros x y. rewrite Z.add_comm. apply toUint32_add; by rewrite toUint32_idemp. }
  by rewrite (Hadd h0), (Hadd h1), (Hadd h2), (Hadd h3), (Hadd h4).
Qed.

Lemma blocks_sim words l h :
  u5 (foldl (processBlock words) h l)
  = foldl (λ v i, compress v (blockAt words i)) (u5 h) l.
Proof.
  revert h. induction l as [|i l IH]; intros h; [done|].
  simpl. by rewrite IH, processBlock_sim.
Qed.

(** ** The padded message *)

Lemma byteAt_take_lt bs (n : nat) i :
  0 ≤ i < Z.of_nat n → byteAt (take n bs) i = byteAt bs i.
Proof. intros Hi. unfold byteAt. rewrite lookup_take_lt by lia. done. Qed.

Lemma byteAt_take_ge bs (n : nat) i : Z.of_nat n ≤ i → byteAt (take n bs) i = 0.
Proof. intros Hi. unfold byteAt. rewrite lookup_take_ge by lia. done. Qed.

Lemma byteAt_ge bs i : Z.of_nat (length bs) ≤ i → byteAt bs i = 0.
Proof. intros Hi. unfold byteAt. rewrite lookup_ge_None_2 by lia. done. Qed.

Lemma byteAt_lookup bs (n : nat) b : bs !! n = Some b → byteAt bs (Z.of_nat n) = b.
Proof. intros Hb. unfold byteAt. by rewrite Nat2Z.id, Hb. Qed.

(** Bits that do not overlap add up. *)
Lemma lor_disjoint hi lo m :
  0 ≤ m → 0 ≤ lo < 2 ^ m → Z.lor (hi * 2 ^ m) lo = hi * 2 ^ m + lo.
Proof.
  intros Hm Hlo. rewrite <- Z.add_lor_land.
  assert (Z.land (hi * 2 ^ m) lo = 0) as ->; [|lia].
  apply Z.bits_inj'; intros i Hi. rewrite Z.land_spec, Z.bits_0.
  destruct (Z.lt_ge_cases i m).
  - rewrite Z.mul_pow2_bits_low by lia. done.
  - rewrite andb_comm.
    destruct (Z.eq_dec lo 0) as [->|]; [by rewrite Z.bits_0|].
    assert (Z.log2 lo < m) by (apply Z.log2_lt_pow2; lia).
    rewrite (Z.bits_above_log2 lo i) by lia. done.
Qed.

Lemma and_255 b : isByte b → and (optInt32 (Some b)) 255 = b.
Proof.
  intros Hb. unfold and, optInt32, isByte in *.
  rewrite !(toInt32_small b), (toInt32_small 255) by lia.
  change 255 with (Z.ones 8). rewrite Z.land_ones by lia.
  change (2 ^ 8) with 256. rewrite Z.mod_small by lia.
  apply toInt32_small. lia.
Qed.

(** One step of the packing loop keeps the array an image of the bytes
    packed so far. *)
Lemma packByte_step msg a (n : nat) b :
  msg !! n = Some b → isByte b → Z.of_nat n < 2 ^ 31 →
  alength a = (Z.of_nat n + 3) / 4 →
  (∀ k, 0 ≤ k → uword a k = wordAt (take n msg) k) →
  alength (packByte msg a (Z.of_nat n)) = (Z.of_nat (S n) + 3) / 4 ∧
  ∀ k, 0 ≤ k →
    uword (packByte msg a (Z.of_nat n)) k = wordAt (take (S n) msg) k.
Proof.
  intros Hb Hbyte Hn Hlen Hw. unfold packByte.
  assert (Hk0 : shr (Z.of_nat n) 2 = Z.of_nat n / 4) by (rewrite shr_div; [done|lia..]).
  rewrite Hk0. unfold charCodeAt.
  destruct (Z.ltb_spec (Z.of_nat n) 0); [lia|]. rewrite Nat2Z.id, Hb, and_255 by done.
  split.
  - unfold aset. simpl. rewrite Hlen, Nat2Z.inj_succ.
    Z.div_mod_to_equations. lia.
  - intros k Hk. unfold uword at 1, aget, aset. simpl.
    pose proof (Z.mod_pos_bound (Z.of_nat n) 4 ltac:(lia)) as Hj.
    pose proof (Z.div_mod (Z.of_nat n) 4 ltac:(lia)) as Hdm.
    destruct (decide (k = Z.of_nat n / 4)) as [->|Hne].
    + rewrite lookup_insert_eq. simpl.
      rewrite toUint32_toInt32, toUint32_or.
      fold (aget a (Z.of_nat n / 4)). fold (uword a (Z.of_nat n / 4)). rewrite Hw by lia.
      rewrite toUint32_shl by lia.
      assert (Hb' : toUint32 b = b) by (apply toUint32_small; unfold isByte in *; lia).
      rewrite Hb'. unfold wordAt.
      assert (Hcases : Z.of_nat n mod 4 = 0 ∨ Z.of_nat n mod 4 = 1 ∨ Z.of_nat n mod 4 = 2 ∨ Z.of_nat n mod 4 = 3) by lia.
      unfold isByte in Hbyte.
      destruct Hcases as [Hj0|[Hj0|[Hj0|Hj0]]]; rewrite Hj0 in *;
        repeat match goal with
        | |- context [byteAt (take ?m msg) ?i] =>
            first [ rewrite (byteAt_take_ge msg m i) by lia
                  | rewrite (byteAt_take_lt msg m i) by lia ]
        end;
        repeat match goal with
        | |- context [byteAt msg ?i] =>
            replace i with (Z.of_nat n) by lia; rewrite (byteAt_lookup msg n b Hb)
        end.
      * unfold beWord. simpl (24 - 0 * 8).
        rewrite toUint32_small by lia. rewrite Z.lor_0_l. lia.
      * unfold beWord. simpl (24 - 1 * 8).
        rewrite toUint32_small by lia.
        replace (byteAt msg (4 * (Z.of_nat n / 4)) * 2 ^ 24 + 0 * 2 ^ 16 + 0 * 2 ^ 8 + 0)
          with (byteAt msg (4 * (Z.of_nat n / 4)) * 2 ^ 24) by lia.
        rewrite lor_disjoint by lia. lia.
      * unfold beWord. simpl (24 - 2 * 8).
        rewrite toUint32_small by lia.
        replace (byteAt msg (4 * (Z.of_nat n / 4)) * 2 ^ 24
                 + byteAt msg (4 * (Z.of_nat n / 4) + 1) * 2 ^ 16 + 0 * 2 ^ 8 + 0)
          with ((byteAt msg (4 * (Z.of_nat n / 4)) * 2 ^ 8
                 + byteAt msg (4 * (Z.of_nat n / 4) + 1)) * 2 ^ 16) by lia.
        rewrite lor_disjoint by lia. lia.
      * unfold beWord. simpl (24 - 3 * 8).
        rewrite toUint32_small by lia.
        replace (byteAt msg (4 * (Z.of_nat n / 4)) * 2 ^ 24
                 + byteAt msg (4 * (Z.of_nat n / 4) + 1) * 2 ^ 16
                 + byteAt msg (4 * (Z.of_nat n / 4) + 2) * 2 ^ 8 + 0)
          with ((byteAt msg (4 * (Z.of_nat n / 4)) * 2 ^ 16
                 + byteAt msg (4 * (Z.of_nat n / 4) + 1) * 2 ^ 8
                 + byteAt msg (4 * (Z.of_nat n / 4) + 2)) * 2 ^ 8) by lia.
        rewrite lor_disjoint by lia. lia.
    + rewrite lookup_insert_ne by done.
      fold (aget a k). fold (uword a k). rewrite Hw by done.
      unfold wordAt.
      assert (Hsame : ∀ i, 0 ≤ i → i ≠ Z.of_nat n →
                byteAt (take (S n) msg) i = byteAt (take n msg) i).
      { intros i Hi Hin. destruct (Z.lt_ge_cases i (Z.of_nat n)).
        - by rewrite !byteAt_take_lt by lia.
        - by rewrite !byteAt_take_ge by lia. }
      rewrite !Hsame by lia. done.
Qed.

Lemma pack_fold msg (n : nat) :
  Forall isByte msg → (n ≤ length msg)%nat → Z.of_nat (length msg) < 2 ^ 31 →
  alength (foldl (packByte msg) emptyArray (seqZ 0 (Z.of_nat n)))
    = (Z.of_nat n + 3) / 4 ∧
  ∀ k, 0 ≤ k →
    uword (foldl (packByte msg) emptyArray (seqZ 0 (Z.of_nat n))) k
    = wordAt (take n msg) k.
Proof.
  intros Hbytes Hn Hlen. induction n as [|n IH].
  - split; [done|]. intros k Hk. unfold uword, wordAt, beWord, byteAt.
    rewrite take_0, !lookup_nil. done.
  - destruct IH as [IHl IHw]; [lia|].
    rewrite seqZ_S, foldl_app. simpl. rewrite Z.add_0_l.
    destruct (lookup_lt_is_Some_2 msg n ltac:(lia)) as [b Hb].
    apply packByte_step with b; try done; [|lia].
    rewrite Forall_forall in Hbytes. apply Hbytes.
    by eapply list_elem_of_lookup_2.
Qed.

Lemma foldl_ext_in {A B} (f g : A → B → A) (l : list B) (a : A) :
  (∀ a x, x ∈ l → f a x = g a x) → foldl f a l = foldl g a l.
Proof.
  revert a. induction l as [|x l IH]; intros a Hfg; [done|].
  simpl. rewrite Hfg by apply list_elem_of_here.
  apply IH. intros a' y Hy. apply Hfg. by apply list_elem_of_further.
Qed.

(** The first loop and the [0x80] mark together are the packing loop on
    the message extended by the byte [0x80]. *)
Lemma packByte_mark msg a :
  let L := Z.of_nat (length msg) in
  packByte (msg ++ [128]) a L
  = aset a (shr L 2)
      (or (optInt32 (aget a (shr L 2))) (shl 128 (24 - (L mod 4) * 8))).
Proof.
  intros L. subst L. unfold packByte, charCodeAt.
  destruct (Z.ltb_spec (Z.of_nat (length msg)) 0); [lia|].
  rewrite Nat2Z.id, lookup_app_r, Nat.sub_diag by done.
  change ([128] !! 0%nat) with (Some 128).
  change (and (optInt32 (Some 128)) 255) with 128. reflexivity.
Qed.

Lemma pack_mark msg :
  let L := Z.of_nat (length msg) in
  let words := foldl (packByte msg) emptyArray (seqZ 0 L) in
  aset words (shr L 2)
    (or (optInt32 (aget words (shr L 2))) (shl 128 (24 - (L mod 4) * 8)))
  = foldl (packByte (msg ++ [128])) emptyArray
      (seqZ 0 (Z.of_nat (S (length msg)))).
Proof.
  intros L words. subst L words.
  rewrite seqZ_S, foldl_app, Z.add_0_l.
  change (foldl ?f ?a [?x]) with (f a x).
  rewrite packByte_mark.
  rewrite (foldl_ext_in (packByte msg) (packByte (msg ++ [128]))); [reflexivity|].
  intros a i Hi. apply elem_of_seqZ in Hi. unfold packByte, charCodeAt.
  destruct (Z.ltb_spec i 0); [reflexivity|].
  rewrite lookup_app_l by lia. reflexivity.
Qed.

Lemma messageWords_unfold msg :
  Z.of_nat (length msg) + 8 < 2 ^ 31 →
  messageWords msg
  = aset (foldl (packByte (msg ++ [128])) emptyArray
            (seqZ 0 (Z.of_nat (S (length msg)))))
         (paddedLength msg - 1) (Z.of_nat (length msg) * 8).
Proof.
  intros Hlen. rewrite <- pack_mark. unfold messageWords, paddedLength.
  rewrite (shr_div (_ + 8)) by lia. reflexivity.
Qed.

Lemma byteAt_cons4 b0 b1 b2 b3 rest i :
  0 ≤ i → byteAt (b0 :: b1 :: b2 :: b3 :: rest) (i + 4) = byteAt rest i.
Proof.
  intros Hi. unfold byteAt.
  replace (Z.to_nat (i + 4)) with (S (S (S (S (Z.to_nat i))))) by lia.
  reflexivity.
Qed.

Lemma wordAt_cons4 b0 b1 b2 b3 rest k :
  0 ≤ k → wordAt (b0 :: b1 :: b2 :: b3 :: rest) (1 + k) = wordAt rest k.
Proof.
  intros Hk. unfold wordAt.
  replace (4 * (1 + k)) with (4 * k + 4) by lia.
  replace (4 * k + 4 + 1) with (4 * k + 1 + 4) by lia.
  replace (4 * k + 4 + 2) with (4 * k + 2 + 4) by lia.
  replace (4 * k + 4 + 3) with (4 * k + 3 + 4) by lia.
  by rewrite !byteAt_cons4 by lia.
Qed.

Lemma beWords_wordAt (m : nat) bs :
  length bs = (4 * m)%nat → beWords bs = wordAt bs <$> seqZ 0 (Z.of_nat m).
Proof.
  revert bs. induction m as [|m IH]; intros bs Hlen.
  - destruct bs; [done|discriminate].
  - destruct bs as [|b0 [|b1 [|b2 [|b3 rest]]]]; simpl in Hlen; try lia.
    rewrite seqZ_cons by lia.
    replace (Z.pred (Z.of_nat (S m))) with (Z.of_nat m) by lia.
    change (Z.succ 0) with (1 + 0). rewrite <- fmap_add_seqZ.
    rewrite fmap_cons, <- list_fmap_compose. cbn [beWords]. f_equal.
    rewrite IH by lia. apply list_fmap_ext. intros j k Hk.
    apply list_elem_of_lookup_2, elem_of_seqZ in Hk.
    simpl. by rewrite wordAt_cons4 by lia.
Qed.

Lemma byteAt_app_zeros bs (z : nat) i :
  0 ≤ i → byteAt (bs ++ replicate z 0) i = byteAt bs i.
Proof.
  intros Hi. unfold byteAt.
  destruct (decide (Z.to_nat i < length bs)%nat).
  - by rewrite lookup_app_l.
  - rewrite lookup_app_r, (lookup_ge_None_2 bs) by lia.
    destruct (replicate z 0 !! _) as [x|] eqn:Hx; [|done].
    apply lookup_replicate in Hx as [-> _]. done.
Qed.

Lemma wordAt_app_zeros bs (z : nat) k :
  0 ≤ k → wordAt (bs ++ replicate z 0) k = wordAt bs k.
Proof. intros Hk. unfold wordAt. by rewrite !byteAt_app_zeros by lia. Qed.

Lemma wordAt_ge bs k : Z.of_nat (length bs) ≤ 4 * k → wordAt bs k = 0.
Proof. intros Hk. unfold wordAt. by rewrite !byteAt_ge by lia. Qed.

(** The words the implementation hashes are the padded message of the
    standard. *)
Lemma messageWords_pad msg :
  Forall isByte msg → Z.of_nat (length msg) < 2 ^ 29 →
  alength (messageWords msg) = paddedLength msg ∧
  arrayWords (messageWords msg) = pad msg.
Proof.
  intros Hbytes Hlen.
  rewrite messageWords_unfold by lia.
  destruct (pack_fold (msg ++ [128]) (S (length msg))) as [Hal Hw].
  { apply Forall_app. split; [done|]. repeat constructor; unfold isByte; lia. }
  { rewrite length_app. simpl. lia. }
  { rewrite length_app. simpl. lia. }
  rewrite (take_ge (msg ++ [128])) in Hw by (rewrite length_app; simpl; lia).
  set (a := foldl _ _ _) in *.
  unfold pad, arrayWords, paddedLength in *.
  set (L := Z.of_nat (length msg)) in *.
  set (z := Z.to_nat ((55 - L) mod 64)).
  set (q := (L + 8) / 64).
  assert (HL : 0 ≤ L) by (subst L; lia).
  assert (Hq : 64 * q ≤ L + 8 < 64 * q + 64).
  { subst q. Z.div_mod_to_equations. lia. }
  assert (Hz : Z.of_nat z = 64 * q + 55 - L).
  { subst z q. rewrite Z2Nat.id by (apply Z.mod_pos_bound; lia).
    Z.div_mod_to_equations. lia. }
  assert (Hal' : alength a ≤ (q + 1) * 16 - 2).
  { rewrite Hal, Nat2Z.inj_succ. fold L. Z.div_mod_to_equations. lia. }
  clearbody q z. clear Hal.
  assert (Hlast : alength (aset a ((q + 1) * 16 - 1) (L * 8)) = (q + 1) * 16).
  { unfold aset. simpl. lia. }
  rewrite Hlast. split; [done|].
  replace (seqZ 0 ((q + 1) * 16)) with (seqZ 0 (((q + 1) * 16 - 2) + 2))
    by (f_equal; lia).
  rewrite seqZ_app, fmap_app by lia.
  f_equal.
  - rewrite (beWords_wordAt (Z.to_nat ((q + 1) * 16 - 2))).
    + rewrite Z2Nat.id by lia.
      apply list_fmap_ext. intros j k Hk.
      apply list_elem_of_lookup_2, elem_of_seqZ in Hk.
      unfold uword, aget, aset. simpl. rewrite lookup_insert_ne by lia.
      fold (aget a k). fold (uword a k). rewrite Hw by lia.
      replace (msg ++ 128 :: replicate z 0)
        with ((msg ++ [128]) ++ replicate z 0) by (by rewrite <- app_assoc).
      by rewrite wordAt_app_zeros by lia.
    + rewrite length_app, length_cons, length_replicate. lia.
  - rewrite Z.add_0_l, seqZ_cons, seqZ_cons, seqZ_nil by lia.
    simpl fmap. f_equal; [|f_equal].
    + unfold uword at 1, aget, aset. simpl. rewrite lookup_insert_ne by lia.
      fold (aget a ((q + 1) * 16 - 2)). fold (uword a ((q + 1) * 16 - 2)).
      rewrite Hw by lia.
      rewrite wordAt_ge.
      * symmetry. apply Z.div_small. lia.
      * rewrite length_app, length_cons, length_nil. lia.
    + unfold uword, aget, aset. simpl.
      replace (Z.succ ((q + 1) * 16 - 2)) with ((q + 1) * 16 - 1) by lia.
      rewrite lookup_insert_eq. simpl. rewrite toUint32_toInt32.
      unfold toUint32. f_equal. lia.
Qed.

(** ** The UTF-8 encoding *)

Lemma unreserved_range u :
  uriUnreserved u = true → 33 ≤ u ≤ 126 ∧ u ≠ 37.
Proof.
  unfold uriUnreserved. rewrite !orb_true_iff, !andb_true_iff, !Z.leb_le.
  rewrite bool_decide_eq_true. intros [[[?|?]|?]|Hin]; [lia..|].
  repeat (apply elem_of_cons in Hin as [->|Hin]; [lia|]).
  by apply not_elem_of_nil in Hin.
Qed.

Lemma hexValue_hexUpper v : 0 ≤ v < 16 → hexValue (hexUpper v) = Some v.
Proof.
  intros Hv. unfold hexUpper, hexValue.
  destruct (Z.ltb_spec v 10).
  - destruct (Z.leb_spec 48 (48 + v)), (Z.leb_spec (48 + v) 57); simpl;
      try lia. f_equal. lia.
  - destruct (Z.leb_spec 48 (55 + v)), (Z.leb_spec (55 + v) 57),
      (Z.leb_spec 65 (55 + v)), (Z.leb_spec (55 + v) 70); simpl; try lia;
      f_equal; lia.
Qed.

Lemma hexUpper_not_u v : 0 ≤ v < 16 → (hexUpper v =? 117) = false.
Proof.
  intros Hv. unfold hexUpper. apply Z.eqb_neq.
  destruct (Z.ltb_spec v 10); lia.
Qed.

(** [unescape] reads back an octet written as [%XX]. *)
Lemma unescape_percent o r :
  isByte o → unescape (percentEncode o ++ r) = o :: unescape r.
Proof.
  intros Ho. unfold isByte in Ho. unfold percentEncode.
  assert (Hh : 0 ≤ o / 16 < 16) by (Z.div_mod_to_equations; lia).
  assert (Hl : 0 ≤ o mod 16 < 16) by (Z.div_mod_to_equations; lia).
  cbn [app unescape]. change (37 =? 37) with true. cbv iota.
  rewrite hexUpper_not_u, !hexValue_hexUpper by done.
  f_equal. Z.div_mod_to_equations. lia.
Qed.

Lemma unescape_octets os r :
  Forall isByte os → unescape ((os ≫= percentEncode) ++ r) = (os ++ unescape r)%list.
Proof.
  induction 1 as [|o os Ho _ IH]; [done|].
  rewrite bind_cons, <- app_assoc.
  rewrite (unescape_percent o) by done. by rewrite IH.
Qed.

Lemma unescape_plain u r : u ≠ 37 → unescape (u :: r) = u :: unescape r.
Proof.
  intros Hu. cbn [unescape]. by rewrite (proj2 (Z.eqb_neq u 37) Hu).
Qed.

Lemma utf8Octets_bytes cp : 0 ≤ cp < 1114112 → Forall isByte (utf8Octets cp).
Proof.
  intros Hcp. unfold utf8Octets, isByte.
  destruct (Z.ltb_spec cp 128); [|destruct (Z.ltb_spec cp 2048);
    [|destruct (Z.ltb_spec cp 65536)]];
    repeat constructor; Z.div_mod_to_equations; lia.
Qed.

Lemma surrogate_pair_range u t :
  isLeadSurrogate u = true → isTrailSurrogate t = true →
  0 ≤ 65536 + (u - 55296) * 1024 + (t - 56320) < 1114112.
Proof.
  unfold isLeadSurrogate, isTrailSurrogate.
  rewrite !andb_true_iff, !Z.leb_le. lia.
Qed.

(** [unescape(encodeURIComponent(s))] is the UTF-8 encoding of [s], and
    throws exactly when [s] has none. *)
Lemma unescape_encode_length (n : nat) s :
  (length s ≤ n)%nat → Forall isCodeUnit s →
  unescape <$> encodeURIComponent s = Utf8.encode s.
Proof.
  revert s. induction n as [|n IH]; intros s Hn Hs.
  { destruct s; [done|simpl in Hn; lia]. }
  destruct s as [|u rest]; [done|].
  apply Forall_cons in Hs as [Hu Hrest]. simpl in Hn.
  cbn [encodeURIComponent Utf8.encode].
  destruct (uriUnreserved u) eqn:Hunres.
  - apply unreserved_range in Hunres as [Hr H37].
    assert (isTrailSurrogate u = false) as ->.
    { unfold isTrailSurrogate. apply andb_false_iff. left. apply Z.leb_gt. lia. }
    assert (isLeadSurrogate u = false) as ->.
    { unfold isLeadSurrogate. apply andb_false_iff. left. apply Z.leb_gt. lia. }
    rewrite <- (IH rest) by (done || lia).
    destruct (encodeURIComponent rest) as [e|]; [|done].
      cbn [fmap option_fmap option_map].
    rewrite unescape_plain by done. f_equal. unfold utf8Octets.
    destruct (Z.ltb_spec u 128); [done|lia].
  - destruct (isTrailSurrogate u) eqn:Htrail; [done|].
    destruct (isLeadSurrogate u) eqn:Hlead.
    + destruct rest as [|t rest']; [done|].
      apply Forall_cons in Hrest as [Ht Hrest']. simpl in Hn.
      destruct (isTrailSurrogate t) eqn:Htt; [|done].
      rewrite <- (IH rest') by (done || lia).
      destruct (encodeURIComponent rest') as [e|]; [|done].
      cbn [fmap option_fmap option_map].
      rewrite unescape_octets; [done|].
      by apply utf8Octets_bytes, surrogate_pair_range.
    + rewrite <- (IH rest) by (done || lia).
      destruct (encodeURIComponent rest) as [e|]; [|done].
      cbn [fmap option_fmap option_map].
      rewrite unescape_octets; [done|].
      apply utf8Octets_bytes. unfold isCodeUnit in Hu. lia.
Qed.

Lemma unescape_encode s :
  Forall isCodeUnit s → unescape <$> encodeURIComponent s = Utf8.encode s.
Proof. by apply (unescape_encode_length (length s)). Qed.

(** The UTF-8 encoding consists of bytes. *)
Lemma encode_bytes_length (n : nat) s bs :
  (length s ≤ n)%nat → Forall isCodeUnit s → Utf8.encode s = Some bs →
  Forall isByte bs.
Proof.
  revert s bs. induction n as [|n IH]; intros s bs Hn Hs Henc.
  { destruct s; [|simpl in Hn; lia]. injection Henc as <-. constructor. }
  destruct s as [|u rest]; [injection Henc as <-; constructor|].
  apply Forall_cons in Hs as [Hu Hrest]. simpl in Hn.
  cbn [Utf8.encode] in Henc.
  destruct (isTrailSurrogate u) eqn:Htrail; [done|].
  destruct (isLeadSurrogate u) eqn:Hlead.
  - destruct rest as [|t rest']; [done|].
    apply Forall_cons in Hrest as [Ht Hrest']. simpl in Hn.
    destruct (isTrailSurrogate t) eqn:Htt; [|done].
    destruct (Utf8.encode rest') as [r|] eqn:Hr; [|done].
    injection Henc as <-. apply Forall_app. split.
    + by apply utf8Octets_bytes, surrogate_pair_range.
    + apply (IH rest'); (done || lia).
  - destruct (Utf8.encode rest) as [r|] eqn:Hr; [|done].
    injection Henc as <-. apply Forall_app. split.
    + apply utf8Octets_bytes. unfold isCodeUnit in Hu. lia.
    + apply (IH rest); (done || lia).
Qed.

Lemma encode_bytes s bs :
  Forall isCodeUnit s → Utf8.encode s = Some bs → Forall isByte bs.
Proof. by apply (encode_bytes_length (length s)). Qed.

(** ** The blocks *)

Lemma take_drop_seqZ (m n : nat) (len : Z) :
  Z.of_nat m + Z.of_nat n ≤ len →
  take n (drop m (seqZ 0 len)) = seqZ (Z.of_nat m) (Z.of_nat n).
Proof.
  intros Hlen.
  replace len with (Z.of_nat m + (Z.of_nat n + (len - Z.of_nat m - Z.of_nat n)))
    by lia.
  rewrite seqZ_app by lia. rewrite drop_app_length' by (rewrite length_seqZ; lia).
  rewrite seqZ_app by lia. rewrite take_app_length' by (rewrite length_seqZ; lia).
  by rewrite Z.add_0_l.
Qed.

Lemma blockAt_arrayWords words (i nb : nat) :
  alength words = 16 * Z.of_nat nb → (i < nb)%nat →
  blockAt words (16 * Z.of_nat i) = take 16 (drop (16 * i) (arrayWords words)).
Proof.
  intros Hlen Hi. unfold arrayWords, blockAt.
  rewrite <- fmap_drop, <- fmap_take, take_drop_seqZ by lia.
  rewrite <- (Z.add_0_r (Z.of_nat (16 * i))), <- fmap_add_seqZ.
  rewrite <- list_fmap_compose. apply list_fmap_ext. intros j t _. simpl.
  unfold uword. do 3 f_equal. lia.
Qed.

Lemma blocks_arrayWords words (nb : nat) h :
  alength words = 16 * Z.of_nat nb →
  foldl (λ v i, compress v (blockAt words i)) h (blockStarts words)
  = foldl (λ v i, compress v (take 16 (drop (16 * i) (arrayWords words)))) h
      (seq 0 (length (arrayWords words) / 16)).
Proof.
  intros Hlen. unfold blockStarts.
  replace ((alength words + 15) / 16) with (Z.of_nat nb)
    by (rewrite Hlen; Z.div_mod_to_equations; lia).
  assert (length (arrayWords words) / 16 = nb)%nat as ->.
  { unfold arrayWords. rewrite length_fmap, length_seqZ, Hlen.
    replace (Z.to_nat (16 * Z.of_nat nb)) with (nb * 16)%nat by lia.
    apply Nat.div_mul. lia. }
  unfold seqZ. rewrite Nat2Z.id, <- list_fmap_compose, foldl_fmap.
  apply foldl_ext_in. intros v i Hi. apply elem_of_seq in Hi. simpl.
  rewrite Z.add_0_r. f_equal. apply (blockAt_arrayWords words i nb); [done|lia].
Qed.

(** ** Hexadecimal output *)

Lemma and_15 y : and y 15 = y mod 16.
Proof.
  unfold and. rewrite (toInt32_small 15) by lia.
  change 15 with (Z.ones 4). rewrite Z.land_ones by lia. change (2 ^ 4) with 16.
  pose proof (Z.mod_pos_bound (toInt32 y) 16 ltac:(lia)).
  rewrite toInt32_small by lia.
  pose proof (toUint32_toInt32 y) as Hy. unfold toUint32 in Hy.
  assert (Hd : (16 | 2 ^ 32)) by (exists (2 ^ 28); reflexivity).
  rewrite <- (Z.mod_mod_divide (toInt32 y) (2 ^ 32) 16) by done.
  rewrite <- (Z.mod_mod_divide y (2 ^ 32) 16) by done.
  by rewrite Hy.
Qed.

Lemma toHexStr_nibbles num :
  toHexStr num
  = string_of_list_ascii
      ((λ i, hexDigit (nibble (toUint32 num) i)) <$> [7; 6; 5; 4; 3; 2; 1; 0]).
Proof.
  unfold toHexStr. cbn [foldl fmap list_fmap string_of_list_ascii String.append].
  rewrite !and_15, !ushr_div by lia. reflexivity.
Qed.

Lemma wordBytes_nibbles w :
  hex (wordBytes w)
  = string_of_list_ascii ((λ i, hexDigit (nibble w i)) <$> [7; 6; 5; 4; 3; 2; 1; 0]).
Proof.
  unfold hex, wordBytes, nibble.
  cbn [mbind list_bind fmap list_fmap app string_of_list_ascii].
  assert (H1 : ∀ x, x mod 256 / 16 = (x / 16) mod 16)
    by (intros; Z.div_mod_to_equations; lia).
  assert (H2 : ∀ x, x mod 256 mod 16 = x mod 16)
    by (intros; Z.div_mod_to_equations; lia).
  rewrite !H1, !H2, !Z.div_div by lia.
  change (2 ^ (4 * 7)) with (2 ^ 24 * 16). change (2 ^ (4 * 6)) with (2 ^ 24).
  change (2 ^ (4 * 5)) with (2 ^ 16 * 16). change (2 ^ (4 * 4)) with (2 ^ 16).
  change (2 ^ (4 * 3)) with (2 ^ 8 * 16). change (2 ^ (4 * 2)) with (2 ^ 8).
  change (2 ^ (4 * 1)) with 16. change (2 ^ (4 * 0)) with 1.
  rewrite Z.div_1_r. reflexivity.
Qed.

Lemma toHexStr_hex num : toHexStr num = hex (wordBytes (toUint32 num)).
Proof. by rewrite toHexStr_nibbles, wordBytes_nibbles. Qed.

Lemma string_of_list_ascii_app (l1 l2 : list ascii) :
  string_of_list_ascii (l1 ++ l2)
  = (string_of_list_ascii l1 +:+ string_of_list_ascii l2)%string.
Proof.
  induction l1 as [|c l1 IH]; [done|].
  change (String c (string_of_list_ascii (l1 ++ l2))
          = String c (string_of_list_ascii l1 +:+ string_of_list_ascii l2)%string).
  by rewrite IH.
Qed.

Lemma append_empty_r (s : string) : (s +:+ EmptyString)%string = s.
Proof.
  induction s as [|c s IH]; [done|].
  change (String c (s +:+ EmptyString)%string = String c s). by rewrite IH.
Qed.

Lemma hex_app l1 l2 : hex (l1 ++ l2) = (hex l1 +:+ hex l2)%string.
Proof. unfold hex. by rewrite bind_app, string_of_list_ascii_app. Qed.

Lemma list_ascii_append (s1 s2 : string) :
  list_ascii_of_string (s1 +:+ s2)
  = (list_ascii_of_string s1 ++ list_ascii_of_string s2)%list.
Proof.
  induction s1 as [|c s1 IH]; [done|].
  change (c :: list_ascii_of_string (s1 +:+ s2)
          = c :: (list_ascii_of_string s1 ++ list_ascii_of_string s2)%list).
  by rewrite IH.
Qed.

Lemma nibble_range w i : 0 ≤ nibble w i < 16.
Proof. unfold nibble. apply Z.mod_pos_bound. lia. Qed.

Lemma hexDigit_lower v : 0 ≤ v < 16 → isLowerHex (hexDigit v) = true.
Proof.
  intros Hv.
  assert (Hc : v = 0 ∨ v = 1 ∨ v = 2 ∨ v = 3 ∨ v = 4 ∨ v = 5 ∨ v = 6 ∨ v = 7 ∨
               v = 8 ∨ v = 9 ∨ v = 10 ∨ v = 11 ∨ v = 12 ∨ v = 13 ∨ v = 14 ∨
               v = 15) by lia.
  repeat (destruct Hc as [->|Hc]; [reflexivity|]). by subst.
Qed.

(** What [toHexStr] returns: eight lowercase hexadecimal digits. *)
Lemma toHexStr_shape num :
  length (list_ascii_of_string (toHexStr num)) = 8%nat ∧
  Forall (λ c, isLowerHex c = true) (list_ascii_of_string (toHexStr num)).
Proof.
  rewrite toHexStr_nibbles, list_ascii_of_string_of_list_ascii.
  split; [done|]. apply Forall_fmap, Forall_forall. intros i _. simpl.
  apply hexDigit_lower, nibble_range.
Qed.

Lemma digestOf_shape msg :
  length (list_ascii_of_string (digestOf msg)) = 40%nat ∧
  Forall (λ c, isLowerHex c = true) (list_ascii_of_string (digestOf msg)).
Proof.
  unfold digestOf.
  destruct (foldl _ _ _) as [[[[h0 h1] h2] h3] h4].
  rewrite !list_ascii_append.
  destruct (toHexStr_shape h0) as [L0 F0], (toHexStr_shape h1) as [L1 F1],
    (toHexStr_shape h2) as [L2 F2], (toHexStr_shape h3) as [L3 F3],
    (toHexStr_shape h4) as [L4 F4].
  split.
  - rewrite !length_app, L0, L1, L2, L3, L4. done.
  - repeat (apply Forall_app; split); done.
Qed.

(** ** The digest *)

(** On a message of bytes shorter than [2^29], the loops of [sha1] compute
    the SHA-1 digest of FIPS 180-4 and print it in lowercase hexadecimal. *)
Lemma digestOf_hex bs :
  Forall isByte bs → Z.of_nat (length bs) < 2 ^ 29 →
  digestOf bs = hex (SHA1 bs).
Proof.
  intros Hbytes Hlen. unfold digestOf, SHA1, hash.
  destruct (messageWords_pad bs Hbytes Hlen) as [Hal Hpad].
  pose proof (blocks_sim (messageWords bs) (blockStarts (messageWords bs))
                initialHash) as Hsim.
  rewrite (blocks_arrayWords _
             (Z.to_nat ((Z.of_nat (length bs) + 8) / 64 + 1))) in Hsim.
  2:{ rewrite Hal. unfold paddedLength.
      rewrite Z2Nat.id by (Z.div_mod_to_equations; lia). lia. }
  rewrite Hpad in Hsim. change (u5 initialHash) with H0 in Hsim.
  destruct (foldl (processBlock _) _ _) as [[[[h0 h1] h2] h3] h4].
  cbn [u5] in Hsim. rewrite <- Hsim.
  cbn [mbind list_bind]. rewrite !hex_app, !toHexStr_hex.
  change (hex []) with EmptyString. by rewrite append_empty_r.
Qed.

(** ** What [sha1] returns *)

(** Whatever [sha1] returns is forty lowercase hexadecimal digits. *)
Lemma sha1_shape x d :
  sha1 x = Some d →
  length (list_ascii_of_string d) = 40%nat ∧
  Forall (λ c, isLowerHex c = true) (list_ascii_of_string d).
Proof.
  unfold sha1. destruct (encodeURIComponent x) as [e|]; [|done].
  intros [= <-]. apply digestOf_shape.
Qed.

(** [sha1] goes through the UTF-8 encoding: it throws when there is none,
    and otherwise its result is a function of the encoded bytes. *)
Lemma sha1_through_utf8 x :
  Forall isCodeUnit x → sha1 x = digestOf <$> Utf8.encode x.
Proof. intros Hx. unfold sha1. by rewrite unescape_encode. Qed.

(** C9, as the code has it.  For a string [x] of UTF-16 code units whose
    UTF-8 encoding, if it has one, is shorter than [2^29] bytes: [sha1 x]
    throws when [x] has an unpaired surrogate (no UTF-8 encoding) and
    otherwise returns the SHA-1 digest (FIPS 180-4) of the UTF-8 encoding of
    [x] in hexadecimal; what it returns is forty characters, each a lowercase
    hexadecimal digit; equal strings hash equal, and strings with unequal
    digests have unequal UTF-8 encodings. *)
Theorem sha1_digest (x : list Z) :
  Forall isCodeUnit x →
  (∀ bytes, Utf8.encode x = Some bytes → Z.of_nat (length bytes) < 2 ^ 29) →
  sha1 x = (λ bytes, hex (SHA1 bytes)) <$> Utf8.encode x ∧
  (∀ d, sha1 x = Some d →
     length (list_ascii_of_string d) = 40%nat ∧
     Forall (λ c, isLowerHex c = true) (list_ascii_of_string d)) ∧
  (∀ y, x = y → sha1 x = sha1 y) ∧
  (∀ y, Forall isCodeUnit y → sha1 x ≠ sha1 y → Utf8.encode x ≠ Utf8.encode y).
Proof.
  intros Hx Hshort. split; [|split; [|split]].
  - rewrite sha1_through_utf8 by done.
    destruct (Utf8.encode x) as [bytes|] eqn:Henc; [|done]. simpl. f_equal.
    apply digestOf_hex; [by eapply encode_bytes|by apply Hshort].
  - intros d. apply sha1_shape.
  - by intros y ->.
  - intros y Hy Hne Heq. apply Hne.
    by rewrite !sha1_through_utf8, Heq by done.
Qed.

(** [sha1_digest] at the string 'abc'. *)
Lemma sha1_digest_witness :
  sha1 [97; 98; 99] = Some "a9993e364706816aba3e25717850c26c9cd0d89d"%string.
Proof.
  assert (Hx : Forall isCodeUnit [97; 98; 99])
    by (repeat constructor; unfold isCodeUnit; lia).
  assert (Hshort : ∀ bytes, Utf8.encode [97; 98; 99] = Some bytes →
                     Z.of_nat (length bytes) < 2 ^ 29).
  { intros bytes [= <-]. simpl. lia. }
  destruct (sha1_digest [97; 98; 99] Hx Hshort) as [Hd _].
  rewrite Hd. vm_compute. reflexivity.
Defined.

(** C9 as stated fails at the one-unit string made of the lone surrogate
    U+D800: [encodeURIComponent] throws, [sha1] returns no digest. *)
Lemma sha1_lone_surrogate :
  Forall isCodeUnit [55296] ∧ sha1 [55296] = None ∧ ¬ ∃ d, sha1 [55296] = Some d.
Proof.
  split; [repeat constructor; unfold isCodeUnit; lia|].
  split; [reflexivity|]. intros [d Hd]. discriminate Hd.
Qed.

End Sha1Facts.

(* ===================================================================== *)
(** * Properties of the GitLab adapter *)
(* ===================================================================== *)

Module GitLabFacts.
Import Async GitLab.

(** Whatever happens, [fetch] is called exactly once. *)
Lemma createCommit_single_fetch self fetch br msg changes :
  (createCommitWithActions self fetch br msg changes).2 = 1%nat.
Proof.
  unfold createCommitWithActions.
  destruct (fetch _ _) as [res|e]; [|done].
  destruct (ok res); simpl; [|done]. by destruct (json res).
Qed.

(** An error thrown by [fetch] is what the caller gets. *)
Lemma createCommit_transport_error self fetch br msg changes e :
  fetch 0%nat (commitRequest self br msg changes) = Rejected e →
  (createCommitWithActions self fetch br msg changes).1 = Rejected e.
Proof. intros Hf. unfold createCommitWithActions. by rewrite Hf. Qed.

(** A response that is not [ok] rejects the call at once, with the status
    and the body in the message. *)
Lemma createCommit_not_ok self fetch br msg changes res :
  fetch 0%nat (commitRequest self br msg changes) = Resolved res →
  ok res = false →
  (createCommitWithActions self fetch br msg changes).1
  = Rejected (mkError "Error"
      ("GitLab commit failed: " +:+ pretty (status res) +:+ " " +:+
       match text res with Resolved t => t | Rejected _ => EmptyString end)).
Proof.
  intros Hf Hok. unfold createCommitWithActions. by rewrite Hf, Hok.
Qed.

(** When the body does not parse, the parser's own error is what the caller
    gets. *)
Lemma createCommit_parse_error self fetch br msg changes res e :
  fetch 0%nat (commitRequest self br msg changes) = Resolved res →
  ok res = true →
  json res = Rejected e →
  (createCommitWithActions self fetch br msg changes).1 = Rejected e.
Proof.
  intros Hf Hok Hj. unfold createCommitWithActions. by rewrite Hf, Hok, Hj.
Qed.

(** On an [ok] response whose body parses to an object, the result is the
    first truthy one of its [id] and its [commit], and the parsed body when
    neither is. *)
Lemma createCommit_object self fetch br msg changes res fields :
  fetch 0%nat (commitRequest self br msg changes) = Resolved res →
  ok res = true →
  json res = Resolved (JObject fields) →
  (createCommitWithActions self fetch br msg changes).1
  = Resolved (let id := default JUndefined (lookupField "id" fields) in
              let commit := default JUndefined (lookupField "commit" fields) in
              if truthy id then id
              else if truthy commit then commit else JObject fields).
Proof.
  intros Hf Hok Hj. unfold createCommitWithActions.
  rewrite Hf, Hok, Hj. cbn [negb fst getProp].
  destruct (truthy (default JUndefined (lookupField "id" fields))); [done|].
  by destruct (truthy (default JUndefined (lookupField "commit" fields))).
Qed.

(** C7, as the code has it.  For every call of [createCommitWithActions]
    that is answered by a 2xx response: a body that is not valid JSON ends the
    call with the error that [res.json()] throws, as it is; a body that is a
    JSON object gives its [id] when that is truthy, else its [commit] when
    that is truthy, else the parsed body itself, so that a body without [id]
    is no error; [fetch] has been called once. *)
Theorem createCommit_ok_response (self : Adapter) (fetch : Fetch)
    (br msg : string) (changes : list ChangeInput) (res : Response) :
  fetch 0%nat (commitRequest self br msg changes) = Resolved res →
  ok res = true →
  let r := createCommitWithActions self fetch br msg changes in
  r.2 = 1%nat ∧
  (∀ e, json res = Rejected e → r.1 = Rejected e) ∧
  (∀ fields, json res = Resolved (JObject fields) →
     let id := default JUndefined (lookupField "id" fields) in
     let commit := default JUndefined (lookupField "commit" fields) in
     (truthy id = true → r.1 = Resolved id) ∧
     (truthy id = false → truthy commit = true → r.1 = Resolved commit) ∧
     (truthy id = false → truthy commit = false → r.1 = Resolved (JObject fields)) ∧
     (lookupField "id" fields = None → truthy id = false)).
Proof.
  intros Hf Hok r. subst r. split; [apply createCommit_single_fetch|]. split.
  - intros e Hj. by eapply createCommit_parse_error.
  - intros fields Hj id commit.
    rewrite (createCommit_object _ _ _ _ _ res fields) by done.
    fold id. fold commit. cbn zeta.
    split; [by intros ->|]. split; [by intros -> ->|].
    split; [by intros -> ->|]. subst id. by intros ->.
Qed.

(** [createCommit_ok_response] at the answer 201 with the body
    [{ id: 'cid' }]: the commit sha is [cid]. *)
Lemma createCommit_ok_response_witness :
  createCommitWithActions adapter1 (λ _ _, Resolved (created 201 "cid")) "main" "m"
    createA
  = (Resolved (JString "cid"), 1%nat).
Proof.
  destruct (createCommit_ok_response adapter1 (λ _ _, Resolved (created 201 "cid"))
              "main" "m" createA (created 201 "cid") eq_refl eq_refl)
    as (Hn & _ & Hobj).
  destruct (Hobj [("id", JString "cid")] eq_refl) as (Hid & _).
  specialize (Hid eq_refl).
  destruct (createCommitWithActions _ _ _ _ _) as [v n].
  simpl in Hn, Hid. by rewrite Hn, Hid.
Defined.

(** C7 as stated fails at a 200 response with the body [{}]: the body
    lacks [id], and [createCommitWithActions] resolves, with the parsed body
    [{}] as the commit sha; no error is thrown.  At a 200 response whose body
    is not JSON it rejects with the [SyntaxError] of the parser, whose message
    does not contain 'invalid JSON response'. *)
Lemma createCommit_no_id_resolves :
  let r := createCommitWithActions adapter1 (λ _ _, Resolved okEmptyObject)
             "main" "m" createA in
  let r' := createCommitWithActions adapter1 (λ _ _, Resolved okNotJson)
              "main" "m" createA in
  (ok okEmptyObject = true ∧ json okEmptyObject = Resolved (JObject []) ∧
   lookupField "id" [] = None) ∧
  r = (Resolved (JObject []), 1%nat) ∧
  (¬ ∃ e, r.1 = Rejected e ∧ contains "unexpected response" (emessage e) = true) ∧
  r' = (Rejected jsonSyntaxError, 1%nat) ∧
  (¬ ∃ e, r'.1 = Rejected e ∧ contains "invalid JSON response" (emessage e) = true).
Proof.
  cbv zeta. split; [done|]. split; [reflexivity|].
  split; [intros (e & He & _); discriminate He|].
  split; [reflexivity|].
  intros (e & He & Hc). injection He as <-. vm_compute in Hc. discriminate Hc.
Qed.

(** C8, as the code has it.  [createCommitWithActions] calls [fetch] once and
    never again: an error thrown by [fetch] is passed on as it is, and a
    response that is not [ok] rejects the call at once with 'GitLab commit
    failed', the status and the body; so does, in particular, a response
    with a status of 500 or more, 408 or 429. *)
Theorem createCommit_single_attempt (self : Adapter) (fetch : Fetch)
    (br msg : string) (changes : list ChangeInput) :
  let r := createCommitWithActions self fetch br msg changes in
  let first := fetch 0%nat (commitRequest self br msg changes) in
  let failure res :=
    mkError "Error"
      ("GitLab commit failed: " +:+ pretty (status res) +:+ " " +:+
       match text res with Resolved t => t | Rejected _ => EmptyString end) in
  r.2 = 1%nat ∧
  (∀ e, first = Rejected e → r.1 = Rejected e) ∧
  (∀ res, first = Resolved res → ok res = false → r.1 = Rejected (failure res)) ∧
  (∀ res, first = Resolved res →
     ok res = bool_decide (200 ≤ status res ≤ 299) →
     500 ≤ status res ∨ status res = 408 ∨ status res = 429 →
     r.1 = Rejected (failure res)).
Proof.
  cbv zeta. split; [apply createCommit_single_fetch|].
  split; [intros e; apply createCommit_transport_error|].
  split; [intros res; apply createCommit_not_ok|].
  intros res Hf Hok Hst. apply createCommit_not_ok; [done|].
  rewrite Hok. apply bool_decide_eq_false. lia.
Qed.

(** C8 as stated fails at the mock of 'retries on 500 then succeeds': the
    first answer is a 500, a second call would be answered with the commit
    [ok-id], and the call has already rejected, after one call of [fetch];
    likewise when the first call of [fetch] throws. *)
Lemma createCommit_500_not_retried :
  let changes := [mkChange "update" "z.txt" (Some "Z")] in
  let r := createCommitWithActions adapter1 fetch500ThenOk "main" "m" changes in
  let r' := createCommitWithActions adapter1 fetchThrowsThenOk "main" "msg"
              [mkChange "create" "a" (Some "x")] in
  fetch500ThenOk 1%nat (commitRequest adapter1 "main" "m" changes)
  = Resolved (created 200 "ok-id") ∧
  r = (Rejected (mkError "Error" "GitLab commit failed: 500 err"), 1%nat) ∧
  r.1 ≠ Resolved (JString "ok-id") ∧
  r' = (Rejected (mkError "Error" "network"), 1%nat) ∧
  r'.1 ≠ Resolved (JString "ok-123").
Proof.
  cbv zeta. split; [reflexivity|]. split; [vm_compute; reflexivity|].
  split; [vm_compute; discriminate|]. split; [vm_compute; reflexivity|].
  vm_compute; discriminate.
Qed.

End GitLabFacts.

(* ===================================================================== *)
(** * Properties of [NodeFsStorage] *)
(* ===================================================================== *)

Module NodeFsFacts.
Import Async NodeFs.

Section Total.
Context {W : Type} (node : Platform W).

(** [present p w]: a file exists at [p]. *)
Variable present : string → W → Prop.

(** Node's contract for a missing file: [readFile] rejects (with ENOENT). *)
Hypothesis readFile_absent :
  ∀ p w, ¬ present p w → ∃ e, fs_readFile node p w = Rejected e.

Lemma readBlob_resolves self filepath w :
  ∃ v, readBlob node self filepath w = Resolved v.
Proof. unfold readBlob. destruct (fs_readFile _ _ _); eauto. Qed.

Lemma readIndex_resolves self w : ∃ v, readIndex node self w = Resolved v.
Proof.
  unfold readIndex. destruct (fs_readFile _ _ _); [|eauto].
  destruct (JSON_parse _ _); eauto.
Qed.

Lemma deleteBlob_resolves self filepath w :
  (deleteBlob node self filepath w).1 = Resolved ().
Proof. unfold deleteBlob. by destruct (fs_unlink _ _ _). Qed.

(** C10. [readBlob], [deleteBlob] and [readIndex] never reject.  When no
    file exists at the joined path, [readBlob] resolves to [null]; when
    [index.json] does not exist, or holds text that [JSON.parse] rejects,
    [readIndex] resolves to [null]; [deleteBlob] resolves whether or not its
    target exists. *)
Theorem storage_total (self : NodeFsStorage) (filepath : string) (w : W) :
  (∃ v, readBlob node self filepath w = Resolved v) ∧
  (¬ present (path_join node (dir self) filepath) w →
   readBlob node self filepath w = Resolved None) ∧
  (deleteBlob node self filepath w).1 = Resolved () ∧
  (∃ v, readIndex node self w = Resolved v) ∧
  (¬ present (indexPath self) w → readIndex node self w = Resolved JNull) ∧
  (∀ raw e, fs_readFile node (indexPath self) w = Resolved raw →
            JSON_parse node raw = Rejected e →
            readIndex node self w = Resolved JNull).
Proof.
  split; [apply readBlob_resolves|]. split.
  { intros Ha. unfold readBlob. by destruct (readFile_absent _ _ Ha) as [e ->]. }
  split; [apply deleteBlob_resolves|]. split; [apply readIndex_resolves|].
  split.
  - intros Ha. unfold readIndex. by destruct (readFile_absent _ _ Ha) as [e ->].
  - intros raw e Hr Hp. unfold readIndex. by rewrite Hr, Hp.
Qed.

End Total.

(** The in-memory filesystem keeps Node's contract. *)
Lemma memPlatform_readFile_absent (p : string) (w : MemFs) :
  ¬ is_Some (w !! p) → ∃ e, fs_readFile memPlatform p w = Rejected e.
Proof.
  intros Hn. simpl. destruct (w !! p) eqn:E; [|eauto].
  exfalso. apply Hn. eauto.
Qed.

(** [storage_total] on a store that holds an unparseable [index.json] and
    no blob [a.txt]. *)
Lemma storage_total_witness :
  let self := construct memPlatform "store" in
  let w : MemFs := {["store/index.json" := "not json"]} in
  readBlob memPlatform self "a.txt" w = Resolved None ∧
  (deleteBlob memPlatform self "a.txt" w).1 = Resolved () ∧
  readIndex memPlatform self w = Resolved JNull ∧
  readIndex memPlatform self (∅ : MemFs) = Resolved JNull.
Proof.
  intros self w.
  destruct (storage_total memPlatform (λ p w, is_Some (w !! p))
              memPlatform_readFile_absent self "a.txt" w)
    as (_ & Hblob & Hdel & _ & _ & Hparse).
  destruct (storage_total memPlatform (λ p w, is_Some (w !! p))
              memPlatform_readFile_absent self "a.txt" ∅)
    as (_ & _ & _ & _ & Hmissing & _).
  split; [|split; [exact Hdel|split]].
  - apply Hblob. intros [c Hc]. vm_compute in Hc. discriminate.
  - apply (Hparse "not json" (mkError "SyntaxError" "Unexpected token in JSON"));
      vm_compute; reflexivity.
  - apply Hmissing. intros [c Hc]. vm_compute in Hc. discriminate.
Defined.

End NodeFsFacts.

(* ===================================================================== *)
(** * More contents than digests *)
(* ===================================================================== *)

Module Sha1Pigeonhole.
Import Sha1 Sha1View.







End Sha1Pigeonhole.

(* ===================================================================== *)
(** * Properties of the VFS state machine *)
(* ===================================================================== *)

Module VirtualFSFacts.
Import VirtualFS.

Lemma cell_inv s1 s2 p :
  cell s1 p = cell s2 p →
  entries s1 !! p = entries s2 !! p ∧ workspace s1 !! p = workspace s2 !! p ∧
  base s1 !! p = base s2 !! p ∧ conflictSeg s1 !! p = conflictSeg s2 !! p.
Proof. unfold cell. intros [= -> -> -> ->]. done. Qed.

Lemma vfs_ext s1 s2 :
  head s1 = head s2 → (∀ p, cell s1 p = cell s2 p) → s1 = s2.
Proof.
  destruct s1, s2; simpl; intros -> Hc.
  f_equal; apply map_eq; intros p; specialize (Hc p);
    apply cell_inv in Hc; simpl in Hc; tauto.
Qed.

Ltac cases_pull :=
  repeat match goal with
  | |- context [match ?x with _ => _ end] =>
      let E := fresh "E" in destruct x eqn:E; simpl in *
  | |- context [decide ?P] => destruct (decide P); simpl in *
  end.

Section Pull.
Variable H : string → string.

(** Reconciling path [p] leaves every other path as it was. *)
Lemma pullPath_other S acc p q :
  p ≠ q → cell (pullPath H S acc p).1 q = cell acc.1 q.
Proof.
  intros Hne. unfold pullPath, raiseConflict, promoteToBase, cell.
  cases_pull; by simplify_map_eq.
Qed.

Lemma pullPath_head S acc p : head (pullPath H S acc p).1 = head acc.1.
Proof.
  unfold pullPath, raiseConflict, promoteToBase. cases_pull; done.
Qed.

(** The conflicts found so far are never dropped. *)
Lemma pullPath_conflicts_prefix S acc p :
  acc.2 `prefix_of` (pullPath H S acc p).2.
Proof.
  unfold pullPath, raiseConflict, promoteToBase.
  cases_pull; try done; by apply prefix_app_r.
Qed.


Lemma pull_fold_other S l acc q :
  q ∉ l → cell (foldl (pullPath H S) acc l).1 q = cell acc.1 q.
Proof.
  revert acc. induction l as [|p l IH]; intros acc Hq; [done|].
  simpl. rewrite IH by set_solver. apply pullPath_other. set_solver.
Qed.

Lemma pull_fold_head S l acc : head (foldl (pullPath H S) acc l).1 = head acc.1.
Proof.
  revert acc. induction l as [|p l IH]; intros acc; [done|].
  simpl. rewrite IH. apply pullPath_head.
Qed.

Lemma pull_fold_conflicts_prefix S l acc :
  acc.2 `prefix_of` (foldl (pullPath H S) acc l).2.
Proof.
  revert acc. induction l as [|p l IH]; intros acc; [done|].
  simpl. etrans; [apply pullPath_conflicts_prefix | apply IH].
Qed.

(** A path on a duplicate-free worklist is reconciled once, from what the
    VFS held for it at the start. *)
Lemma pull_fold_at S l acc p :
  NoDup l → p ∈ l →
  ∃ acc0, cell acc0.1 p = cell acc.1 p ∧
    cell (foldl (pullPath H S) acc l).1 p = cell (pullPath H S acc0 p).1 p ∧
    (pullPath H S acc0 p).2 `prefix_of` (foldl (pullPath H S) acc l).2.
Proof.
  revert acc. induction l as [|q l IH]; intros acc Hnd Hin; [by inversion Hin|].
  apply NoDup_cons in Hnd as [Hq Hnd]. simpl.
  destruct (decide (p = q)) as [->|Hne].
  - exists acc. split; [done|]. split.
    + by apply pull_fold_other.
    + apply pull_fold_conflicts_prefix.
  - apply elem_of_cons in Hin as [?|Hin]; [done|].
    destruct (IH (pullPath H S acc q) Hnd Hin) as (acc0 & Hc & Hr & Hp).
    exists acc0. split; [|done].
    rewrite Hc. by apply pullPath_other.
Qed.

(** ** Settled paths *)

Lemma settled_pullPath S acc p :
  settled H S acc.1 p → pullPath H S acc p = acc.
Proof.
  unfold settled, pullPath. destruct acc as [s cs]; simpl.
  destruct (entries s !! p) as [e|], (S !! p) as [c|]; try done.
  - intros [[-> Hb]| ->]; [|done]. by rewrite decide_True.
  - by intros [->| ->].
Qed.

Lemma pullPath_settles S acc p : settled H S (pullPath H S acc p).1 p.
Proof.
  unfold settled, pullPath, raiseConflict, promoteToBase.
  destruct acc as [s cs]; simpl.
  destruct (entries s !! p) as [e|] eqn:He, (S !! p) as [c|] eqn:Hc; simpl.
  - destruct (state e) eqn:Hs; simpl;
      repeat (case_decide; simpl); simplify_map_eq; rewrite ?Hs; eauto.
  - destruct (state e) eqn:Hs; simpl; simplify_map_eq; rewrite ?Hs; eauto.
  - simplify_map_eq. eauto.
  - by rewrite He.
Qed.

Lemma settled_cell S s s' p :
  cell s p = cell s' p → settled H S s p → settled H S s' p.
Proof. intros (He & _)%cell_inv. unfold settled. by rewrite He. Qed.

Lemma pull_fold_settled_keep S l acc p :
  settled H S acc.1 p → settled H S (foldl (pullPath H S) acc l).1 p.
Proof.
  revert acc. induction l as [|q l IH]; intros acc Hs; [done|].
  simpl. apply IH. destruct (decide (q = p)) as [->|Hne].
  - apply pullPath_settles.
  - eapply settled_cell; [|exact Hs]. symmetry. by apply pullPath_other.
Qed.

Lemma pull_fold_settles S l acc p :
  p ∈ l → settled H S (foldl (pullPath H S) acc l).1 p.
Proof.
  revert acc. induction l as [|q l IH]; intros acc Hin; [by inversion Hin|].
  simpl. apply elem_of_cons in Hin as [->|Hin].
  - apply pull_fold_settled_keep, pullPath_settles.
  - by apply IH.
Qed.

Lemma pull_fold_all_settled S l acc :
  (∀ p, p ∈ l → settled H S acc.1 p) → foldl (pullPath H S) acc l = acc.
Proof.
  revert acc. induction l as [|q l IH]; intros acc Hs; [done|].
  simpl. rewrite settled_pullPath by (apply Hs; set_solver).
  apply IH. intros p Hp. apply Hs. set_solver.
Qed.

(** After a pull every path is settled against the pulled snapshot. *)
Lemma pull_settles h S s p : settled H S (pull H h S s).2 p.
Proof.
  unfold pull. simpl.
  destruct (decide (p ∈ pullPaths S s)) as [Hin|Hout].
  - eapply settled_cell; [|by apply pull_fold_settles]. done.
  - eapply (settled_cell _ s).
    + unfold cell; simpl. symmetry.
      apply (pull_fold_other S _ (s, [])), Hout.
    + unfold pullPaths in Hout. rewrite elem_of_elements in Hout.
      rewrite !elem_of_union, !elem_of_dom in Hout.
      unfold settled.
      destruct (entries s !! p) eqn:He; [exfalso; apply Hout; eauto|].
      destruct (S !! p) eqn:HS; [exfalso; apply Hout; eauto|]. done.
Qed.

Lemma pull_of_settled h S s :
  (∀ p, settled H S s p) →
  pull H h S s = (mkPullResult (elements (dom S)) [], setHead h s).
Proof.
  intros Hs. unfold pull.
  rewrite (pull_fold_all_settled S _ (s, [])); [done|].
  intros p _. apply Hs.
Qed.

(** C6. Pulling the same head and snapshot a second time reports no
    conflicts and leaves the whole VFS (head, every entry, every blob) as the
    first pull left it. *)
Theorem pull_idempotent (h : string) (S : gmap string string) (s : VFS) :
  let once := pull H h S s in
  let twice := pull H h S once.2 in
  conflicts twice.1 = [] ∧ twice.2 = once.2 ∧
  entries twice.2 = entries once.2 ∧ head twice.2 = h.
Proof.
  intros once twice. subst twice.
  rewrite (pull_of_settled h S once.2) by (intros p; apply pull_settles).
  subst once. unfold pull, setHead. simpl. done.
Qed.

(** ** Conflicts *)

(** C2. A path whose entry is [modified] with a [workspaceSha] other than the
    sha of the remote content, and which the pulled snapshot contains, ends in
    conflict: the remote bytes are in the conflict segment, the entry is in
    state [conflict] with [remoteSha] the sha of the remote bytes (its local
    shas kept), and the path is on the returned conflicts list. *)
Theorem pull_modified_conflict (h : string) (S : gmap string string) (s : VFS)
    (p : string) (e : IndexEntry) (c : string) :
  entries s !! p = Some e →
  state e = StModified →
  S !! p = Some c →
  workspaceSha e ≠ Some (H c) →
  let r := pull H h S s in
  conflictSeg r.2 !! p = Some c ∧
  entries r.2 !! p
    = Some (mkEntry StConflict (baseSha e) (workspaceSha e) (Some (H c))) ∧
  mkConflict p (Some (H c)) ∈ conflicts r.1.
Proof.
  intros He Hst HS Hne r. subst r. unfold pull. simpl.
  assert (Hin : p ∈ pullPaths S s).
  { unfold pullPaths. rewrite elem_of_elements, !elem_of_union, !elem_of_dom.
    left; left. eauto. }
  destruct (pull_fold_at S (pullPaths S s) (s, []) p) as (acc0 & Hc & Hr & Hp);
    [apply NoDup_elements | done |].
  apply cell_inv in Hc as (He0 & _). simpl in He0. rewrite He in He0.
  apply cell_inv in Hr as (Hre & _ & _ & Hrc).
  revert Hre Hrc Hp. unfold pullPath. rewrite He0, HS, Hst.
  rewrite decide_False by done. unfold raiseConflict. simpl.
  rewrite !lookup_insert_eq. intros -> -> Hp. repeat split.
  eapply elem_of_prefix; [|exact Hp].
  apply elem_of_app. right. by apply list_elem_of_singleton.
Qed.

(** ** Fast-forward *)



End Pull.

(** ** The change set and the path listing *)

Lemma changeOf_path ws pe c : changeOf ws pe = Some c → changePath c = pe.1.
Proof. unfold changeOf. destruct (state pe.2); intros [= <-]; done. Qed.



Lemma elem_of_getChangeSet s c :
  c ∈ getChangeSet s ↔
  ∃ e, entries s !! changePath c = Some e ∧
       changeOf (workspace s) (changePath c, e) = Some c.
Proof.
  unfold getChangeSet. rewrite merge_sort_Permutation, list_elem_of_omap. split.
  - intros ([p e] & Hin & Hc). apply elem_of_map_to_list in Hin.
    pose proof (changeOf_path _ _ _ Hc) as Hp. simpl in Hp. subst p. eauto.
  - intros (e & He & Hc). exists (changePath c, e). split; [|done].
    by apply elem_of_map_to_list.
Qed.

Lemma elem_of_listPaths s p : p ∈ listPaths s ↔ visible (entries s) p.
Proof.
  unfold listPaths, visible. rewrite list_elem_of_fmap. split.
  - intros ([q e] & -> & Hin). apply elem_of_map_to_list in Hin.
    apply map_lookup_filter_Some in Hin as [He Hs]. simpl in *.
    exists e. split; [done|]. destruct (state e); auto. done.
  - intros (e & He & Hs). exists (p, e). split; [done|].
    apply elem_of_map_to_list, map_lookup_filter_Some. split; [done|].
    simpl. destruct Hs as [->|[->|[->| ->]]]; done.
Qed.


Lemma tombstone_not_visible es p : isTombstone es p → ¬ visible es p.
Proof.
  intros (e & He & Hs) (e' & He' & Hs'). rewrite He in He'.
  injection He' as <-. rewrite Hs in Hs'.
  destruct Hs' as [?|[?|[?|?]]]; discriminate.
Qed.

Section Consistent.
Variable H : string → string.

#[local] Set Warnings "-clear-no-such-hyp".











(** ** Pull *)




(** ** A commit *)





(** ** A base snapshot *)











(** ** Every operation *)




(** ** Fast-forward *)


(** ** Two contents with one sha *)




(** ** A base snapshot, path by path *)





End Consistent.

Section Push.
Variable H : string → string.
Variable remote : string → list Change → Outcome string.

(** C1. A push whose [parentSha] is not the index head fails with
    [HeadMismatch] and returns the state it was given: head, entries,
    workspace and the other segments are untouched. *)
Theorem push_head_mismatch (input : PushInput) (s : VFS) :
  parentSha input ≠ head s →
  let r := push remote input s in
  r.1 = Err HeadMismatch ∧ r.2 = s ∧
  head r.2 = head s ∧ entries r.2 = entries s ∧ workspace r.2 = workspace s.
Proof.
  intros Hne r. subst r. unfold push. rewrite decide_False by done. done.
Qed.

Lemma tombstone_in_changeSet s p :
  isTombstone (entries s) p → Delete p ∈ getChangeSet s.
Proof.
  intros (e & He & Hs). apply elem_of_getChangeSet. exists e. simpl.
  split; [done|]. unfold changeOf. simpl. by rewrite Hs.
Qed.

(** A tombstone is hidden from the listing and has its delete in the change
    set. *)
Lemma tombstone_tombstoned s p : isTombstone (entries s) p → tombstoned s p.
Proof.
  intros Ht. split; [done|]. split.
  - rewrite elem_of_listPaths. by apply tombstone_not_visible.
  - by apply tombstone_in_changeSet.
Qed.

Lemma tombstoned_cell s s' p :
  cell s' p = cell s p → isTombstone (entries s) p → tombstoned s' p.
Proof.
  intros (He & _)%cell_inv Ht. apply tombstone_tombstoned.
  unfold isTombstone. by rewrite He.
Qed.









End Push.

Section Rename.
Variable H : string → string.


End Rename.

(** ** The end-to-end scenarios of section 8 *)

(** Scenario 1, create-push: one create action, and after the push the base
    holds the file, the workspace is empty and the change set is empty. *)
Example scenario_create_push :
  let s := writeFile Sha1.sha1Text "a.json" "{x:1}" initial in
  let r := push (λ _ _, Ok "c1") (mkPushInput "m" EmptyString None) s in
  getChangeSet s = [Create "a.json" "{x:1}"] ∧
  r.1 = Ok (mkPushResult false "c1") ∧
  map_to_list (base r.2) = [("a.json", "{x:1}")] ∧
  map_to_list (workspace r.2) = [] ∧
  getChangeSet r.2 = [] ∧ head r.2 = "c1".
Proof. vm_compute. repeat apply conj; reflexivity. Qed.

(** Scenario 6, the full cycle: pull seven files, write [t5.txt], delete
    [t4.txt], push; the change set is the delete followed by the create, and
    after the push the six remaining files and [t5.txt] are listed and the
    change set is empty. *)
Example scenario_full_cycle :
  let snapshot : gmap string string :=
    {["README.md" := "# test-repo"; "t1.txt" := "hello-hello-hello-hello";
      "t2.txt" := "hello"; "t3.txt" := "hello"; "t4.txt" := "hello";
      "tt1.txt" := "bbbbbb"; "tt2.txt" := "aaaaaa"]} in
  let s := deleteFile "t4.txt"
             (writeFile Sha1.sha1Text "t5.txt" "hello"
                (pull Sha1.sha1Text "25a5767c" snapshot initial).2) in
  let r := push (λ _ _, Ok "0437a3a7") (mkPushInput "m" "25a5767c" None) s in
  getChangeSet s = [Delete "t4.txt"; Create "t5.txt" "hello"] ∧
  r.1 = Ok (mkPushResult false "0437a3a7") ∧
  listPaths r.2 ≡ₚ ["README.md"; "t1.txt"; "t2.txt"; "t3.txt"; "t5.txt";
                    "tt1.txt"; "tt2.txt"] ∧
  getChangeSet r.2 = [].
Proof.
  vm_compute. repeat apply conj; try reflexivity.
  by apply (bool_decide_unpack _).
Qed.

(** ** The properties on the scenarios of the test suite *)

(** [push_head_mismatch] on the scenario 'push fails when head mismatched':
    base [a.txt = v1] at [head1], a local edit, and a push whose parent is
    [wrong]. *)
Lemma push_head_mismatch_witness :
  let s := writeFile Sha1.sha1Text "a.txt" "v1-mod"
             (pull Sha1.sha1Text "head1" {["a.txt" := "v1"]} initial).2 in
  let r := push (λ _ _, Ok "c1") (mkPushInput "m" "wrong" None) s in
  r.1 = Err HeadMismatch ∧ r.2 = s.
Proof.
  intros s r.
  destruct (push_head_mismatch (λ _ _, Ok "c1") (mkPushInput "m" "wrong" None) s)
    as (H1 & H2 & _).
  - vm_compute. discriminate.
  - exact (conj H1 H2).
Defined.

(** [pull_modified_conflict] on the scenario 'pull conflict': base
    [a.txt = v1], workspace [a.txt = local], remote [a.txt = remote]. *)
Lemma pull_modified_conflict_witness :
  let s := writeFile Sha1.sha1Text "a.txt" "local"
             (pull Sha1.sha1Text "head1" {["a.txt" := "v1"]} initial).2 in
  let r := pull Sha1.sha1Text "head2" {["a.txt" := "remote"]} s in
  conflictSeg r.2 !! "a.txt" = Some "remote" ∧
  entries r.2 !! "a.txt"
    = Some (mkEntry StConflict (Some (Sha1.sha1Text "v1")) (Some (Sha1.sha1Text "local"))
              (Some (Sha1.sha1Text "remote"))) ∧
  mkConflict "a.txt" (Some (Sha1.sha1Text "remote")) ∈ conflicts r.1.
Proof.
  intros s r.
  pose proof (pull_modified_conflict Sha1.sha1Text "head2" {["a.txt" := "remote"]} s
                "a.txt"
                (mkEntry StModified (Some (Sha1.sha1Text "v1")) (Some (Sha1.sha1Text "local")) None)
                "remote") as Hthm.
  exact (Hthm ltac:(vm_compute; reflexivity) eq_refl
              ltac:(vm_compute; reflexivity) ltac:(vm_compute; discriminate)).
Defined.




(** ** Where the claims fail as stated *)




End VirtualFSFacts.

(* ===================================================================== *)
(** * More on [sha1]: which strings can share a digest *)
(* ===================================================================== *)

Module Sha1CollisionFacts.
Import Utf8 JS Sha1 Fips180 Sha1View.

Lemma utf8Octets_inj cp1 cp2 r1 r2 :
  0 ≤ cp1 < 1114112 → 0 ≤ cp2 < 1114112 →
  (utf8Octets cp1 ++ r1 = utf8Octets cp2 ++ r2)%list → cp1 = cp2 ∧ r1 = r2.
Proof.
  intros H1 H2. unfold utf8Octets.
  destruct (Z.ltb_spec cp1 128); [|destruct (Z.ltb_spec cp1 2048);
    [|destruct (Z.ltb_spec cp1 65536)]];
  (destruct (Z.ltb_spec cp2 128); [|destruct (Z.ltb_spec cp2 2048);
    [|destruct (Z.ltb_spec cp2 65536)]]);
  cbn [app]; intros E; injection E; clear E; intros;
  (split; [Z.div_mod_to_equations; lia|
           first [done | exfalso; Z.div_mod_to_equations; lia]]).
Qed.

(** The first character of a string that has a UTF-8 encoding: a code unit
    that is no surrogate, or a surrogate pair. *)
Lemma encode_cons u rest b :
  Forall isCodeUnit (u :: rest) → Utf8.encode (u :: rest) = Some b →
  (isTrailSurrogate u = false ∧ isLeadSurrogate u = false ∧
   ∃ r, Utf8.encode rest = Some r ∧ b = (utf8Octets u ++ r)%list) ∨
  (isLeadSurrogate u = true ∧
   ∃ t rest' r, rest = t :: rest' ∧ isTrailSurrogate t = true ∧
                Utf8.encode rest' = Some r ∧
                b = (utf8Octets (65536 + (u - 55296) * 1024 + (t - 56320)) ++ r)%list).
Proof.
  intros Hx. cbn [Utf8.encode].
  destruct (isTrailSurrogate u) eqn:Htrail; [done|].
  destruct (isLeadSurrogate u) eqn:Hlead.
  - destruct rest as [|t rest']; [done|].
    destruct (isTrailSurrogate t) eqn:Htt; [|done].
    destruct (Utf8.encode rest') as [r|] eqn:Hr; [|done].
    intros [= <-]. right. split; [done|]. by exists t, rest', r.
  - destruct (Utf8.encode rest) as [r|] eqn:Hr; [|done].
    intros [= <-]. left. split; [done|]. split; [done|]. by exists r.
Qed.

Lemma utf8Octets_nonempty cp r : (utf8Octets cp ++ r)%list ≠ [].
Proof.
  unfold utf8Octets.
  by destruct (cp <? 128), (cp <? 2048), (cp <? 65536).
Qed.

Lemma encode_nil x : Forall isCodeUnit x → Utf8.encode x = Some [] → x = [].
Proof.
  destruct x as [|u rest]; [done|]. intros Hx Henc.
  destruct (encode_cons u rest [] Hx Henc)
    as [(_ & _ & r & _ & E)|(_ & t & rest' & r & _ & _ & _ & E)];
    symmetry in E; by apply utf8Octets_nonempty in E.
Qed.

Lemma encode_inj_length (n : nat) x y b :
  (length x ≤ n)%nat → Forall isCodeUnit x → Forall isCodeUnit y →
  Utf8.encode x = Some b → Utf8.encode y = Some b → x = y.
Proof.
  revert x y b. induction n as [|n IH]; intros x y b Hn Hx Hy Ex Ey.
  { destruct x; [|simpl in Hn; lia]. injection Ex as <-.
    symmetry. by apply encode_nil. }
  destruct x as [|u rest].
  { injection Ex as <-. symmetry. by apply encode_nil. }
  destruct y as [|v rest2].
  { injection Ey as <-. by apply encode_nil. }
  simpl in Hn.
  pose proof Hx as Hx'. pose proof Hy as Hy'.
  apply Forall_cons in Hx' as [Hu Hrest]. apply Forall_cons in Hy' as [Hv Hrest2].
  unfold isCodeUnit in Hu, Hv.
  destruct (encode_cons u rest b Hx Ex)
    as [(Hut & Hul & r & Hr & ->)|(Hul & t & rest' & r & -> & Htt & Hr & ->)];
  destruct (encode_cons v rest2 _ Hy Ey)
    as [(Hvt & Hvl & r2 & Hr2 & E)|(Hvl & t2 & rest2' & r2 & -> & Htt2 & Hr2 & E)].
  - apply utf8Octets_inj in E as [-> ->]; [|lia..].
    f_equal. apply (IH rest rest2 r2); (done || lia).
  - pose proof (Sha1Facts.surrogate_pair_range v t2 Hvl Htt2) as Hp.
    apply utf8Octets_inj in E as [E _]; [|lia..].
    unfold isLeadSurrogate, isTrailSurrogate in *.
    rewrite !andb_true_iff, !Z.leb_le in *. lia.
  - pose proof (Sha1Facts.surrogate_pair_range u t Hul Htt) as Hp.
    apply utf8Octets_inj in E as [E _]; [|lia..].
    unfold isLeadSurrogate, isTrailSurrogate in *.
    rewrite !andb_true_iff, !Z.leb_le in *. lia.
  - pose proof (Sha1Facts.surrogate_pair_range u t Hul Htt) as Hp.
    pose proof (Sha1Facts.surrogate_pair_range v t2 Hvl Htt2) as Hp2.
    apply utf8Octets_inj in E as [E ->]; [|lia..].
    apply Forall_cons in Hrest as [Ht Hrest']. apply Forall_cons in Hrest2 as [Ht2 Hrest2'].
    assert (u = v ∧ t = t2) as [-> ->].
    { unfold isLeadSurrogate, isTrailSurrogate in *.
      rewrite !andb_true_iff, !Z.leb_le in *. lia. }
    do 2 f_equal. apply (IH rest' rest2' r2); (done || simpl in Hn; lia).
Qed.

(** ** Lowercase hexadecimal is read back *)

Lemma hexDigit_inj a b : 0 ≤ a < 16 → 0 ≤ b < 16 → hexDigit a = hexDigit b → a = b.
Proof.
  intros Ha Hb E. apply (f_equal N_of_ascii) in E. unfold hexDigit in E.
  rewrite !N_ascii_embedding in E
    by (destruct (a <? 10), (b <? 10); lia).
  destruct (Z.ltb_spec a 10), (Z.ltb_spec b 10); lia.
Qed.

Lemma hex_inj l1 l2 :
  Forall isByte l1 → Forall isByte l2 → hex l1 = hex l2 → l1 = l2.
Proof.
  intros H1. revert l2. induction H1 as [|a l1 Ha _ IH]; intros l2 H2 E.
  - destruct H2 as [|b l2 Hb _]; [done|]. discriminate E.
  - destruct H2 as [|b l2 Hb H2]; [discriminate E|].
    unfold hex in E. rewrite !bind_cons in E. cbn [app string_of_list_ascii] in E.
    injection E as E1 E2 E3. unfold isByte in Ha, Hb.
    apply hexDigit_inj in E1; [|Z.div_mod_to_equations; lia..].
    apply hexDigit_inj in E2; [|Z.div_mod_to_equations; lia..].
    f_equal; [Z.div_mod_to_equations; lia|]. by apply IH.
Qed.

Lemma SHA1_bytes M : Forall isByte (SHA1 M).
Proof.
  unfold SHA1. destruct (hash M) as [[[[h0 h1] h2] h3] h4].
  apply Forall_bind, Forall_forall. intros w _.
  unfold wordBytes, isByte.
  repeat (apply Forall_cons; split; [apply Z.mod_pos_bound; lia|]). constructor.
Qed.

(** X1. The bytes that [sha1] hashes determine the string: no two strings share
    [unescape(encodeURIComponent(...))].  So two different strings get the
    same digest from [sha1] only when their UTF-8 encodings, which differ,
    collide under the loops of [sha1]; for encodings shorter than [2^29]
    bytes that is a collision of SHA-1 itself. *)
Theorem sha1_collisions (x y : list Z) :
  Forall isCodeUnit x → Forall isCodeUnit y →
  (∀ b, unescape <$> encodeURIComponent x = Some b →
        unescape <$> encodeURIComponent y = Some b → x = y) ∧
  (∀ d, x ≠ y → sha1 x = Some d → sha1 y = Some d →
     ∃ bx by',
       Utf8.encode x = Some bx ∧ Utf8.encode y = Some by' ∧ bx ≠ by' ∧
       digestOf bx = digestOf by' ∧
       (Z.of_nat (length bx) < 2 ^ 29 → Z.of_nat (length by') < 2 ^ 29 →
        SHA1 bx = SHA1 by')).
Proof.
  intros Hx Hy. split.
  - intros b. rewrite !Sha1Facts.unescape_encode by done.
    intros Ex Ey. by apply (encode_inj_length (length x) x y b); [lia|..].
  - intros d Hne. rewrite !Sha1Facts.sha1_through_utf8 by done.
    destruct (Utf8.encode x) as [bx|] eqn:Ex; [|done].
    destruct (Utf8.encode y) as [by'|] eqn:Ey; [|done].
    cbn [fmap option_fmap option_map]. intros [= Hdx] [= Hdy].
    exists bx, by'. split; [done|]. split; [done|]. split.
    { intros ->. apply Hne.
      by apply (encode_inj_length (length x) x y by'); [lia|..]. }
    split; [congruence|]. intros Hlx Hly.
    apply hex_inj; [apply SHA1_bytes..|].
    rewrite <- !Sha1Facts.digestOf_hex; [congruence|try done..];
      first [by apply (Sha1Facts.encode_bytes x)|by apply (Sha1Facts.encode_bytes y)].
Qed.

(** [sha1_collisions] at the one-unit string U+00E9 and the two-unit
    string that spells its UTF-8 octets: they are hashed from different
    bytes. *)
Lemma sha1_collisions_witness :
  bool_decide (unescape <$> encodeURIComponent [233]
               = unescape <$> encodeURIComponent [195; 169]) = false.
Proof.
  assert (Hx : Forall isCodeUnit [233])
    by (repeat constructor; unfold isCodeUnit; lia).
  assert (Hy : Forall isCodeUnit [195; 169])
    by (repeat constructor; unfold isCodeUnit; lia).
  destruct (sha1_collisions [233] [195; 169] Hx Hy) as [Hinj _].
  apply bool_decide_eq_false. intros E.
  discriminate (Hinj [195; 169] eq_refl (eq_sym E)).
Defined.

End Sha1CollisionFacts.

(* ===================================================================== *)
(** * Properties of the rest of the GitLab adapter *)
(* ===================================================================== *)

Module GitLabLocalFacts.
Import Async GitLab JSText GitLabLocal.
Import Utf8 JS Sha1 Fips180 Sha1View.

(** ** Texts and their code units *)

Lemma codeUnits_bytes s : Forall isByte (codeUnits s).
Proof.
  unfold codeUnits. apply Forall_fmap, Forall_forall. intros c _. simpl.
  unfold isByte. pose proof (N_ascii_bounded c). lia.
Qed.

Lemma textOf_codeUnits s : textOf (codeUnits s) = s.
Proof.
  unfold textOf, codeUnits. rewrite <- list_fmap_compose.
  rewrite <- (string_of_list_ascii_of_string s) at 2. f_equal.
  rewrite <- (list_fmap_id (list_ascii_of_string s)) at 2.
  apply list_fmap_ext. intros _ c _. simpl.
  by rewrite N2Z.id, ascii_N_embedding.
Qed.

Lemma codeUnits_textOf l : Forall isByte l → codeUnits (textOf l) = l.
Proof.
  intros Hl. unfold textOf, codeUnits.
  rewrite list_ascii_of_string_of_list_ascii, <- list_fmap_compose.
  rewrite <- (list_fmap_id l) at 2. apply Forall_fmap_ext_1.
  eapply Forall_impl; [exact Hl|]. intros u Hu. simpl. unfold isByte in Hu.
  rewrite N_ascii_embedding by lia. lia.
Qed.

(** ** [encodeURIComponent] on one-byte characters *)

Lemma byte_not_surrogate u :
  isByte u → isTrailSurrogate u = false ∧ isLeadSurrogate u = false.
Proof.
  unfold isByte, isTrailSurrogate, isLeadSurrogate. intros Hu.
  split; apply andb_false_iff; left; apply Z.leb_gt; lia.
Qed.

Lemma encodeURIComponent_bytes l :
  Forall isByte l → encodeURIComponent l = Some (l ≫= encodeUnit).
Proof.
  induction 1 as [|u l Hu _ IH]; [done|].
  cbn [encodeURIComponent]. rewrite IH, bind_cons.
  assert (He : encodeUnit u
               = if uriUnreserved u then [u] else utf8Octets u ≫= percentEncode)
    by done.
  rewrite He. destruct (uriUnreserved u); [done|].
  by destruct (byte_not_surrogate u Hu) as [-> ->].
Qed.

Lemma hexUpper_unreserved v : 0 ≤ v < 16 → uriUnreserved (hexUpper v) = true.
Proof.
  intros Hv.
  assert (Hc : v = 0 ∨ v = 1 ∨ v = 2 ∨ v = 3 ∨ v = 4 ∨ v = 5 ∨ v = 6 ∨ v = 7 ∨
               v = 8 ∨ v = 9 ∨ v = 10 ∨ v = 11 ∨ v = 12 ∨ v = 13 ∨ v = 14 ∨
               v = 15) by lia.
  repeat (destruct Hc as [->|Hc]; [reflexivity|]). by subst.
Qed.

Lemma percentEncode_safe o : isByte o → Forall safeUnit (percentEncode o).
Proof.
  intros Ho. unfold isByte in Ho. unfold percentEncode.
  apply Forall_cons; split; [by right|].
  apply Forall_cons; split;
    [left; apply hexUpper_unreserved; Z.div_mod_to_equations; lia|].
  apply Forall_cons; split;
    [left; apply hexUpper_unreserved; Z.div_mod_to_equations; lia|].
  constructor.
Qed.

Lemma encodeUnit_safe u : isByte u → Forall safeUnit (encodeUnit u).
Proof.
  intros Hu. unfold encodeUnit. destruct (uriUnreserved u) eqn:E.
  - apply Forall_cons; split; [by left|constructor].
  - apply Forall_bind. eapply Forall_impl.
    + apply Sha1Facts.utf8Octets_bytes. unfold isByte in Hu. lia.
    + intros o Ho. by apply percentEncode_safe.
Qed.

Lemma safeUnit_byte u : safeUnit u → isByte u.
Proof.
  intros [Hu| ->]; [|unfold isByte; lia].
  apply Sha1Facts.unreserved_range in Hu. unfold isByte. lia.
Qed.

Lemma encodeUnit_of_safe u :
  safeUnit u → encodeUnit u = if u =? 37 then [37; 50; 53] else [u].
Proof.
  intros [Hu| ->]; [|reflexivity].
  unfold encodeUnit. rewrite Hu.
  apply Sha1Facts.unreserved_range in Hu as [_ Hne].
  by rewrite (proj2 (Z.eqb_neq u 37) Hne).
Qed.

Lemma encodeURIComponentText_eq s :
  encodeURIComponentText s = Some (textOf (codeUnits s ≫= encodeUnit)).
Proof.
  unfold encodeURIComponentText.
  by rewrite encodeURIComponent_bytes by apply codeUnits_bytes.
Qed.

Lemma encoded_safe s : Forall safeUnit (codeUnits s ≫= encodeUnit).
Proof.
  apply Forall_bind. eapply Forall_impl; [apply codeUnits_bytes|].
  intros u Hu. by apply encodeUnit_safe.
Qed.

Lemma textOf_cons u l :
  textOf (u :: l) = String (ascii_of_N (Z.to_N u)) (textOf l).
Proof. reflexivity. Qed.

Lemma textOf_escape l :
  Forall isByte l →
  textOf (l ≫= λ u, if u =? 37 then [37; 50; 53] else [u]) = escapePercent (textOf l).
Proof.
  induction 1 as [|u l Hu _ IH]; [done|].
  rewrite bind_cons, textOf_cons. cbn [escapePercent].
  destruct (Z.eqb_spec u 37) as [->|Hne].
  - cbn [app]. rewrite !textOf_cons, IH. reflexivity.
  - cbn [app]. rewrite textOf_cons, IH.
    destruct (Ascii.eqb_spec (ascii_of_N (Z.to_N u)) "%"%char) as [E|_]; [|done].
    exfalso. apply Hne. unfold isByte in Hu.
    apply (f_equal N_of_ascii) in E. rewrite N_ascii_embedding in E by lia.
    change (N_of_ascii "%") with 37%N in E. lia.
Qed.

Lemma textOf_safe l :
  Forall safeUnit l → Forall (λ c, urlSafe c = true) (list_ascii_of_string (textOf l)).
Proof.
  intros Hl. unfold textOf. rewrite list_ascii_of_string_of_list_ascii.
  apply Forall_fmap. eapply Forall_impl; [exact Hl|]. intros u Hu. simpl.
  pose proof (safeUnit_byte u Hu) as Hb. unfold isByte in Hb.
  unfold urlSafe. rewrite N_ascii_embedding by lia. rewrite Z2N.id by lia.
  destruct Hu as [-> | ->]; [done|]. apply orb_true_r.
Qed.

Lemma encodeUnit_unreserved l :
  Forall (λ u, uriUnreserved u = true) l → l ≫= encodeUnit = l.
Proof.
  induction 1 as [|u l Hu _ IH]; [done|].
  rewrite bind_cons, IH. unfold encodeUnit. by rewrite Hu.
Qed.

Lemma escapePercent_length s :
  (String.length s ≤ String.length (escapePercent s))%nat.
Proof.
  induction s as [|c s IH]; [done|]. cbn [escapePercent].
  destruct (Ascii.eqb c "%"); simpl; lia.
Qed.

Lemma escapePercent_fixed s :
  escapePercent s = s → Forall (λ c, c ≠ "%"%char) (list_ascii_of_string s).
Proof.
  induction s as [|c s IH]; [constructor|]. cbn [escapePercent].
  destruct (Ascii.eqb_spec c "%"%char) as [->|Hne].
  - intros [= E]. pose proof (escapePercent_length s) as Hl.
    rewrite <- E in Hl at 1. simpl in Hl. lia.
  - intros [= E]. constructor; [done|by apply IH].
Qed.

Lemma encodeUnit_percent u :
  isByte u → uriUnreserved u = false → 37 ∈ encodeUnit u.
Proof.
  intros Hu Hun. unfold encodeUnit. rewrite Hun. unfold isByte in Hu.
  unfold utf8Octets. destruct (Z.ltb_spec u 128).
  - cbn. apply elem_of_cons. by left.
  - destruct (Z.ltb_spec u 2048); [|lia]. cbn. apply elem_of_cons. by left.
Qed.

Lemma no_percent_unreserved l :
  Forall isByte l → 37 ∉ l ≫= encodeUnit → Forall (λ u, uriUnreserved u = true) l.
Proof.
  induction 1 as [|u l Hu _ IH]; [constructor|].
  rewrite bind_cons. intros Hn. rewrite elem_of_app in Hn.
  constructor.
  - destruct (uriUnreserved u) eqn:E; [done|].
    exfalso. apply Hn. left. by apply encodeUnit_percent.
  - apply IH. intros Hin. apply Hn. by right.
Qed.

(** X2. [new GitLabAdapter(opts)] never throws on a project id of one-byte
    characters.  The id enters [baseUrl] as one path segment made of
    unreserved characters and [%]; an id of unreserved characters, such as a
    number, enters as it is. *)
Theorem construct_project_segment (opts : GLOpts) :
  ∃ seg,
    construct opts
    = Some (mkAdapter
              (orElse (host opts) "https://gitlab.com" +:+ "/api/v4/projects/" +:+ seg)
              [("PRIVATE-TOKEN", token opts); ("Content-Type", "application/json")]%string) ∧
    Forall (λ c, urlSafe c = true) (list_ascii_of_string seg) ∧
    (Forall (λ u, uriUnreserved u = true) (codeUnits (projectId opts)) →
     seg = projectId opts).
Proof.
  exists (textOf (codeUnits (projectId opts) ≫= encodeUnit)).
  split; [|split].
  - unfold construct. by rewrite encodeURIComponentText_eq.
  - apply textOf_safe, encoded_safe.
  - intros Hun. by rewrite encodeUnit_unreserved, textOf_codeUnits.
Qed.

(** An id that went through [encodeURIComponent] before it reaches the
    constructor is encoded a second time: every [%] of it is written as
    [%25] in [baseUrl], so that the segment differs from the encoded id
    whenever encoding changed the id in the first place. *)
Lemma construct_encodes_again (p id tok : string) (h : option string) :
  encodeURIComponentText p = Some id →
  construct (mkOpts id tok h)
  = Some (mkAdapter
            (orElse h "https://gitlab.com" +:+ "/api/v4/projects/" +:+ escapePercent id)
            [("PRIVATE-TOKEN", tok); ("Content-Type", "application/json")]%string) ∧
  (id ≠ p → escapePercent id ≠ id).
Proof.
  rewrite encodeURIComponentText_eq. intros [= <-].
  pose proof (encoded_safe p) as Hsafe.
  assert (Hbytes : Forall isByte (codeUnits p ≫= encodeUnit))
    by (eapply Forall_impl; [exact Hsafe|apply safeUnit_byte]).
  split.
  - unfold construct. cbn [projectId host token].
    rewrite encodeURIComponentText_eq, codeUnits_textOf by done.
    rewrite <- textOf_escape by done.
    assert (Hesc : ∀ l, Forall safeUnit l →
              l ≫= encodeUnit = l ≫= λ u, if u =? 37 then [37; 50; 53] else [u]).
    { induction 1 as [|u l Hu _ IH]; [done|].
      by rewrite !bind_cons, IH, encodeUnit_of_safe. }
    by rewrite (Hesc _ Hsafe).
  - intros Hne Hfix. apply Hne. apply escapePercent_fixed in Hfix.
    rewrite <- (textOf_codeUnits p) at 2. f_equal.
    apply encodeUnit_unreserved, no_percent_unreserved; [apply codeUnits_bytes|].
    intros Hin. unfold textOf in Hfix.
    rewrite list_ascii_of_string_of_list_ascii in Hfix.
    rewrite Forall_fmap, Forall_forall in Hfix. by apply (Hfix 37 Hin).
Qed.

(** ** [createBlobs] *)

Lemma createBlobs_snoc changes c :
  createBlobs (changes ++ [c]) = blobStep (createBlobs changes) c.
Proof. unfold createBlobs. by rewrite foldl_snoc. Qed.

Lemma writesTo_snoc p changes c :
  writesTo p (changes ++ [c])
  = (writesTo p changes
       ++ match (if isWrite c && String.eqb (path c) p then content c else None) with
          | Some x => [x]
          | None => []
          end)%list.
Proof.
  unfold writesTo. rewrite omap_app. reflexivity.
Qed.

Lemma setOwn_lookup k v map p :
  p ≠ "__proto__"%string →
  setOwn k v map !! p = if String.eqb k p then Some v else map !! p.
Proof.
  intros Hp. unfold setOwn.
  destruct (String.eqb_spec k "__proto__") as [->|Hk].
  - destruct (String.eqb_spec "__proto__" p) as [E|_]; [congruence|done].
  - destruct (String.eqb_spec k p) as [->|Hne].
    + by rewrite lookup_insert_eq.
    + by rewrite lookup_insert_ne.
Qed.

Lemma setOwn_proto k v map :
  map !! "__proto__"%string = None → setOwn k v map !! "__proto__"%string = None.
Proof.
  intros Hm. unfold setOwn.
  destruct (String.eqb_spec k "__proto__") as [->|Hk]; [done|].
  by rewrite lookup_insert_ne.
Qed.

(** X3. When every created or updated change carries a content,
    [createBlobs] resolves to a map that gives each path the
    sha of the content last written to it, and that has the paths of no
    deletion-only change; the path [__proto__] is never a key.  When some
    created or updated change has no content, it rejects with the
    [TypeError] of [update]. *)
Theorem createBlobs_last_write (changes : list ChangeInput) :
  ((∀ c, c ∈ changes → isWrite c = true → is_Some (content c)) →
   ∃ map, createBlobs changes = Resolved map ∧
          map !! "__proto__"%string = None ∧
          ∀ p, p ≠ "__proto__"%string →
               map !! p = shaOf <$> last (writesTo p changes)) ∧
  ((∃ c, c ∈ changes ∧ isWrite c = true ∧ content c = None) →
   createBlobs changes = Rejected invalidArgType).
Proof.
  induction changes as [|c changes [IHok IHbad]] using rev_ind.
  { split.
    - intros _. exists ∅. split; [done|]. split; [done|]. by intros p _.
    - intros (c & Hc & _). by apply elem_of_nil in Hc. }
  rewrite createBlobs_snoc. split.
  - intros Hall.
    destruct IHok as (map & -> & Hproto & Hmap).
    { intros c' Hc'. apply Hall. apply elem_of_app. by left. }
    cbn [blobStep]. destruct (isWrite c) eqn:Hw.
    + destruct (Hall c) as [x Hx]; [apply elem_of_app; right; by apply list_elem_of_singleton|done|].
      rewrite Hx. cbn [shaOfArg]. eexists. split; [done|]. split.
      * by apply setOwn_proto.
      * intros p Hp. rewrite setOwn_lookup, writesTo_snoc, Hw, Hx by done.
        cbn [andb]. destruct (String.eqb (path c) p).
        -- by rewrite last_snoc.
        -- by rewrite app_nil_r, Hmap.
    + exists map. split; [done|]. split; [done|].
      intros p Hp. rewrite writesTo_snoc, Hw. cbn [andb].
      by rewrite app_nil_r, Hmap.
  - intros (c' & Hc' & Hw & Hnone).
    apply elem_of_app in Hc' as [Hin|Hin].
    + rewrite IHbad by eauto. done.
    + apply list_elem_of_singleton in Hin as ->.
      destruct (createBlobs changes) as [map|e] eqn:E.
      * cbn [blobStep]. by rewrite Hw, Hnone.
      * (* an earlier change already rejected, with the same error *)
        cbn [blobStep]. f_equal.
        clear -E. revert e E.
        induction changes as [|d changes IH] using rev_ind; [done|].
        intros e. rewrite createBlobs_snoc.
        destruct (createBlobs changes) as [map|e'] eqn:E'.
        -- cbn [blobStep]. destruct (isWrite d); [|done].
           destruct (content d); cbn [shaOfArg]; [done|]. by intros [= <-].
        -- cbn [blobStep]. intros [= <-]. by apply IH.
Qed.

(** ** [shaOf] *)

Lemma encode_bytes_total l :
  Forall isByte l → Utf8.encode l = Some (l ≫= utf8Octets).
Proof.
  induction 1 as [|u l Hu _ IH]; [done|].
  cbn [Utf8.encode]. destruct (byte_not_surrogate u Hu) as [-> ->].
  by rewrite IH.
Qed.

Lemma utf8_bytes_length l :
  Forall isByte l → (length (l ≫= utf8Octets) ≤ 2 * length l)%nat.
Proof.
  induction 1 as [|u l Hu _ IH]; [done|].
  rewrite bind_cons, length_app. cbn [length].
  assert (length (utf8Octets u) ≤ 2)%nat; [|lia].
  unfold utf8Octets. unfold isByte in Hu.
  destruct (Z.ltb_spec u 128); [simpl; lia|].
  destruct (Z.ltb_spec u 2048); [simpl; lia|lia].
Qed.

(** X4. The adapter and the VFS name a content alike: on a content shorter than
    [2^28] characters, [sha1] of [utils/sha1.ts] returns what [shaOf]
    returns. *)
Theorem shaOf_agrees_with_sha1 (content : string) :
  Z.of_nat (String.length content) < 2 ^ 28 →
  sha1 (codeUnits content) = Some (shaOf content).
Proof.
  intros Hlen.
  pose proof (codeUnits_bytes content) as Hb.
  assert (Hcu : Forall isCodeUnit (codeUnits content)).
  { eapply Forall_impl; [exact Hb|]. unfold isByte, isCodeUnit. lia. }
  rewrite Sha1Facts.sha1_through_utf8, encode_bytes_total by done.
  cbn [fmap option_fmap option_map]. f_equal. unfold shaOf.
  apply Sha1Facts.digestOf_hex.
  - eapply Sha1Facts.encode_bytes; [exact Hcu|by apply encode_bytes_total].
  - pose proof (utf8_bytes_length _ Hb) as Hl.
    assert (length (codeUnits content) = String.length content) as E.
    { unfold codeUnits. rewrite length_fmap. clear.
      induction content as [|c s IH]; [done|]. simpl. by rewrite IH. }
    rewrite E in Hl. lia.
Qed.

(** ** The request of [createCommitWithActions] *)

(** X5. [createCommitWithActions] sends one request and nothing else of [fetch]
    matters: a POST to [baseUrl/repository/commits] with the adapter's
    headers, whose body names the branch and the message and carries one
    action for every change, in the order of the changes and on the same
    paths.  A change of type [delete] is sent as a deletion without content,
    whatever content the change has; a change of type [create] as a
    creation; a change of any other type as an update; a creation or update
    carries the content of the change, and no content at all when the change
    has none. *)
Theorem createCommit_one_request (self : Adapter) (fetch fetch' : Fetch)
    (br msg : string) (changes : list ChangeInput) :
  let req := commitRequest self br msg changes in
  fetch 0%nat req = fetch' 0%nat req →
  createCommitWithActions self fetch br msg changes
  = createCommitWithActions self fetch' br msg changes ∧
  (url req = baseUrl self +:+ "/repository/commits" ∧ method req = "POST"%string ∧
   headers req = aheaders self ∧ branch req = br ∧ commit_message req = msg) ∧
  pfile_path <$> actions req = path <$> changes ∧
  Forall2 (λ c a,
      paction a = (if String.eqb (type c) "delete" then "delete"
                   else if String.eqb (type c) "create" then "create"
                   else "update")%string ∧
      pcontent a = if String.eqb (type c) "delete" then None else content c)
    changes (actions req).
Proof.
  intros req Hsame. subst req. split; [|split; [done|split]].
  - unfold createCommitWithActions. by rewrite Hsame.
  - cbn [commitRequest actions]. rewrite <- !list_fmap_compose.
    apply list_fmap_ext. intros _ c _. simpl. unfold toAction.
    by destruct (String.eqb (type c) "delete"), (String.eqb (type c) "create").
  - cbn [commitRequest actions]. rewrite <- list_fmap_compose.
    apply Forall2_fmap_r, Forall2_same_length_lookup.
    split; [done|]. intros i c c' Hc Hc'. assert (c' = c) as -> by congruence.
    simpl. unfold toAction, stringifyAction.
    destruct (String.eqb (type c) "delete"); [done|].
    destruct (String.eqb (type c) "create"); simpl; by destruct (content c).
Qed.

(** [construct_project_segment] at the adapter of the test suite. *)
Lemma construct_project_segment_witness :
  construct (mkOpts "1" "t" None) = Some adapter1.
Proof.
  destruct (construct_project_segment (mkOpts "1" "t" None)) as (seg & Hc & _ & Hid).
  rewrite Hc, Hid; [reflexivity|].
  repeat constructor.
Defined.

(** [createBlobs_last_write] at a create, a deletion and an update. *)
Lemma createBlobs_last_write_witness :
  ∃ map,
    createBlobs [mkChange "create" "a" (Some "1"); mkChange "delete" "b" None;
                 mkChange "update" "a" (Some "2")] = Resolved map ∧
    map !! "a"%string = Some (shaOf "2") ∧ map !! "b"%string = None.
Proof.
  destruct (createBlobs_last_write
              [mkChange "create" "a" (Some "1"); mkChange "delete" "b" None;
               mkChange "update" "a" (Some "2")]) as [Hok _].
  destruct Hok as (map & Hmap & _ & Hlook).
  { intros c Hc Hw.
    apply elem_of_cons in Hc as [->|Hc]; [by eexists|].
    apply elem_of_cons in Hc as [->|Hc]; [discriminate Hw|].
    apply list_elem_of_singleton in Hc as ->. by eexists. }
  exists map. split; [exact Hmap|]. split.
  - rewrite Hlook by discriminate. reflexivity.
  - rewrite Hlook by discriminate. reflexivity.
Defined.

(** [shaOf_agrees_with_sha1] at the content 'hello'. *)
Lemma shaOf_agrees_with_sha1_witness :
  sha1 (codeUnits "hello") = Some (shaOf "hello").
Proof. apply shaOf_agrees_with_sha1. simpl. lia. Defined.

(** [createCommit_one_request] at a server that answers 500 and then a
    commit, and one that answers 500 for ever: the call ends alike. *)
Lemma createCommit_one_request_witness :
  createCommitWithActions adapter1 fetch500ThenOk "main" "m" createA
  = createCommitWithActions adapter1 fetchAlways500 "main" "m" createA.
Proof.
  apply (createCommit_one_request adapter1 fetch500ThenOk fetchAlways500 "main" "m"
           createA eq_refl).
Defined.

(** X21. On an [ok] answer [createCommitWithActions] takes whatever the body
    parses to.  On an object it resolves with the [id] of the body when that
    is truthy, else with its [commit] when that is truthy, else with the
    body itself; on any other parsed body but [null] and [undefined], be it
    an array, a number, a string or a boolean, it resolves with that body;
    on [null] and [undefined] it rejects with the [TypeError] of reading a
    property of them. *)
Theorem createCommit_accepts_any_body (self : Adapter) (fetch : Fetch)
    (br msg : string) (changes : list ChangeInput) (res : Response) (j : JsValue) :
  fetch 0%nat (commitRequest self br msg changes) = Resolved res →
  ok res = true →
  json res = Resolved j →
  let r := createCommitWithActions self fetch br msg changes in
  match j with
  | JNull | JUndefined => ∃ e, r.1 = Rejected e ∧ ename e = "TypeError"%string
  | JObject fields =>
      let id := default JUndefined (lookupField "id" fields) in
      let commit := default JUndefined (lookupField "commit" fields) in
      r.1 = Resolved (if truthy id then id else if truthy commit then commit else j)
  | _ => r.1 = Resolved j
  end.
Proof.
  intros Hf Hok Hj r. subst r. unfold createCommitWithActions.
  rewrite Hf, Hok, Hj. cbn [negb fst].
  destruct j as [| |b|z|s|items|fields]; cbn [getProp truthy];
    try done; try (by eexists).
  cbv zeta.
  destruct (truthy (default JUndefined (lookupField "id" fields))); [done|].
  by destruct (truthy (default JUndefined (lookupField "commit" fields))).
Qed.

(** [createCommit_accepts_any_body] at the body [[]]: the empty array comes
    back as the commit. *)
Lemma createCommit_accepts_any_body_witness :
  (createCommitWithActions adapter1
     (λ _ _, Resolved (mkResponse true 200 (Resolved "[]") (Resolved (JArray []))))
     "main" "m" createA).1 = Resolved (JArray []).
Proof.
  apply (createCommit_accepts_any_body adapter1
           (λ _ _, Resolved (mkResponse true 200 (Resolved "[]") (Resolved (JArray []))))
           "main" "m" createA _ (JArray []) eq_refl eq_refl eq_refl).
Defined.

End GitLabLocalFacts.

(* ===================================================================== *)
(** * Properties of the setup script *)
(* ===================================================================== *)

Module SetupFacts.
Import Async JSText Setup.

Section Facts.
Variable env : ProcessEnv.
Variable fetch : Fetch.

Lemma probeAll_round (n : nat) :
  (n mod 4 = 0)%nat →
  probeAll env fetch n probes
  = if okAt env fetch n then (true, S n)
    else if okAt env fetch (S n) then (true, S (S n))
    else if okAt env fetch (S (S n)) then (true, S (S (S n)))
    else if okAt env fetch (S (S (S n))) then (true, S (S (S (S n))))
    else (false, S (S (S (S n)))).
Proof.
  intros Hn. unfold okAt.
  assert (Hq : (n = n / 4 * 4)%nat).
  { pose proof (Nat.div_mod_eq n 4). lia. }
  assert (S n mod 4 = 1)%nat as ->.
  { rewrite Hq. apply (Nat.Div0.mod_add 1). }
  assert (S (S n) mod 4 = 2)%nat as ->.
  { rewrite Hq. apply (Nat.Div0.mod_add 2). }
  assert (S (S (S n)) mod 4 = 3)%nat as ->.
  { rewrite Hq. apply (Nat.Div0.mod_add 3). }
  rewrite Hn. cbn [probes lookup list_lookup default probeAll].
  destruct (fetch n _) as [r0|e0]; [destruct (GitLab.ok r0); [done|]|];
  (destruct (fetch (S n) _) as [r1|e1]; [destruct (GitLab.ok r1); [done|]|];
   (destruct (fetch (S (S n)) _) as [r2|e2]; [destruct (GitLab.ok r2); [done|]|];
    (destruct (fetch (S (S (S n))) _) as [r3|e3]; [by destruct (GitLab.ok r3)|done]))).
Qed.

Lemma waitLoop_none (rounds r waits : nat) :
  (∀ k, 4 * r ≤ k < 4 * (r + rounds) → okAt env fetch k = false)%nat →
  waitLoop env fetch rounds (4 * r) waits
  = (Rejected notReady, (4 * (r + rounds))%nat, (waits + rounds)%nat).
Proof.
  revert r waits. induction rounds as [|rounds IH]; intros r waits Hnone.
  { cbn [waitLoop]. f_equal; [f_equal|]; lia. }
  cbn [waitLoop]. rewrite probeAll_round by (rewrite Nat.mul_comm; apply Nat.Div0.mod_mul).
  rewrite !Hnone by lia.
  replace (S (S (S (S (4 * r))))) with (4 * S r)%nat by lia.
  rewrite IH by (intros k Hk; apply Hnone; lia).
  f_equal; [f_equal|]; lia.
Qed.

Lemma waitLoop_hit (rounds r waits k : nat) :
  (4 * r ≤ k < 4 * (r + rounds))%nat →
  okAt env fetch k = true →
  (∀ j, 4 * r ≤ j < k → okAt env fetch j = false)%nat →
  waitLoop env fetch rounds (4 * r) waits
  = (Resolved (), S k, (waits + (k / 4 - r))%nat).
Proof.
  revert r waits. induction rounds as [|rounds IH]; intros r waits Hk Hok Hbefore;
    [lia|].
  cbn [waitLoop]. rewrite probeAll_round by (rewrite Nat.mul_comm; apply Nat.Div0.mod_mul).
  destruct (decide (k < 4 * S r)%nat) as [Hin|Hout].
  - assert (Hq : (k / 4 = r)%nat) by (symmetry; apply Nat.div_unique with (k - 4 * r)%nat; lia).
    rewrite Hq, Nat.sub_diag, Nat.add_0_r.
    assert (k = 4 * r ∨ k = S (4 * r) ∨ k = S (S (4 * r)) ∨ k = S (S (S (4 * r))))%nat
      as [-> | [-> | [-> | ->]]] by lia.
    + by rewrite Hok.
    + rewrite (Hbefore (4 * r)%nat) by lia. by rewrite Hok.
    + rewrite (Hbefore (4 * r)%nat), (Hbefore (S (4 * r))) by lia. by rewrite Hok.
    + rewrite (Hbefore (4 * r)%nat), (Hbefore (S (4 * r))),
        (Hbefore (S (S (4 * r)))) by lia. by rewrite Hok.
  - rewrite !Hbefore by lia.
    replace (S (S (S (S (4 * r))))) with (4 * S r)%nat by lia.
    rewrite IH; [|lia|done|intros j Hj; apply Hbefore; lia].
    assert (S r ≤ k / 4)%nat by (apply Nat.div_le_lower_bound; lia).
    f_equal; lia.
Qed.

(** X6. [waitForGitLab] asks at most 800 times, four probes a round with a wait
    of three seconds after each round.  It resolves on the first [ok] answer,
    having made one call more than answers came before and having waited
    once for each full round before; an answer that throws or is not [ok]
    counts as no answer.  When none of the 800 answers is [ok] it rejects
    with 'GitLab did not become ready in time', after 200 waits. *)
Theorem waitForGitLab_bounded :
  ((∀ k, k < 800 → okAt env fetch k = false)%nat →
   waitForGitLab env fetch = (Rejected notReady, 800%nat, 200%nat)) ∧
  (∀ k, (k < 800)%nat → okAt env fetch k = true →
        (∀ j, j < k → okAt env fetch j = false)%nat →
        waitForGitLab env fetch = (Resolved (), S k, (k / 4)%nat)).
Proof.
  split.
  - intros Hnone. unfold waitForGitLab.
    change (waitLoop env fetch 200 0 0) with (waitLoop env fetch 200 (4 * 0) 0).
    rewrite (waitLoop_none 200 0 0); [done|]. intros k Hk. apply Hnone. lia.
  - intros k Hk Hok Hbefore. unfold waitForGitLab.
    change (waitLoop env fetch 200 0 0) with (waitLoop env fetch 200 (4 * 0) 0).
    rewrite (waitLoop_hit 200 0 0 k); [|lia|done|intros j Hj; apply Hbefore; lia].
    f_equal; lia.
Qed.

(** ** [fetchWithHost] *)

Lemma orElse_nonempty x d : d ≠ EmptyString → orElse x d ≠ EmptyString.
Proof.
  intros Hd. unfold orElse. destruct x as [s|]; [|done].
  by destruct (String.eqb_spec s EmptyString).
Qed.

(** X7. Every call that goes through [fetchWithHost] carries a host header that
    is not empty: the caller's [Host] or [host] when there is one, and
    [GITLAB_HOST_HEADER], which is never empty, otherwise.  Nothing else of
    the call is touched, and no header of the caller is lost. *)
Theorem fetchWithHost_sends_host (u : string) (o : FetchOpts) :
  let call := fetchWithHost env u o in
  let given := default ∅ (headers o) in
  url call = u ∧ method (opts call) = method o ∧ body (opts call) = body o ∧
  ∃ sent, headers (opts call) = Some sent ∧
          (hasHeader sent "Host" || hasHeader sent "host" = true) ∧
          (∀ k, k ≠ "Host"%string → sent !! k = given !! k) ∧
          sent !! "Host"%string
          = if hasHeader given "Host" || hasHeader given "host"
            then given !! "Host"%string else Some (GITLAB_HOST_HEADER env).
Proof.
  cbn zeta. unfold fetchWithHost. cbn [url method body opts headers].
  split; [done|]. split; [done|]. split; [done|].
  eexists. split; [done|].
  set (given := default ∅ (headers o)).
  destruct (hasHeader given "Host") eqn:HH; cbn [negb andb orb].
  { rewrite HH. by split; [|split]. }
  destruct (hasHeader given "host") eqn:Hh; cbn [negb andb orb].
  { rewrite HH, Hh. by split; [|split]. }
  split; [|split].
  - apply orb_true_iff. left. unfold hasHeader. rewrite lookup_insert_eq.
    apply negb_true_iff.
    destruct (String.eqb_spec (GITLAB_HOST_HEADER env) EmptyString) as [E|]; [|done].
    by apply orElse_nonempty in E.
  - intros k Hk. by rewrite lookup_insert_ne.
  - by rewrite lookup_insert_eq.
Qed.

(** ** [createSession] *)

(** X8. [createSession] resolves only with a truthy [private_token] taken
    from the body of an [ok] answer other than 404: an
    answer without a token is an error, never a missing token passed on. *)
Theorem createSession_token (n : nat) (token : JsValue) :
  createSession env fetch n = Resolved token ↔
  ∃ res data,
    fetch n (sessionCall env) = Resolved res ∧
    GitLab.status res ≠ 404 ∧ GitLab.ok res = true ∧
    GitLab.json res = Resolved data ∧
    getProp data "private_token" = Resolved token ∧
    truthy token = true.
Proof.
  unfold createSession. split.
  - destruct (fetch n _) as [res|e]; [|done].
    destruct (Z.eqb_spec (GitLab.status res) 404) as [|Hs]; [done|].
    destruct (GitLab.ok res) eqn:Hok; cbn [negb].
    2:{ by destruct (GitLab.text res). }
    destruct (GitLab.json res) as [data|e] eqn:Hj; [|done].
    destruct (getProp data "private_token") as [t|e] eqn:Hp; [|done].
    destruct (truthy t) eqn:Ht; [|done].
    intros [= <-]. by exists res, data.
  - intros (res & data & -> & Hs & Hok & Hj & Hp & Ht).
    rewrite (proj2 (Z.eqb_neq _ _) Hs), Hok, Hj, Hp, Ht. done.
Qed.

(** ** [createProject] *)

Lemma isProject_truthy p : isProject env p = Resolved true → truthy p = true.
Proof.
  unfold isProject. destruct p as [| |b|z|s|items|fields]; try done; cbn [getProp].
  all: cbn [isString callEndsWith]; discriminate.
Qed.

Lemma findProject_found items v :
  findProject env items = Resolved v ∧ truthy v = true ↔
  ∃ before after,
    items = (before ++ v :: after)%list ∧
    Forall (λ p, isProject env p = Resolved false) before ∧
    isProject env v = Resolved true.
Proof.
  split.
  - intros [Hfind Ht]. induction items as [|p items IH]; [by injection Hfind as <-|].
    cbn [findProject] in Hfind.
    destruct (isProject env p) as [[|]|e] eqn:Hp; [| |done].
    + injection Hfind as <-. by exists [], items.
    + destruct (IH Hfind) as (before & after & -> & Hb & Hv).
      exists (p :: before), after. split; [done|]. split; [by constructor|done].
  - intros (before & after & -> & Hb & Hv). split; [|by eapply isProject_truthy].
    induction Hb as [|p before Hp _ IH]; cbn [app findProject].
    + by rewrite Hv.
    + by rewrite Hp.
Qed.

(** X9. When the creation is answered with 400, [createProject] looks the
    project up, which makes two calls in all.  It resolves exactly when the
    search answers [ok] with an array in which some element has the project
    name as its [path], or a [path_with_namespace] that ends in a slash and
    the name, and no element before it makes the test throw; the result is
    the first such element. *)
Theorem createProject_existing (token : string) (n : nat) (res : GitLab.Response)
    (found : JsValue) :
  fetch n (createCall env token) = Resolved res →
  GitLab.status res = 400 →
  ((createProject env fetch token n).1 = Resolved found ↔
   ∃ query list before after,
     encodeURIComponentText (PROJECT_NAME env) = Some query ∧
     fetch (S n) (searchCall env token query) = Resolved list ∧
     GitLab.ok list = true ∧
     GitLab.json list = Resolved (JArray (before ++ found :: after)) ∧
     Forall (λ p, isProject env p = Resolved false) before ∧
     isProject env found = Resolved true) ∧
  (createProject env fetch token n).2 = S (S n).
Proof.
  intros Hres H400. unfold createProject. rewrite Hres, H400.
  change (400 =? 400) with true. cbv iota.
  destruct (encodeURIComponentText (PROJECT_NAME env)) as [query|] eqn:Hq.
  2:{ by rewrite GitLabLocalFacts.encodeURIComponentText_eq in Hq. }
  assert (Hfail : ∀ found, createFailed400 res ≠ Resolved found).
  { intros v. unfold createFailed400. by destruct (GitLab.text res). }
  destruct (fetch (S n) _) as [list|e] eqn:Hlist; cbn [fst snd].
  2:{ split; [|done]. split; [done|].
      intros (q & l & b & a & [= <-] & Hl & _). congruence. }
  destruct (GitLab.ok list) eqn:Hok; cbn [fst snd].
  2:{ split; [|done]. split; [by intros ?%Hfail|].
      intros (q & l & b & a & [= <-] & Hl & Hokl & _). congruence. }
  destruct (GitLab.json list) as [arr|e] eqn:Hj; cbn [fst snd].
  2:{ split; [|done]. split; [done|].
      intros (q & l & b & a & [= <-] & Hl & Hokl & Hjl & _). congruence. }
  destruct (findIn env arr) as [v|e] eqn:Hfind; cbn [fst snd].
  - destruct (truthy v) eqn:Ht; cbn [fst snd]; (split; [|done]); split.
    + intros [= ->]. destruct arr; try done. cbn [findIn] in Hfind.
      destruct (proj1 (findProject_found items found) (conj Hfind Ht))
        as (before & after & -> & Hb & Hv).
      by exists query, list, before, after.
    + intros (q & l & b & a & [= <-] & Hl & Hokl & Hjl & Hb & Hv).
      assert (l = list) as -> by congruence.
      assert (arr = JArray (b ++ found :: a)) as -> by congruence.
      cbn [findIn] in Hfind.
      destruct (proj2 (findProject_found (b ++ found :: a) found)) as [Hf _];
        [by exists b, a|]. congruence.
    + by intros ?%Hfail.
    + intros (q & l & b & a & [= <-] & Hl & Hokl & Hjl & Hb & Hv).
      assert (l = list) as -> by congruence.
      assert (arr = JArray (b ++ found :: a)) as -> by congruence.
      cbn [findIn] in Hfind.
      destruct (proj2 (findProject_found (b ++ found :: a) found)) as [Hf Htf];
        [by exists b, a|]. congruence.
  - split; [|done]. split; [done|].
    intros (q & l & b & a & [= <-] & Hl & Hokl & Hjl & Hb & Hv).
    assert (l = list) as -> by congruence.
    assert (arr = JArray (b ++ found :: a)) as -> by congruence.
    cbn [findIn] in Hfind.
    destruct (proj2 (findProject_found (b ++ found :: a) found)) as [Hf _];
      [by exists b, a|]. congruence.
Qed.

(** ** The configuration and the adapter *)

Lemma orElse_some (x d : string) : x ≠ EmptyString → orElse (Some x) d = x.
Proof.
  intros Hx. unfold orElse. by destruct (String.eqb_spec x EmptyString).
Qed.

(** X10. [main] writes the project path URL-encoded into the configuration, and
    the adapter that is made from the configuration encodes it again: in
    [baseUrl] every [%] of the written id stands as [%25], so that the
    segment is not the written id whenever the path had a character to
    encode, such as the slash of [root/test-repo].  The host of the adapter
    is [GITLAB_URL]. *)
Theorem setup_config_encoded_twice (token p : string) (o : GitLabLocal.GLOpts) :
  configOf env token p = Some o →
  GitLabLocal.construct o
  = Some (GitLab.mkAdapter
            (GITLAB_URL env +:+ "/api/v4/projects/" +:+ escapePercent (GitLabLocal.projectId o))
            [("PRIVATE-TOKEN", token); ("Content-Type", "application/json")]%string) ∧
  (GitLabLocal.projectId o ≠ p →
   escapePercent (GitLabLocal.projectId o) ≠ GitLabLocal.projectId o).
Proof.
  unfold configOf.
  destruct (encodeURIComponentText p) as [id|] eqn:Hid; [|done].
  intros [= <-]. cbn [GitLabLocal.projectId].
  destruct (GitLabLocalFacts.construct_encodes_again p id token (Some (GITLAB_URL env)) Hid)
    as [Hc Hne].
  split; [|done]. rewrite Hc. rewrite orElse_some; [done|].
  by apply orElse_nonempty.
Qed.

End Facts.

(** [waitForGitLab_bounded] at a server that is ready at the sixth call:
    six calls and one wait. *)
Lemma waitForGitLab_bounded_witness :
  waitForGitLab noEnv readyAtSixth = (Resolved (), 6%nat, 1%nat).
Proof.
  destruct (waitForGitLab_bounded noEnv readyAtSixth) as [_ Hhit].
  apply (Hhit 5%nat); [lia|reflexivity|].
  intros j Hj.
  assert (j = 0 ∨ j = 1 ∨ j = 2 ∨ j = 3 ∨ j = 4)%nat
    as [-> | [-> | [-> | [-> | ->]]]] by lia; reflexivity.
Defined.

(** [createSession_token] at a server that opens a session. *)
Lemma createSession_token_witness :
  createSession noEnv sessionServer 0 = Resolved (JString "tok").
Proof.
  apply createSession_token. eexists _, _.
  split; [reflexivity|]. split; [discriminate|]. split; [reflexivity|].
  split; [reflexivity|]. split; reflexivity.
Defined.

(** [createProject_existing] at a server on which the project exists: the
    listed project is returned, after two calls. *)
Lemma createProject_existing_witness :
  (createProject noEnv existingServer "tok" 0).1 = Resolved theProject.
Proof.
  destruct (createProject_existing noEnv existingServer "tok" 0 _ theProject
              eq_refl eq_refl) as [[_ Hback] _].
  apply Hback. eexists _, _, [otherProject], [].
  split; [reflexivity|]. split; [reflexivity|]. split; [reflexivity|].
  split; [reflexivity|]. split; [|reflexivity].
  constructor; [vm_compute; reflexivity|constructor].
Defined.

(** [setup_config_encoded_twice] at the project [root/test-repo]. *)
Lemma setup_config_encoded_twice_witness :
  GitLabLocal.construct (GitLabLocal.mkOpts "root%2Ftest-repo" "tok" (Some "http://gitlab"))
  = Some (GitLab.mkAdapter "http://gitlab/api/v4/projects/root%252Ftest-repo"
            [("PRIVATE-TOKEN", "tok"); ("Content-Type", "application/json")]%string).
Proof.
  destruct (setup_config_encoded_twice noEnv "tok" "root/test-repo"
              (GitLabLocal.mkOpts "root%2Ftest-repo" "tok" (Some "http://gitlab"))
              eq_refl) as [Hc _].
  rewrite Hc. reflexivity.
Defined.

End SetupFacts.

(* ===================================================================== *)
(** * Blobs and index of [NodeFsStorage] on a filesystem *)
(* ===================================================================== *)

Module NodeFsBlobFacts.
Import Async NodeFs BlobOps.

Section Contract.
Context {W : Type} (node : Platform W).

(** [content p w]: the text of the regular file at [p], if there is one. *)
Variable content : string → W → option string.

(** What [fs/promises] does on a filesystem that nobody else writes to and
    that has no links, for normalised paths: [readFile] resolves with the
    content of an existing file and rejects otherwise; [mkdir] changes no
    file; a [writeFile] that resolves has set that one file; an [unlink] that
    resolves has removed that one file, and one that rejects has changed
    nothing. *)
Hypothesis readFile_content :
  ∀ p w c, fs_readFile node p w = Resolved c ↔ content p w = Some c.
Hypothesis mkdir_content :
  ∀ d w q, content q (fs_mkdir node d w).2 = content q w.
Hypothesis writeFile_content :
  ∀ p c w q, (fs_writeFile node p c w).1 = Resolved () →
    content q (fs_writeFile node p c w).2
    = if decide (q = p) then Some c else content q w.
Hypothesis unlink_content :
  ∀ p w q, content q (fs_unlink node p w).2
           = match (fs_unlink node p w).1 with
             | Resolved _ => if decide (q = p) then None else content q w
             | Rejected _ => content q w
             end.

Lemma readBlob_content self f w :
  readBlob node self f w = Resolved (content (path_join node (dir self) f) w).
Proof.
  unfold readBlob.
  destruct (fs_readFile _ _ _) as [c|e] eqn:E.
  - apply readFile_content in E. by rewrite E.
  - destruct (content _ w) as [c|] eqn:Ec; [|done].
    apply readFile_content in Ec. congruence.
Qed.

Lemma content_writeBlob self f c w q :
  (writeBlob node self f c w).1 = Resolved () →
  content q (writeBlob node self f c w).2
  = if decide (q = path_join node (dir self) f) then Some c else content q w.
Proof.
  intros Hw. unfold writeBlob in *.
  pose proof (mkdir_content (path_dirname node (path_join node (dir self) f)) w) as Hm.
  destruct (fs_mkdir _ _ _) as [[[]|e] w'] eqn:Em; [|done]. simpl in Hm.
  rewrite writeFile_content by done. by rewrite Hm.
Qed.

Lemma content_deleteBlob self f w q :
  content q (deleteBlob node self f w).2
  = match (fs_unlink node (path_join node (dir self) f) w).1 with
    | Resolved _ => if decide (q = path_join node (dir self) f) then None else content q w
    | Rejected _ => content q w
    end.
Proof.
  unfold deleteBlob.
  pose proof (unlink_content (path_join node (dir self) f) w q) as Hu.
  by destruct (fs_unlink _ _ _) as [r w'].
Qed.

(** X11. After a [writeBlob] that resolved, the blob reads back, under its name
    and under every name that [path.join] maps to the same path; all other
    blobs read as before. *)
Theorem writeBlob_then_readBlob (self : NodeFsStorage) (f c g : string) (w : W) :
  (writeBlob node self f c w).1 = Resolved () →
  readBlob node self g (writeBlob node self f c w).2
  = if decide (path_join node (dir self) g = path_join node (dir self) f)
    then Resolved (Some c) else readBlob node self g w.
Proof.
  intros Hw. rewrite !readBlob_content, content_writeBlob by done.
  by destruct (decide _).
Qed.

(** X12. [deleteBlob] resolves whatever [unlink] does.  When [unlink] resolved
    the blob reads as [null] afterwards and the other blobs as before; when
    [unlink] rejected, for whatever reason, [deleteBlob] still resolves and
    every blob, the one to delete included, reads as before. *)
Theorem deleteBlob_then_readBlob (self : NodeFsStorage) (f g : string) (w : W) :
  (deleteBlob node self f w).1 = Resolved () ∧
  readBlob node self g (deleteBlob node self f w).2
  = match (fs_unlink node (path_join node (dir self) f) w).1 with
    | Resolved _ =>
        if decide (path_join node (dir self) g = path_join node (dir self) f)
        then Resolved None else readBlob node self g w
    | Rejected _ => readBlob node self g w
    end.
Proof.
  split; [unfold deleteBlob; by destruct (fs_unlink _ _ _)|].
  rewrite !readBlob_content, content_deleteBlob.
  destruct (fs_unlink _ _ _).1; [|done]. by destruct (decide _).
Qed.

(** X13. Blobs and index share the directory: a blob named [index.json] is the
    index file.  After [writeBlob('index.json', c)], [readIndex] returns what
    [c] parses to, or [null] when [c] is not JSON. *)
Theorem writeBlob_index_json (d c : string) (w : W) :
  let self := construct node d in
  (writeBlob node self "index.json" c w).1 = Resolved () →
  readIndex node self (writeBlob node self "index.json" c w).2
  = match JSON_parse node c with
    | Resolved v => Resolved v
    | Rejected _ => Resolved JNull
    end.
Proof.
  intros self Hw. unfold readIndex.
  assert (Hc : fs_readFile node (indexPath self)
                 (writeBlob node self "index.json" c w).2 = Resolved c).
  { apply readFile_content. rewrite content_writeBlob by done.
    by rewrite decide_True. }
  by rewrite Hc.
Qed.

(** X14. After a [writeIndex] that resolved, [readIndex] returns the index that
    was written, provided [JSON.parse] reads back what [JSON.stringify] wrote
    of it; every blob under another path reads as before. *)
Theorem writeIndex_then_readIndex (self : NodeFsStorage) (idx : JsValue)
    (g : string) (w : W) :
  (writeIndex node self idx w).1 = Resolved () →
  JSON_parse node (JSON_stringify node idx) = Resolved idx →
  readIndex node self (writeIndex node self idx w).2 = Resolved idx ∧
  (path_join node (dir self) g ≠ indexPath self →
   readBlob node self g (writeIndex node self idx w).2 = readBlob node self g w).
Proof.
  intros Hw Hjson. unfold writeIndex in *. split.
  - unfold readIndex.
    assert (Hc : fs_readFile node (indexPath self)
                   (fs_writeFile node (indexPath self) (JSON_stringify node idx) w).2
                 = Resolved (JSON_stringify node idx)).
    { apply readFile_content. rewrite writeFile_content by done.
      by rewrite decide_True. }
    by rewrite Hc, Hjson.
  - intros Hne. rewrite !readBlob_content, writeFile_content by done.
    by rewrite decide_False.
Qed.

(** ** [InMemoryStorage] stands in for [NodeFsStorage] *)

Section Simulation.
Variable self : NodeFsStorage.

(** The names in use; [path.join] sends no two of them to one path. *)
Variable names : string → Prop.
Hypothesis join_injective :
  ∀ f g, names f → names g →
         path_join node (dir self) f = path_join node (dir self) g → f = g.

Lemma agree_step s w op :
  names (opPath op) → wentThrough node self content w op →
  agree node self names s w →
  agree node self names (runMem s op) (runNode node self w op).
Proof.
  intros Hn Hthrough Hag g Hg. specialize (Hag g Hg).
  rewrite readBlob_content in *. unfold InMemory.readBlob in *.
  injection Hag as Hag. f_equal.
  destruct op as [f c|f]; cbn [runMem runNode opPath wentThrough] in *.
  - rewrite content_writeBlob by done. cbn.
    destruct (decide (path_join node (dir self) g = path_join node (dir self) f)) as [E|Hne].
    + apply join_injective in E as ->; [|done..]. by rewrite lookup_insert_eq.
    + rewrite lookup_insert_ne; [done|]. by intros ->.
  - rewrite content_deleteBlob. cbn.
    destruct (decide (g = f)) as [->|Hne].
    + rewrite lookup_delete_eq.
      destruct Hthrough as [Hu|Hnone].
      * rewrite Hu. by rewrite decide_True.
      * destruct (fs_unlink _ _ _).1; [by rewrite decide_True|done].
    + rewrite lookup_delete_ne by done.
      destruct (fs_unlink _ _ _).1; [|done].
      rewrite decide_False; [done|]. intros E. by apply join_injective in E.
Qed.

(** X15. The storage of the test suite answers [readBlob] as [NodeFsStorage]
    does, after any sequence of writes and deletions that went through, as
    long as the names in use are not aliases of one another. *)
Theorem inMemory_simulates_nodeFs (ops : list BlobOp)
    (s : InMemory.InMemoryStorage) (w : W) :
  Forall (λ op, names (opPath op)) ops →
  allThrough node self content w ops →
  agree node self names s w →
  agree node self names (foldl runMem s ops) (foldl (runNode node self) w ops).
Proof.
  intros Hnames. revert s w.
  induction Hnames as [|op ops Hop _ IH]; intros s w Hall Hag; [done|].
  destruct Hall as [Hthrough Hall]. cbn [foldl].
  apply IH; [done|]. by apply agree_step.
Qed.

End Simulation.
End Contract.

(** ** The filesystem in memory keeps the contract *)

Lemma memPlatform_readFile_content (p : string) (w : MemFs) (c : string) :
  fs_readFile memPlatform p w = Resolved c ↔ w !! p = Some c.
Proof.
  simpl. destruct (w !! p) as [c'|]; split; intros E; try done.
  - by injection E as ->.
  - by injection E as ->.
Qed.

Lemma memPlatform_mkdir_content (d : string) (w : MemFs) (q : string) :
  (fs_mkdir memPlatform d w).2 !! q = w !! q.
Proof. done. Qed.

Lemma memPlatform_writeFile_content (p c : string) (w : MemFs) (q : string) :
  (fs_writeFile memPlatform p c w).1 = Resolved () →
  (fs_writeFile memPlatform p c w).2 !! q = if decide (q = p) then Some c else w !! q.
Proof.
  intros _. change ((fs_writeFile memPlatform p c w).2) with (<[p := c]> w).
  destruct (decide (q = p)) as [->|Hne].
  - apply lookup_insert_eq.
  - apply lookup_insert_ne. congruence.
Qed.

Lemma memPlatform_unlink_content (p : string) (w : MemFs) (q : string) :
  (fs_unlink memPlatform p w).2 !! q
  = match (fs_unlink memPlatform p w).1 with
    | Resolved _ => if decide (q = p) then None else w !! q
    | Rejected _ => w !! q
    end.
Proof.
  change (fs_unlink memPlatform p w)
    with (match w !! p with
          | Some _ => (Resolved (), delete p w)
          | None => (Rejected (enoent "unlink" p), w)
          end).
  destruct (w !! p) as [c|] eqn:E; cbn [fst snd]; [|done].
  destruct (decide (q = p)) as [->|Hne].
  - apply lookup_delete_eq.
  - apply lookup_delete_ne. congruence.
Qed.

Lemma append_cancel_l (d a b : string) : (d +:+ a = d +:+ b)%string → a = b.
Proof.
  induction d as [|c d IH]; [done|].
  change (String c (d +:+ a) = String c (d +:+ b) → a = b)%string.
  intros [= E]. by apply IH.
Qed.

Lemma memPlatform_join_injective (d f g : string) :
  path_join memPlatform d f = path_join memPlatform d g → f = g.
Proof. simpl. intros E. by do 2 apply append_cancel_l in E. Qed.

(** [writeBlob_then_readBlob] on the store [store]. *)
Lemma writeBlob_then_readBlob_witness :
  let self := construct memPlatform "store" in
  readBlob memPlatform self "dir/a.txt"
    (writeBlob memPlatform self "dir/a.txt" "hello" ∅).2 = Resolved (Some "hello"%string).
Proof.
  intros self.
  rewrite (writeBlob_then_readBlob memPlatform (λ p w, w !! p)
             memPlatform_readFile_content memPlatform_mkdir_content
             memPlatform_writeFile_content self "dir/a.txt" "hello" "dir/a.txt" ∅ eq_refl).
  reflexivity.
Defined.

(** [deleteBlob_then_readBlob] at a blob that is there. *)
Lemma deleteBlob_then_readBlob_witness :
  let self := construct memPlatform "store" in
  let w : MemFs := {["store/a.txt"%string := "hello"%string]} in
  readBlob memPlatform self "a.txt" (deleteBlob memPlatform self "a.txt" w).2
  = Resolved None.
Proof.
  intros self w.
  destruct (deleteBlob_then_readBlob memPlatform (λ p w, w !! p)
              memPlatform_readFile_content memPlatform_unlink_content
              self "a.txt" "a.txt" w) as [_ Hr].
  rewrite Hr. reflexivity.
Defined.

(** [writeBlob_index_json] at a blob that is not JSON. *)
Lemma writeBlob_index_json_witness :
  let self := construct memPlatform "store" in
  readIndex memPlatform self (writeBlob memPlatform self "index.json" "oops" ∅).2
  = Resolved JNull.
Proof.
  intros self.
  rewrite (writeBlob_index_json memPlatform (λ p w, w !! p)
             memPlatform_readFile_content memPlatform_mkdir_content
             memPlatform_writeFile_content "store" "oops" ∅ eq_refl).
  reflexivity.
Defined.

(** [writeIndex_then_readIndex] at the empty object. *)
Lemma writeIndex_then_readIndex_witness :
  let self := construct memPlatform "store" in
  readIndex memPlatform self (writeIndex memPlatform self (JObject []) ∅).2
  = Resolved (JObject []).
Proof.
  intros self.
  apply (writeIndex_then_readIndex memPlatform (λ p w, w !! p)
           memPlatform_readFile_content memPlatform_writeFile_content
           self (JObject []) "a.txt" ∅ eq_refl eq_refl).
Defined.

(** [inMemory_simulates_nodeFs] at two writes and two deletions, one of
    them of a blob that is not there. *)
Lemma inMemory_simulates_nodeFs_witness :
  let self := construct memPlatform "store" in
  let ops := [WriteBlob "a" "1"; WriteBlob "b" "2"; DeleteBlob "a"; DeleteBlob "zz"] in
  InMemory.readBlob "b" (foldl runMem (InMemory.construct None) ops)
  = readBlob memPlatform self "b" (foldl (runNode memPlatform self) ∅ ops).
Proof.
  intros self ops.
  apply (inMemory_simulates_nodeFs memPlatform (λ p w, w !! p)
           memPlatform_readFile_content memPlatform_mkdir_content
           memPlatform_writeFile_content memPlatform_unlink_content
           self (λ _, True)
           (λ f g _ _, memPlatform_join_injective (dir self) f g)
           ops (InMemory.construct None) ∅).
  - repeat constructor.
  - cbn [allThrough ops]. split; [reflexivity|]. split; [reflexivity|].
    split; [left; reflexivity|]. split; [right; reflexivity|exact I].
  - intros g _. reflexivity.
  - exact I.
Defined.

End NodeFsBlobFacts.

(* ===================================================================== *)
(** * Properties of [BrowserStorage] *)
(* ===================================================================== *)

Module BrowserFacts.
Import Async Browser.

Section Facts.
Context {W Db H : Type} (browser : Platform W Db H).

Lemma tx_rejected (self : BrowserStorage Db) (request : Db → Step W unit) e w :
  dbPromise self = Rejected e → tx self request w = (Rejected e, w).
Proof. intros Hdb. unfold tx, andThen, awaitDb. by rewrite Hdb. Qed.

Lemma tx_resolved (self : BrowserStorage Db) (request : Db → Step W unit) db w :
  dbPromise self = Resolved db → tx self request w = request db w.
Proof. intros Hdb. unfold tx, andThen, awaitDb. by rewrite Hdb. Qed.

(** X16. Without [globalThis.indexedDB] the object is still constructed, and
    nothing is stored on the way; but [init], [readIndex], [writeIndex] and
    [deleteBlob] reject with 'IndexedDB is not available', and so do
    [readBlob] and [writeBlob] unless the OPFS serves them: a [writeBlob]
    whose OPFS attempt goes through resolves. *)
Theorem without_indexedDB (w0 : W) :
  indexedDB_open browser = None →
  let self := (construct browser w0).1 in
  (construct browser w0).2 = w0 ∧
  ∀ (f c : string) (idx : JsValue) (w : W),
    init self w = (Rejected notAvailable, w) ∧
    readIndex browser self w = (Rejected notAvailable, w) ∧
    writeIndex browser self idx w = (Rejected notAvailable, w) ∧
    deleteBlob browser self f w = (Rejected notAvailable, w) ∧
    (usableOpfs browser = None →
     readBlob browser self f w = (Rejected notAvailable, w) ∧
     writeBlob browser self f c w = (Rejected notAvailable, w)) ∧
    (∀ opfs, usableOpfs browser = Some opfs →
       (opfsWrite browser opfs f c w).1 = Resolved () →
       (writeBlob browser self f c w).1 = Resolved ()) ∧
    (∀ opfs, usableOpfs browser = Some opfs →
       (opfsWrite browser opfs f c w).1 ≠ Resolved () →
       (writeBlob browser self f c w).1 = Rejected notAvailable).
Proof.
  intros Hno self.
  assert (Hc : construct browser w0 = (mkStorage "apigit_storage" (Rejected notAvailable), w0)).
  { unfold construct, openDb. by rewrite Hno. }
  subst self. rewrite Hc. cbn [fst snd]. split; [done|].
  intros f c idx w.
  split; [done|]. split; [done|]. split; [done|]. split; [done|].
  split; [|split].
  - intros Hopfs. unfold readBlob, writeBlob. by rewrite Hopfs.
  - intros opfs Hopfs Hw. unfold writeBlob. rewrite Hopfs. unfold orElseDo.
    by destruct (opfsWrite _ _ _ _ _) as [[[]|e] w'].
  - intros opfs Hopfs Hw. unfold writeBlob. rewrite Hopfs. unfold orElseDo.
    by destruct (opfsWrite _ _ _ _ _) as [[[]|e] w'].
Qed.

(** ** Blobs through IndexedDB *)

(** X17. Where there is no usable OPFS, a blob written is the blob read, and a
    blob deleted reads as [null]: provided that IndexedDB, asked for the key
    after the request has completed, finds what was put, and finds nothing
    after the deletion. *)
Theorem idb_blob_round_trip (self : BrowserStorage Db) (f c : string) (w : W) :
  usableOpfs browser = None →
  ((∀ db, dbPromise self = Resolved db →
      (idb_get browser db "blobs" f
         (idb_put browser db "blobs" (JString c) f w).2).1 = Resolved (JString c)) →
   (writeBlob browser self f c w).1 = Resolved () →
   (readBlob browser self f (writeBlob browser self f c w).2).1
   = Resolved (JString c)) ∧
  ((∀ db, dbPromise self = Resolved db →
      (idb_get browser db "blobs" f
         (idb_delete browser db "blobs" f w).2).1 = Resolved JUndefined) →
   (deleteBlob browser self f w).1 = Resolved () →
   (readBlob browser self f (deleteBlob browser self f w).2).1 = Resolved JNull).
Proof.
  intros Hopfs. unfold writeBlob, readBlob, deleteBlob. rewrite Hopfs.
  destruct (dbPromise self) as [db|e] eqn:Hdb.
  - rewrite !(tx_resolved _ _ db) by done.
    unfold andThen, awaitDb, ret. rewrite Hdb. split.
    + intros Hget _. specialize (Hget db eq_refl).
      destruct (idb_get _ _ _ _ _) as [r w']. simpl in Hget. by rewrite Hget.
    + intros Hget _. specialize (Hget db eq_refl).
      destruct (idb_get _ _ _ _ _) as [r w']. simpl in Hget. by rewrite Hget.
  - rewrite !(tx_rejected _ _ e) by done. by split.
Qed.

(** ** Blobs through the OPFS *)

Section OpfsBlobs.
Variable opfs : Opfs W H.
Hypothesis usable : usableOpfs browser = Some opfs.

Lemma writeBlob_via_opfs (self : BrowserStorage Db) f c w :
  (opfsWrite browser opfs f c w).1 = Resolved () →
  writeBlob browser self f c w = opfsWrite browser opfs f c w.
Proof.
  intros Hw. unfold writeBlob. rewrite usable. unfold orElseDo.
  by destruct (opfsWrite _ _ _ _ _) as [[[]|e] w'].
Qed.

Lemma writeBlob_fallback (self : BrowserStorage Db) f c w :
  (opfsWrite browser opfs f c w).1 ≠ Resolved () →
  writeBlob browser self f c w
  = tx self (λ db, idb_put browser db "blobs" (JString c) f)
      (opfsWrite browser opfs f c w).2.
Proof.
  intros Hw. unfold writeBlob. rewrite usable. unfold orElseDo.
  by destruct (opfsWrite _ _ _ _ _) as [[[]|e] w'].
Qed.

Lemma readBlob_via_opfs (self : BrowserStorage Db) f w v :
  (opfsRead browser opfs f w).1 = Resolved v →
  (readBlob browser self f w).1 = Resolved v.
Proof.
  intros Hr. unfold readBlob. rewrite usable. unfold orElseDo.
  destruct (opfsRead _ _ _ _) as [[v'|e] w']; simpl in Hr; [done|discriminate].
Qed.

(** X18. A blob that was written through the OPFS is out of the reach of
    [deleteBlob], which deletes from IndexedDB only.  Provided the OPFS
    gives back what was written to it, and goes on doing so after the
    request to IndexedDB, the blob still reads back after [deleteBlob],
    whether that resolved or not. *)
Theorem opfs_blob_survives_delete (self : BrowserStorage Db) (f c : string) (w : W) :
  let w1 := (opfsWrite browser opfs f c w).2 in
  (opfsWrite browser opfs f c w).1 = Resolved () →
  (opfsRead browser opfs f w1).1 = Resolved (JString c) →
  (∀ db, dbPromise self = Resolved db →
     (opfsRead browser opfs f (idb_delete browser db "blobs" f w1).2).1
     = (opfsRead browser opfs f w1).1) →
  writeBlob browser self f c w = (Resolved (), w1) ∧
  (readBlob browser self f (deleteBlob browser self f w1).2).1
  = Resolved (JString c).
Proof.
  intros w1 Hw Hread Hframe. split.
  - rewrite writeBlob_via_opfs by done. subst w1.
    by destruct (opfsWrite _ _ _ _ _) as [[[]|e] w'].
  - apply readBlob_via_opfs. unfold deleteBlob.
    destruct (dbPromise self) as [db|e] eqn:Hdb.
    + rewrite (tx_resolved _ _ db) by done. by rewrite Hframe.
    + by rewrite (tx_rejected _ _ e).
Qed.

(** X19. When the OPFS attempt of [writeBlob] throws, the content goes to
    IndexedDB; but [readBlob] asks the OPFS first.  So if the OPFS held an
    older content under that path, and neither the failed attempt nor the
    request to IndexedDB changed what it reads, [readBlob] returns the older
    content, not the one just written, which IndexedDB holds. *)
Theorem stale_read_after_fallback (self : BrowserStorage Db) (f c old : string)
    (db : Db) (w : W) :
  let w1 := (opfsWrite browser opfs f c w).2 in
  let w2 := (idb_put browser db "blobs" (JString c) f w1).2 in
  dbPromise self = Resolved db →
  (opfsWrite browser opfs f c w).1 ≠ Resolved () →
  (opfsRead browser opfs f w).1 = Resolved (JString old) →
  (opfsRead browser opfs f w1).1 = (opfsRead browser opfs f w).1 →
  (opfsRead browser opfs f w2).1 = (opfsRead browser opfs f w1).1 →
  writeBlob browser self f c w = idb_put browser db "blobs" (JString c) f w1 ∧
  (readBlob browser self f w2).1 = Resolved (JString old).
Proof.
  intros w1 w2 Hdb Hfail Hold Hkeep Hframe. split.
  - rewrite writeBlob_fallback by done. by rewrite (tx_resolved _ _ db).
  - apply readBlob_via_opfs. by rewrite Hframe, Hkeep.
Qed.

End OpfsBlobs.
End Facts.

(** [without_indexedDB] in a browser that has the OPFS only. *)
Lemma without_indexedDB_witness :
  let browser := MemBrowser.memBrowser false true in
  let w := MemBrowser.emptyWorld 10 in
  let self := (construct browser w).1 in
  init self w = (Rejected notAvailable, w) ∧
  (writeBlob browser self "a.txt" "hi" w).1 = Resolved ().
Proof.
  intros browser w self.
  destruct (without_indexedDB browser w eq_refl) as [_ Hall].
  destruct (Hall "a.txt" "hi" JNull w) as (Hinit & _ & _ & _ & _ & Hopfs & _).
  split; [exact Hinit|].
  apply (Hopfs MemBrowser.memOpfs); reflexivity.
Defined.

(** [idb_blob_round_trip] in a browser that has IndexedDB only. *)
Lemma idb_blob_round_trip_witness :
  let browser := MemBrowser.memBrowser true false in
  let self := (construct browser (MemBrowser.emptyWorld 10)).1 in
  let w := (construct browser (MemBrowser.emptyWorld 10)).2 in
  (readBlob browser self "a.txt" (writeBlob browser self "a.txt" "hi" w).2).1
  = Resolved (JString "hi") ∧
  (readBlob browser self "a.txt" (deleteBlob browser self "a.txt" w).2).1
  = Resolved JNull.
Proof.
  intros browser self w.
  destruct (idb_blob_round_trip browser self "a.txt" "hi" w eq_refl) as [Hw Hd].
  split.
  - apply Hw; [|reflexivity]. intros db [= <-]. reflexivity.
  - apply Hd; [|reflexivity]. intros db [= <-]. reflexivity.
Defined.

(** [opfs_blob_survives_delete] in a browser that has both. *)
Lemma opfs_blob_survives_delete_witness :
  let browser := MemBrowser.memBrowser true true in
  let self := (construct browser (MemBrowser.emptyWorld 10)).1 in
  let w := (construct browser (MemBrowser.emptyWorld 10)).2 in
  let w1 := (writeBlob browser self "a.txt" "hi" w).2 in
  (deleteBlob browser self "a.txt" w1).1 = Resolved () ∧
  (readBlob browser self "a.txt" (deleteBlob browser self "a.txt" w1).2).1
  = Resolved (JString "hi").
Proof.
  intros browser self w w1. split; [reflexivity|].
  destruct (opfs_blob_survives_delete browser MemBrowser.memOpfs eq_refl
              self "a.txt" "hi" w eq_refl eq_refl) as [Hw Hr].
  { intros db [= <-]. reflexivity. }
  subst w1. rewrite Hw. exact Hr.
Defined.

(** [stale_read_after_fallback] where [a.txt] holds 'old' and a file has
    room for three characters: the five characters of 'newer' go to
    IndexedDB, and 'old' is read. *)
Lemma stale_read_after_fallback_witness :
  let browser := MemBrowser.memBrowser true true in
  let self := (construct browser MemBrowser.oldWorld).1 in
  let w := (construct browser MemBrowser.oldWorld).2 in
  (writeBlob browser self "a.txt" "newer" w).1 = Resolved () ∧
  (readBlob browser self "a.txt" (writeBlob browser self "a.txt" "newer" w).2).1
  = Resolved (JString "old") ∧
  (idb_get browser "apigit_storage" "blobs" "a.txt"
     (writeBlob browser self "a.txt" "newer" w).2).1
  = Resolved (JString "newer").
Proof.
  intros browser self w.
  destruct (stale_read_after_fallback browser MemBrowser.memOpfs eq_refl
              self "a.txt" "newer" "old" "apigit_storage" w eq_refl) as [Hw Hr];
    [discriminate|reflexivity..|].
  rewrite Hw. split; [reflexivity|]. split; [exact Hr|reflexivity].
Defined.

End BrowserFacts.

